(** * vido-react-ts: folder tree, natural sort, search and snapshot codec

    A shallow embedding of [src/utils/fileUtils.ts] and of the cache code of
    the [FileExplorer] component, with the properties of the specification
    proved (or refuted) over it; then of the handlers of [App], of the
    ordering of the [PlayList] component, of the tree, the selection and the
    folder choice of [FileExplorer], of [buildFolderTree] and of
    [calculateProgress], with further properties of the code.

    Conventions of the embedding.
    - A JavaScript string is the list of its UTF-16 code units ([list N]).
    - [String.prototype.toLowerCase] and [String.prototype.localeCompare]
      depend on the Unicode tables and on the host locale; they are
      parameters of the development.  Where a proof needs it,
      [localeCompare] is assumed to be a consistent comparator, which is
      what ECMA-402 requires of it.
    - File sizes, time stamps, durations and the values of [parseInt] on
      runs of decimal digits are integers; [parseInt] rounds to the nearest
      binary64 value, which is written out.  Playback times and progress
      are binary64 numbers ([spec_float]).
    - A handler of a component reads the state its last render closed over:
      a handler is modelled as a function of the state, and a sequence of
      calls as a fold, each call on the state the previous one left.
    - FolderNode objects are mutable and shared between [folderMap] and the
      [children] arrays: the builder is modelled over an explicit store. *)

From Stdlib Require Import ZArith NArith List Lia.
From Stdlib Require Import Sorting.Sorted Sorting.Permutation.
From Stdlib Require Ascii String.
From Stdlib Require Import Floats.SpecFloat.
From Stdlib Require Import DecimalNat.
From stdpp Require Import base option list strings gmap.

Local Open Scope Z_scope.
Set Warnings "-clear-no-such-hyp".

(** ** JavaScript strings *)

Module JSString.

(** Code units of a string literal that is plain ASCII. *)
Definition lit (s : String.string) : list N :=
  map Ascii.N_of_ascii (String.list_ascii_of_string s).

Definition eqb (a b : list N) : bool := bool_decide (a = b).

(** [s.startsWith(t)] *)
Fixpoint startsWith (s t : list N) : bool :=
  match t, s with
  | [], _ => true
  | _ :: _, [] => false
  | y :: t', x :: s' => N.eqb x y && startsWith s' t'
  end.

(** [s.includes(t)] : [t] occurs in [s] as a contiguous substring. *)
Fixpoint includes (s t : list N) : bool :=
  startsWith s t ||
  match s with
  | [] => false
  | _ :: s' => includes s' t
  end.

(** [s.split(sep)] for a separator of one code unit.  The result is never
    empty: the empty string splits into one empty piece. *)
Fixpoint split (sep : N) (s : list N) : list (list N) :=
  match s with
  | [] => [[]]
  | c :: s' =>
      if N.eqb c sep then [] :: split sep s'
      else match split sep s' with
           | piece :: rest => (c :: piece) :: rest
           | [] => [[c]]
           end
  end.

(** WhiteSpace and LineTerminator code units, as [trim] removes them. *)
Definition isWhiteSpace (c : N) : bool :=
  existsb (N.eqb c)
    [9; 10; 11; 12; 13; 32; 160; 5760; 8232; 8233; 8239; 8287; 12288; 65279]%N
  || (N.leb 8192 c && N.leb c 8202).

Fixpoint trimStart (s : list N) : list N :=
  match s with
  | c :: s' => if isWhiteSpace c then trimStart s' else s
  | [] => []
  end.

(** [s.trim()] *)
Definition trim (s : list N) : list N := rev (trimStart (rev (trimStart s))).

(** [s.lastIndexOf(c)], [-1] when [c] does not occur. *)
Fixpoint lastIndexOf_from (c : N) (s : list N) (i : Z) (found : Z) : Z :=
  match s with
  | [] => found
  | x :: s' => lastIndexOf_from c s' (i + 1) (if N.eqb x c then i else found)
  end.
Definition lastIndexOf (c : N) (s : list N) : Z := lastIndexOf_from c s 0 (-1).

(** [s.substring(i)]: a negative start is clamped to 0. *)
Definition substring (i : Z) (s : list N) : list N := drop (Z.to_nat i) s.

(** Code-unit order, one consistent comparator among many. *)
Fixpoint codeUnitCompare (a b : list N) : Z :=
  match a, b with
  | [], [] => 0
  | [], _ :: _ => -1
  | _ :: _, [] => 1
  | x :: a', y :: b' =>
      match N.compare x y with
      | Lt => -1
      | Gt => 1
      | Eq => codeUnitCompare a' b'
      end
  end.

(** ASCII-only lower-casing, one instance of [toLowerCase]. *)
Definition asciiLower (s : list N) : list N :=
  map (fun c => if (N.leb 65 c && N.leb c 90)%bool then (c + 32)%N else c) s.

End JSString.

(** ** The regular expressions of [extractNumberFromFileName] *)

Module RegExp.

Definition isDigit (c : N) : bool := N.leb 48 c && N.leb c 57.

(** The patterns in use are sequences of literal code units and of one
    capturing group [(\d+)]. *)
Inductive atom : Type :=
| Lit (c : N)
| Digits.

Record regexp : Type := mkRegExp {
  anchored : bool;          (* a leading [^] *)
  atoms : list atom
}.

(** The greedy group [(\d+)] followed by the rest [k] of the pattern: it
    first tries to consume one more digit and gives digits back only when
    the rest of the pattern fails.  [acc] is the text consumed so far. *)
Fixpoint matchDigits (k : list N -> list N -> option (list N))
    (acc : list N) (s : list N) : option (list N) :=
  match s with
  | d :: s' =>
      if isDigit d then
        match matchDigits k (acc ++ [d]) s' with
        | Some r => Some r
        | None => k (acc ++ [d]) s'
        end
      else None
  | [] => None
  end.

(** Backtracking match of [p] at the start of [s]; the result is the text
    of group 1. *)
Fixpoint matchHere (p : list atom) (cap : list N) (s : list N) : option (list N) :=
  match p with
  | [] => Some cap
  | Lit c :: p' =>
      match s with
      | x :: s' => if N.eqb x c then matchHere p' cap s' else None
      | [] => None
      end
  | Digits :: p' => matchDigits (matchHere p') [] s
  end.

(** Leftmost match anywhere in [s]. *)
Fixpoint search (p : list atom) (s : list N) : option (list N) :=
  match matchHere p [] s with
  | Some r => Some r
  | None =>
      match s with
      | [] => None
      | _ :: s' => search p s'
      end
  end.

(** [s.match(re)], reduced to what the caller reads: [match[1]]. *)
Definition exec (re : regexp) (s : list N) : option (list N) :=
  if anchored re then matchHere (atoms re) [] s else search (atoms re) s.

End RegExp.

(** ** Numbers *)

(** The values [extractNumberFromFileName] can return. *)
Inductive JSNumber : Type :=
| Finite (z : Z)
| Infinity.

Global Instance JSNumber_eq_dec : EqDecision JSNumber.
Proof. solve_decision. Defined.

(** The binary64 value nearest to a non-negative integer (ties to even),
    [Infinity] from 2^1024 - 2^970 on. *)
Definition roundToDouble (n : Z) : JSNumber :=
  if n <? 2 ^ 53 then Finite n
  else
    let e := Z.log2 n - 52 in
    let q := Z.shiftr n e in
    let r := n - Z.shiftl q e in
    let half := Z.shiftl 1 (e - 1) in
    let q' := if r <? half then q
              else if half <? r then q + 1
              else if Z.even q then q else q + 1 in
    let v := Z.shiftl q' e in
    if 2 ^ 1024 <=? v then Infinity else Finite v.

(** The integer a run of decimal digits denotes. *)
Definition digitsValue (ds : list N) : Z :=
  fold_left (fun acc d => 10 * acc + (Z.of_N d - 48)) ds 0.

(** [parseInt(ds, 10)] on a run of decimal digits. *)
Definition parseInt10 (ds : list N) : JSNumber := roundToDouble (digitsValue ds).

(** ** extractNumberFromFileName *)

Definition c_di : N := 31532.   (* U+7B2C *)
Definition c_jie : N := 33410.  (* U+8282 *)
Definition c_zhang : N := 31456. (* U+7AE0 *)
Definition c_ke : N := 35838.   (* U+8BFE *)

Definition pat_jie : RegExp.regexp :=
  RegExp.mkRegExp false [RegExp.Lit c_di; RegExp.Digits; RegExp.Lit c_jie].
Definition pat_zhang : RegExp.regexp :=
  RegExp.mkRegExp false [RegExp.Lit c_di; RegExp.Digits; RegExp.Lit c_zhang].
Definition pat_ke : RegExp.regexp :=
  RegExp.mkRegExp false [RegExp.Lit c_di; RegExp.Digits; RegExp.Lit c_ke].
Definition pat_leading : RegExp.regexp := RegExp.mkRegExp true [RegExp.Digits].
Definition pat_any : RegExp.regexp := RegExp.mkRegExp false [RegExp.Digits].

Definition patterns : list RegExp.regexp :=
  [pat_jie; pat_zhang; pat_ke; pat_leading; pat_any].

(** The [for (const pattern of patterns)] loop. *)
Fixpoint firstMatch (ps : list RegExp.regexp) (fileName : list N) : JSNumber :=
  match ps with
  | [] => Infinity
  | pattern :: ps' =>
      match RegExp.exec pattern fileName with
      | Some m1 => parseInt10 m1
      | None => firstMatch ps' fileName
      end
  end.

Definition extractNumberFromFileName (fileName : list N) : JSNumber :=
  firstMatch patterns fileName.

(** ** Array.prototype.sort *)

(** The sort is stable, and on a consistent comparator its result is fixed
    by the language: the stable insertion sort below is that result.  An
    element stays in front of the later elements the comparator does not
    order before it. *)
Section ArraySort.
Context {A : Type} (compareFn : A -> A -> Z).

Fixpoint sortInsert (x : A) (l : list A) : list A :=
  match l with
  | [] => [x]
  | y :: l' => if compareFn x y <=? 0 then x :: l else y :: sortInsert x l'
  end.

Definition arraySort (l : list A) : list A := foldr sortInsert [] l.
End ArraySort.

(** A [forEach] whose body can fail to come back. *)
Fixpoint foldlM {A B : Type} (f : A -> B -> option A) (a : A) (l : list B) : option A :=
  match l with
  | [] => Some a
  | x :: l' =>
      match f a x with
      | Some a' => foldlM f a' l'
      | None => None
      end
  end.

(** A comparator is consistent when it induces a total preorder. *)
Record Consistent {A : Type} (compareFn : A -> A -> Z) : Prop := {
  cmp_swap : forall a b, Z.sgn (compareFn b a) = - Z.sgn (compareFn a b);
  cmp_trans : forall a b c,
      compareFn a b <= 0 -> compareFn b c <= 0 -> compareFn a c <= 0
}.

(** ** The data model of [types/video.ts] *)

(** The [File] objects handed over by the browser: the opaque handle. *)
Record File : Type := mkFile {
  file_name : list N;
  file_webkitRelativePath : list N;
  file_size : N;
  file_type : list N
}.

(** [VideoFile]; [file] is absent on entries restored from the cache. *)
Record VideoFile : Type := mkVideoFile {
  v_file : option File;
  v_name : list N;
  v_path : list N;
  v_size : N;
  v_duration : option Z;
  v_thumbnail : option (list N)
}.

(** The elements of [allFiles] ([any] in the source): the object literal
    that [buildCompleteFolderTree] pushes. *)
Record FileItem : Type := mkFileItem {
  fi_file : option File;
  fi_name : list N;
  fi_path : list N;
  fi_size : N;
  fi_isVideo : bool
}.

(** [FolderNode], as a value: [allFiles] and [isExpanded] are optional. *)
Unset Elimination Schemes.
Inductive FolderNode : Type := mkFolderNode {
  name : list N;
  path : list N;
  children : list FolderNode;
  videos : list VideoFile;
  allFiles : option (list FileItem);
  isExpanded : option bool
}.
Set Elimination Schemes.

Global Instance File_eq_dec : EqDecision File.
Proof. solve_decision. Defined.
Global Instance VideoFile_eq_dec : EqDecision VideoFile.
Proof. solve_decision. Defined.
Global Instance FileItem_eq_dec : EqDecision FileItem.
Proof. solve_decision. Defined.

(** Induction over a folder together with all its descendants. *)
Section FolderNode_ind.
Variable P : FolderNode -> Prop.
Hypothesis step : forall n p ch vs af ex,
    Forall P ch -> P (mkFolderNode n p ch vs af ex).

Fixpoint FolderNode_deep_ind (f : FolderNode) : P f :=
  match f with
  | mkFolderNode n p ch vs af ex =>
      step n p ch vs af ex
        ((fix all (l : list FolderNode) : Forall P l :=
            match l with
            | [] => @List.Forall_nil _ P
            | c :: l' => @List.Forall_cons _ P c l' (FolderNode_deep_ind c) (all l')
            end) ch)
  end.
End FolderNode_ind.

(** ** The snapshot codec of the FileExplorer component *)

(** The simplified tree is handed to [JSON.stringify] and comes back from
    [JSON.parse] as [any]: every array-valued field may be missing. *)
Record SimpleVideo : Type := mkSimpleVideo {
  sv_name : list N;
  sv_path : list N;
  sv_size : N
}.

Record SimpleFile : Type := mkSimpleFile {
  sf_name : list N;
  sf_path : list N;
  sf_size : N;
  sf_isVideo : bool
}.

Unset Elimination Schemes.
Inductive Snapshot : Type := mkSnapshot {
  s_name : list N;
  s_path : list N;
  s_children : option (list Snapshot);
  s_videos : option (list SimpleVideo);
  s_allFiles : option (list SimpleFile);
  s_isExpanded : option bool
}.
Set Elimination Schemes.

Definition simplifyVideo (video : VideoFile) : SimpleVideo :=
  mkSimpleVideo (v_name video) (v_path video) (v_size video).

Definition simplifyFile (file : FileItem) : SimpleFile :=
  mkSimpleFile (fi_name file) (fi_path file) (fi_size file) (fi_isVideo file).

(** [simplifyFolderTree]; [allFiles?.map(...) || []]. *)
Fixpoint simplifyFolder (folder : FolderNode) : Snapshot :=
  mkSnapshot (name folder) (path folder)
    (Some (map simplifyFolder (children folder)))
    (Some (map simplifyVideo (videos folder)))
    (Some (match allFiles folder with
           | Some files => map simplifyFile files
           | None => []
           end))
    (isExpanded folder).

Definition simplifyFolderTree (folders : list FolderNode) : list Snapshot :=
  map simplifyFolder folders.

(** The entries of a restored tree are the parsed objects themselves: they
    carry no [file]. *)
Definition restoreVideo (v : SimpleVideo) : VideoFile :=
  mkVideoFile None (sv_name v) (sv_path v) (sv_size v) None None.

Definition restoreFile (f : SimpleFile) : FileItem :=
  mkFileItem None (sf_name f) (sf_path f) (sf_size f) (sf_isVideo f).

(** [x || []] and [x || false]. *)
Definition orEmpty {A : Type} (x : option (list A)) : list A :=
  match x with
  | Some l => l
  | None => []
  end.

Definition orFalse (x : option bool) : bool :=
  match x with
  | Some b => b
  | None => false
  end.

(** [restoreFolderTree] *)
Fixpoint restoreFolder (folder : Snapshot) : FolderNode :=
  mkFolderNode (s_name folder) (s_path folder)
    (match s_children folder with
     | Some cs => map restoreFolder cs
     | None => []
     end)
    (map restoreVideo (orEmpty (s_videos folder)))
    (Some (map restoreFile (orEmpty (s_allFiles folder))))
    (Some (orFalse (s_isExpanded folder))).

Definition restoreFolderTree (simplifiedTree : list Snapshot) : list FolderNode :=
  map restoreFolder simplifiedTree.

(** *** loadFolderFromCache *)

(** What [localStorage.getItem] returns for the two cache keys ([None] for
    [null]). *)
Record Storage : Type := mkStorage {
  FOLDER_CACHE : option (list N);
  FOLDER_CONTENT_CACHE : option (list N)
}.

(** The objects the two entries parse to. *)
Record CacheInfo : Type := mkCacheInfo {
  ci_folderName : list N;
  ci_timestamp : Z;
  ci_fileCount : Z
}.

Record ContentCache : Type := mkContentCache {
  cc_folderTree : option (list Snapshot);
  cc_timestamp : option Z
}.

(** The part of the component state the loader writes. *)
Record ExplorerState : Type := mkExplorerState {
  st_folders : list FolderNode;
  st_lastFolderPath : list N
}.

(** [useState([])], [useState("")]. *)
Definition initialState : ExplorerState := mkExplorerState [] [].

Record CacheReport : Type := mkCacheReport {
  r_info : CacheInfo;
  r_restored : bool
}.

(** How a block of statements ends. *)
Inductive Completion : Type :=
| Return (st : ExplorerState) (result : option CacheReport)
| Throw (st : ExplorerState).

(** A string is truthy when it is not empty; [null] is falsy. *)
Definition truthyString (x : option (list N)) : option (list N) :=
  match x with
  | Some (c :: s) => Some (c :: s)
  | _ => None
  end.

Definition RETENTION_MS : Z := 7 * 24 * 60 * 60 * 1000.

Section Cache.

(** [JSON.parse] followed by the destructuring of the result; [None]
    when either throws. *)
Variable parseInfo : list N -> option CacheInfo.
Variable parseContent : list N -> option ContentCache.

(** The body of the [try] block ([now] is [Date.now()]).  Falling out of
    the block is [Return _ None]: the statement after it is
    [return null]. *)
Definition loadBody (storage : Storage) (now : Z) (st : ExplorerState) : Completion :=
  match truthyString (FOLDER_CACHE storage) with
  | None => Return st None
  | Some cached =>
      match parseInfo cached with
      | None => Throw st
      | Some info =>
          let st1 := mkExplorerState (st_folders st) (ci_folderName info) in
          match truthyString (FOLDER_CONTENT_CACHE storage) with
          | None => Return st1 (Some (mkCacheReport info false))
          | Some contentCached =>
              match parseContent contentCached with
              | None => Throw st1
              | Some content =>
                  let isExpired :=
                    match cc_timestamp content with
                    | Some contentTimestamp => now - contentTimestamp >? RETENTION_MS
                    | None => false   (* NaN > x *)
                    end in
                  match negb isExpired, cc_folderTree content with
                  | true, Some folderTree =>
                      let restoredFolders := restoreFolderTree folderTree in
                      Return (mkExplorerState restoredFolders (st_lastFolderPath st1))
                        (Some (mkCacheReport info true))
                  | _, _ => Return st1 (Some (mkCacheReport info false))
                  end
              end
          end
      end
  end.

(** [try { ... } catch (error) { console.warn(...) } return null]. *)
Definition loadFolderFromCache (storage : Storage) (now : Z) (st : ExplorerState)
    : Completion :=
  match loadBody storage now st with
  | Return st' result => Return st' result
  | Throw st' => Return st' None
  end.

End Cache.

(** ** fileUtils.ts *)

Section FileUtils.

(** [String.prototype.toLowerCase] and [String.prototype.localeCompare]. *)
Variable toLowerCase : list N -> list N.
Variable localeCompare : list N -> list N -> Z.

Definition SUPPORTED_VIDEO_FORMATS : list (list N) :=
  map JSString.lit
    ["video/mp4"; "video/webm"; "video/ogg"; "video/avi";
     "video/mov"; "video/wmv"; "video/flv"; "video/mkv"]%string.

Definition isVideoByExtension (fileName : list N) : bool :=
  let videoExtensions :=
    map JSString.lit
      [".mp4"; ".webm"; ".ogg"; ".avi"; ".mov";
       ".wmv"; ".flv"; ".mkv"; ".m4v"; ".3gp"]%string in
  let extension :=
    JSString.substring (JSString.lastIndexOf 46 fileName) (toLowerCase fileName) in
  existsb (JSString.eqb extension) videoExtensions.

Definition isVideoFile (file : File) : bool :=
  existsb (JSString.eqb (file_type file)) SUPPORTED_VIDEO_FORMATS
  || isVideoByExtension (file_name file).

(** The comparator of [sortFilesByNumber], for any item with a [name]. *)
Definition compareByNumber {A : Type} (nameOf : A -> list N) (a b : A) : Z :=
  let numA := extractNumberFromFileName (nameOf a) in
  let numB := extractNumberFromFileName (nameOf b) in
  match numA, numB with
  | Finite x, Finite y => x - y
  | Finite _, Infinity => -1
  | Infinity, Finite _ => 1
  | Infinity, Infinity => localeCompare (nameOf a) (nameOf b)
  end.

Definition sortFilesByNumber {A : Type} (nameOf : A -> list N) (files : list A) : list A :=
  arraySort (compareByNumber nameOf) files.

(** *** buildCompleteFolderTree

    The FolderNode objects under construction are mutable and are reached
    both through [folderMap] and through the [children] arrays.  An object
    is created at the moment it is stored in [folderMap], under a key
    that is never written again: the store of objects is [folderMap]
    itself, and a reference to an object is its key.  [rootFolders] and
    [children] hold references. *)

Record FolderObj : Type := mkFolderObj {
  o_name : list N;
  o_path : list N;
  o_children : list (list N);
  o_videos : list VideoFile;
  o_allFiles : list FileItem;
  o_isExpanded : bool
}.

Record Builder : Type := mkBuilder {
  folderMap : gmap (list N) FolderObj;
  rootFolders : list (list N)
}.

Definition ROOT_NAME : list N := [26681; 30446; 24405]%N.  (* U+6839 U+76EE U+5F55 *)
Definition SLASH : N := 47.

(** [getRootFolder()]; the folder returned is the one under key [''] . *)
Definition getRootFolder (b : Builder) : Builder :=
  match folderMap b !! [] with
  | Some _ => b
  | None =>
      let rootFolder := mkFolderObj ROOT_NAME [] [] [] [] true in
      mkBuilder (<[ [] := rootFolder ]> (folderMap b)) (rootFolders b ++ [[]])
  end.

(** The unified item built for every input file. *)
Definition toFileItem (file : File) : FileItem :=
  mkFileItem (Some file) (file_name file)
    (match file_webkitRelativePath file with
     | [] => file_name file
     | p => p
     end)
    (file_size file) (isVideoFile file).

(** The projection pushed to [videos]. *)
Definition toVideoFile (fileItem : FileItem) : VideoFile :=
  mkVideoFile (fi_file fileItem) (fi_name fileItem) (fi_path fileItem)
    (fi_size fileItem) None None.

(** [folder.allFiles.push(fileItem)], and [folder.videos.push(...)] for a
    video. *)
Definition pushFile (fileItem : FileItem) (folder : FolderObj) : FolderObj :=
  mkFolderObj (o_name folder) (o_path folder) (o_children folder)
    (if fi_isVideo fileItem then o_videos folder ++ [toVideoFile fileItem]
     else o_videos folder)
    (o_allFiles folder ++ [fileItem])
    (o_isExpanded folder).

(** [folder.children.push(newFolder)] *)
Definition pushChild (child : list N) (folder : FolderObj) : FolderObj :=
  mkFolderObj (o_name folder) (o_path folder) (o_children folder ++ [child])
    (o_videos folder) (o_allFiles folder) (o_isExpanded folder).

(** One round of [pathParts.forEach]: the loop variables are
    [currentPath], [currentParent] and the builder. *)
Definition walkStep (st : list N * option (list N) * Builder) (folderName : list N)
    : list N * option (list N) * Builder :=
  let '(currentPath0, currentParent, b) := st in
  let parentPath := currentPath0 in
  let currentPath :=
    match currentPath0 with
    | [] => folderName
    | _ => currentPath0 ++ [SLASH] ++ folderName
    end in
  let b' :=
    match folderMap b !! currentPath with
    | Some _ => b
    | None =>
        let newFolder := mkFolderObj folderName currentPath [] [] [] false in
        let m := <[ currentPath := newFolder ]> (folderMap b) in
        match currentParent with
        | Some parent => mkBuilder (alter (pushChild currentPath) parent m) (rootFolders b)
        | None =>
            match parentPath with
            | [] => mkBuilder m (rootFolders b ++ [currentPath])
            | _ =>
                match m !! parentPath with
                | Some _ => mkBuilder (alter (pushChild currentPath) parentPath m) (rootFolders b)
                | None => mkBuilder m (rootFolders b)
                end
            end
        end
    end in
  (currentPath, (match folderMap b' !! currentPath with
                 | Some _ => Some currentPath
                 | None => None
                 end), b').

(** The body of [allFiles.forEach]. *)
Definition addFile (b : Builder) (fileItem : FileItem) : Builder :=
  let pathParts := removelast (JSString.split SLASH (fi_path fileItem)) in
  match pathParts with
  | [] =>
      let b1 := getRootFolder b in
      mkBuilder (alter (pushFile fileItem) [] (folderMap b1)) (rootFolders b1)
  | _ =>
      let '(_, currentParent, b1) := fold_left walkStep pathParts ([], None, b) in
      match currentParent with
      | Some folder => mkBuilder (alter (pushFile fileItem) folder (folderMap b1)) (rootFolders b1)
      | None => b1
      end
  end.

(** The state after the main loop. *)
Definition buildStore (files : list File) : Builder :=
  fold_left addFile (map toFileItem files) (mkBuilder ∅ []).

(** The name of the object behind a reference. *)
Definition nameAt (m : gmap (list N) FolderObj) (ref : list N) : list N :=
  match m !! ref with
  | Some o => o_name o
  | None => []
  end.

(** What [sortFolderContents] assigns to the three lists of [folder]; a
    list is sorted when it is not empty. *)
Definition sortOwnLists (m : gmap (list N) FolderObj) (folder : FolderObj) : FolderObj :=
  mkFolderObj (o_name folder) (o_path folder)
    (match o_children folder with
     | [] => []
     | cs => sortFilesByNumber (nameAt m) cs
     end)
    (match o_videos folder with
     | [] => []
     | vs => sortFilesByNumber v_name vs
     end)
    (match o_allFiles folder with
     | [] => []
     | fs => sortFilesByNumber fi_name fs
     end)
    (o_isExpanded folder).

(** [sortFolderContents(folder)], in place.  The recursion follows the
    [children] references; [fuel] bounds its depth, and [None] stands for
    a run that does not come back (or meets a dangling reference). *)
Fixpoint sortFolderContents (fuel : nat) (m : gmap (list N) FolderObj) (ref : list N)
    : option (gmap (list N) FolderObj) :=
  match fuel with
  | O => None
  | S fuel' =>
      match m !! ref with
      | None => None
      | Some folder =>
          let folder' := sortOwnLists m folder in
          foldlM (sortFolderContents fuel') (<[ ref := folder' ]> m) (o_children folder')
      end
  end.

(** The forest a list of references stands for, as a value. *)
Fixpoint toFolderNode (fuel : nat) (m : gmap (list N) FolderObj) (ref : list N)
    : option FolderNode :=
  match fuel with
  | O => None
  | S fuel' =>
      match m !! ref with
      | None => None
      | Some o =>
          match mapM (toFolderNode fuel' m) (o_children o) with
          | None => None
          | Some ch =>
              Some (mkFolderNode (o_name o) (o_path o) ch (o_videos o)
                      (Some (o_allFiles o)) (Some (o_isExpanded o)))
          end
      end
  end.

(** The store after the sorting pass and the sorted copy of [rootFolders]. *)
Definition sortedStore (files : list File) : option Builder :=
  let b := buildStore files in
  match foldlM (sortFolderContents (S (size (folderMap b)))) (folderMap b) (rootFolders b) with
  | None => None
  | Some m => Some (mkBuilder m (sortFilesByNumber (nameAt m) (rootFolders b)))
  end.

Definition buildCompleteFolderTree (files : list File) : option (list FolderNode) :=
  match sortedStore files with
  | None => None
  | Some b => mapM (toFolderNode (S (size (folderMap b))) (folderMap b)) (rootFolders b)
  end.

(** [getAllVideosFromFolder] *)
Fixpoint getAllVideosFromFolder (folder : FolderNode) : list VideoFile :=
  videos folder ++ flat_map getAllVideosFromFolder (children folder).

(** [searchVideos]: [results] is filled folder by folder, each folder's
    own videos first, then its children in order. *)
Definition nameMatches (lowerSearchTerm : list N) (video : VideoFile) : bool :=
  JSString.includes (toLowerCase (v_name video)) lowerSearchTerm.

Fixpoint searchInFolder (lowerSearchTerm : list N) (folder : FolderNode)
    (results : list VideoFile) : list VideoFile :=
  let results1 := results ++ List.filter (nameMatches lowerSearchTerm) (videos folder) in
  fold_left (fun acc child => searchInFolder lowerSearchTerm child acc)
    (children folder) results1.

Definition searchVideos (folders : list FolderNode) (searchTerm : list N) : list VideoFile :=
  let lowerSearchTerm := toLowerCase searchTerm in
  fold_left (fun acc folder => searchInFolder lowerSearchTerm folder acc) folders [].

(** [handleSearch] of the FileExplorer component, the search the user
    interface performs: the new value of [searchResults]. *)
Definition handleSearch (folders : list FolderNode) (value : list N) : list VideoFile :=
  if JSString.eqb (JSString.trim value) [] then []
  else
    let results := searchVideos folders value in
    let sortedResults := sortFilesByNumber v_name results in
    sortedResults.

End FileUtils.

(** ** Notions the statements use *)

(** The key of an item, as the comparator reads it. *)
Definition hasNumber (fileName : list N) : bool :=
  match extractNumberFromFileName fileName with
  | Finite _ => true
  | Infinity => false
  end.

(** The order the specification asks of two items [a] before [b]. *)
Definition naturalOrder (localeCompare : list N -> list N -> Z) (a b : list N) : Prop :=
  match extractNumberFromFileName a, extractNumberFromFileName b with
  | Finite x, Finite y => x <= y
  | Finite _, Infinity => True
  | Infinity, Finite _ => False
  | Infinity, Infinity => localeCompare a b <= 0
  end.

(** Every folder of a forest, parents before their children. *)
Fixpoint folderNodes (folder : FolderNode) : list FolderNode :=
  folder :: flat_map folderNodes (children folder).

Definition forestNodes (forest : list FolderNode) : list FolderNode :=
  flat_map folderNodes forest.

(** Rewriting the [isExpanded] flag of every folder of a snapshot. *)
Fixpoint mapExpanded (g : option bool -> option bool) (s : Snapshot) : Snapshot :=
  mkSnapshot (s_name s) (s_path s)
    (match s_children s with
     | Some cs => Some (map (mapExpanded g) cs)
     | None => None
     end)
    (s_videos s) (s_allFiles s) (g (s_isExpanded s)).

(** Every folder of the forest has its [isExpanded] flag set. *)
Fixpoint expandedSet (folder : FolderNode) : bool :=
  match isExpanded folder with
  | Some _ => forallb expandedSet (children folder)
  | None => false
  end.

(** A path with its final [/]-separated segment removed: the text before
    the last [/], the empty string when there is none. *)
Fixpoint dirname_aux (s : list N) : option (list N) :=
  match s with
  | [] => None
  | c :: s' =>
      match dirname_aux s' with
      | Some d => Some (c :: d)
      | None => if N.eqb c SLASH then Some [] else None
      end
  end.

Definition dirname (s : list N) : list N :=
  match dirname_aux s with
  | Some d => d
  | None => []
  end.

(** [segments.join('/')] *)
Fixpoint joinSlash (segments : list (list N)) : list N :=
  match segments with
  | [] => []
  | [segment] => segment
  | segment :: rest => segment ++ SLASH :: joinSlash rest
  end.

(** The folder segments of a path: its segments without the leaf name. *)
Definition folderSegments (p : list N) : list (list N) :=
  removelast (JSString.split SLASH p).

(** A relative path does not begin with [/]. *)
Definition relativePath (p : list N) : Prop :=
  match p with
  | c :: _ => c <> SLASH
  | [] => True
  end.

(** Depth of a forest, in levels of folders. *)
Fixpoint depthNode (folder : FolderNode) : nat :=
  S (list_max (map depthNode (children folder))).

Definition depthForest (forest : list FolderNode) : nat :=
  list_max (map depthNode forest).

(** The same, counting the steps from a root down instead of the levels. *)
Definition depthEdges (forest : list FolderNode) : nat := pred (depthForest forest).

(** The [children] references of a store, as a relation between objects. *)
Definition childOf (m : gmap (list N) FolderObj) (parent child : list N) : Prop :=
  exists o, m !! parent = Some o /\ child ∈ o_children o.

(** What holds of the store throughout [buildCompleteFolderTree], for any
    input: an object sits under its own path; the [children] of an object
    are registered objects with a longer path, one segment below it; roots
    are registered and have a one-segment path; no reference occurs twice;
    every object but a root is a child of the object its path points to. *)
Record StoreInv (b : Builder) : Prop := {
  si_path : forall k o, folderMap b !! k = Some o -> o_path o = k;
  si_child : forall k o c, folderMap b !! k = Some o -> c ∈ o_children o ->
    is_Some (folderMap b !! c) /\ (length k < length c)%nat /\ dirname c = k;
  si_root : forall r, r ∈ rootFolders b ->
    is_Some (folderMap b !! r) /\ SLASH ∉ r;
  si_nodup_children : forall k o, folderMap b !! k = Some o -> NoDup (o_children o);
  si_nodup_roots : NoDup (rootFolders b);
  si_root_not_child : forall r k o, r ∈ rootFolders b ->
    folderMap b !! k = Some o -> r ∉ o_children o;
  si_attached : forall k, is_Some (folderMap b !! k) ->
    k ∈ rootFolders b \/ childOf (folderMap b) (dirname k) k
}.


(** The three updates the main loop performs. *)
Definition insertRoot (b : Builder) (k : list N) (o : FolderObj) : Builder :=
  mkBuilder (<[ k := o ]> (folderMap b)) (rootFolders b ++ [k]).

Definition insertChild (b : Builder) (parent k : list N) (o : FolderObj) : Builder :=
  mkBuilder (alter (pushChild k) parent (<[ k := o ]> (folderMap b))) (rootFolders b).

Definition pushFileAt (b : Builder) (k : list N) (fileItem : FileItem) : Builder :=
  mkBuilder (alter (pushFile fileItem) k (folderMap b)) (rootFolders b).

(** [currentPath ? `${currentPath}/${folderName}` : folderName] *)
Definition nextPath (currentPath folderName : list N) : list N :=
  match currentPath with
  | [] => folderName
  | _ => currentPath ++ [SLASH] ++ folderName
  end.

(** One round of the walk and the whole walk, in terms of the updates
    above: the folder for the next prefix is created when it is missing,
    under the folder of the previous prefix or among the roots. *)
Definition stepBuilder (b : Builder) (currentPath : list N) (currentParent : option (list N))
    (folderName : list N) : Builder :=
  let k := nextPath currentPath folderName in
  match folderMap b !! k with
  | Some _ => b
  | None =>
      match currentParent with
      | Some parent => insertChild b parent k (mkFolderObj folderName k [] [] [] false)
      | None => insertRoot b k (mkFolderObj folderName k [] [] [] false)
      end
  end.

Fixpoint walkBuilder (pathParts : list (list N)) (currentPath : list N)
    (currentParent : option (list N)) (b : Builder) : Builder :=
  match pathParts with
  | [] => b
  | folderName :: rest =>
      walkBuilder rest (nextPath currentPath folderName)
        (Some (nextPath currentPath folderName))
        (stepBuilder b currentPath currentParent folderName)
  end.

(** Why the recursions over [children] come back: a child has a longer
    path than its parent and is registered. *)
Definition Shape (m : gmap (list N) FolderObj) : Prop :=
  forall k o c, m !! k = Some o -> c ∈ o_children o ->
    is_Some (m !! c) /\ (length k < length c)%nat.

(** The registered paths longer than [k]: their number bounds the depth
    below [k]. *)
Definition deeper (m : gmap (list N) FolderObj) (k : list N) : gset (list N) :=
  filter (fun q => (length k < length q)%nat) (dom m).

(** An object and a reordering of its lists. *)
Definition sameUpToOrder (o o' : FolderObj) : Prop :=
  o_name o' = o_name o /\ o_path o' = o_path o /\
  o_isExpanded o' = o_isExpanded o /\
  Permutation (o_children o') (o_children o) /\
  Permutation (o_videos o') (o_videos o) /\
  Permutation (o_allFiles o') (o_allFiles o).

(** Two stores with the same objects up to the order of their lists. *)
Definition StoreReorder (m m' : gmap (list N) FolderObj) : Prop :=
  forall k, option_Forall2 sameUpToOrder (m !! k) (m' !! k).

(** A folder of the returned forest shows the object [o] of the store. *)
Definition shows (o : FolderObj) (folder : FolderNode) : Prop :=
  name folder = o_name o /\ path folder = o_path o /\
  videos folder = o_videos o /\ allFiles folder = Some (o_allFiles o) /\
  isExpanded folder = Some (o_isExpanded o).

(** The key of the folder that receives a file. *)
Definition pushKey (fileItem : FileItem) : list N :=
  fold_left nextPath (folderSegments (fi_path fileItem)) [].

(** A property of every object of the store, stated with its key. *)
Definition KeyedInv (Q : list N -> FolderObj -> Prop) (m : gmap (list N) FolderObj) : Prop :=
  forall k o, m !! k = Some o -> Q k o.

(** The path of a descriptor: [file.webkitRelativePath || file.name]. *)
Definition descriptorPath (file : File) : list N :=
  match file_webkitRelativePath file with
  | [] => file_name file
  | p => p
  end.

(** The files of a folder are files of that folder. *)
Definition filesBelong (k : list N) (o : FolderObj) : Prop :=
  (forall f, f ∈ o_allFiles o -> dirname (fi_path f) = k) /\
  (forall v, v ∈ o_videos o -> dirname (v_path v) = k).

(** [videos] is the video part of [allFiles], entry by entry. *)
Definition videosOfFiles (k : list N) (o : FolderObj) : Prop :=
  o_videos o = map toVideoFile (List.filter fi_isVideo (o_allFiles o)).

(** A video entry and the [allFiles] entry it was made from. *)
Definition sameEntry (video : VideoFile) (entry : FileItem) : Prop :=
  v_name video = fi_name entry /\ v_path video = fi_path entry /\
  v_size video = fi_size entry /\ fi_isVideo entry = true.

(** Sample batches for the instances below. *)
Definition sampleFile (webkitRelativePath : string) (fileName : string) : File :=
  mkFile (JSString.lit fileName) (JSString.lit webkitRelativePath) 1 [].

Definition sampleBatch : list File :=
  [sampleFile "Course/Part 2/b.mp4" "b.mp4"; sampleFile "Course/a.txt" "a.txt";
   sampleFile "Course/Part 2/a1.mp4" "a1.mp4"].

(** The number of segments of a path. *)
Definition level (k : list N) : nat := length (JSString.split SLASH k).

(** The folder levels a descriptor asks for: its folder segments, and one
    level for the root folder when it has none. *)
Definition levelsOf (file : File) : nat :=
  Nat.max 1 (length (folderSegments (descriptorPath file))).

(** The root folder [''] has no sub-folders. *)
Definition rootIsFlat (m : gmap (list N) FolderObj) : Prop :=
  forall o, m !! [] = Some o -> o_children o = [].

(** No registered path has more than [bound] segments. *)
Definition levelBound (bound : nat) (m : gmap (list N) FolderObj) : Prop :=
  forall k, is_Some (m !! k) -> (level k <= bound)%nat.

(** The paths the walk over [pathParts] registers, in order. *)
Fixpoint walkKeys (pathParts : list (list N)) (currentPath : list N) : list (list N) :=
  match pathParts with
  | [] => []
  | folderName :: rest =>
      nextPath currentPath folderName :: walkKeys rest (nextPath currentPath folderName)
  end.

(** The paths one file makes sure are registered. *)
Definition keysOf (fileItem : FileItem) : gset (list N) :=
  match folderSegments (fi_path fileItem) with
  | [] => {[ [] ]}
  | pathParts => list_to_set (walkKeys pathParts [])
  end.

(** The last segment of a path, and the name and flag a folder gets from
    its path. *)
Definition basename (k : list N) : list N := List.last (JSString.split SLASH k) [].

Definition nameFor (k : list N) : list N :=
  match k with
  | [] => ROOT_NAME
  | _ => basename k
  end.

Definition expandedFor (k : list N) : bool :=
  match k with
  | [] => true
  | _ => false
  end.

Definition namedByKey (m : gmap (list N) FolderObj) : Prop :=
  forall k o, m !! k = Some o ->
    o_name o = nameFor k /\ o_isExpanded o = expandedFor k.

(** After the files [done], every one of them has its folder, and a folder
    holds the files whose folder it is, in input order. *)
Definition filesExact (done : list FileItem) (b : Builder) : Prop :=
  (forall f, f ∈ done -> is_Some (folderMap b !! pushKey f)) /\
  (forall k o, folderMap b !! k = Some o ->
     o_allFiles o = List.filter (fun f => bool_decide (pushKey f = k)) done).

(** No two different entries of a list tie under the comparator. *)
Definition tieFree (localeCompare : list N -> list N -> Z) {A : Type}
    (nameOf : A -> list N) (l : list A) : Prop :=
  forall a b, In a l -> In b l -> compareByNumber localeCompare nameOf a b = 0 -> a = b.

(** The same for every list of siblings of a forest. *)
Definition forestTieFree (localeCompare : list N -> list N -> Z)
    (forest : list FolderNode) : Prop :=
  tieFree localeCompare name forest /\
  forall folder, In folder (forestNodes forest) ->
    tieFree localeCompare name (children folder) /\
    tieFree localeCompare v_name (videos folder) /\
    tieFree localeCompare fi_name (orEmpty (allFiles folder)).

(** The store with the lists of every object sorted. *)
Definition sortAll (localeCompare : list N -> list N -> Z)
    (m : gmap (list N) FolderObj) : gmap (list N) FolderObj :=
  sortOwnLists localeCompare m <$> m.

(** During the pass over a store [m0]: every object is as it was or has
    its lists sorted. *)
Definition PassInv (localeCompare : list N -> list N -> Z)
    (m0 m : gmap (list N) FolderObj) : Prop :=
  forall k,
    match m0 !! k with
    | None => m !! k = None
    | Some o => m !! k = Some o \/ m !! k = Some (sortOwnLists localeCompare m0 o)
    end.

Definition Done (localeCompare : list N -> list N -> Z)
    (m0 m : gmap (list N) FolderObj) (k : list N) : Prop :=
  exists o, m0 !! k = Some o /\ m !! k = Some (sortOwnLists localeCompare m0 o).

(** What one call of the pass on the reference [k] establishes: the
    objects below [k] are sorted, and sorted objects stay so. *)
Definition passStep (localeCompare : list N -> list N -> Z)
    (m0 : gmap (list N) FolderObj)
    (run : gmap (list N) FolderObj -> list N -> option (gmap (list N) FolderObj))
    : Prop :=
  forall m k m',
    PassInv localeCompare m0 m -> run m k = Some m' ->
    PassInv localeCompare m0 m' /\
    (forall x, Done localeCompare m0 m x -> Done localeCompare m0 m' x) /\
    (forall x, rtc (childOf m0) k x -> Done localeCompare m0 m' x).

(** The batch of the scenario of the specification:
    [A/第2节.mp4], [A/第1节.mp4], [B.mp4]. *)
Definition lessonName (n : string) : list N :=
  [c_di] ++ JSString.lit n ++ [c_jie] ++ JSString.lit ".mp4".

Definition scenarioBatch : list File :=
  [mkFile (lessonName "2") (JSString.lit "A/" ++ lessonName "2") 1 [];
   mkFile (lessonName "1") (JSString.lit "A/" ++ lessonName "1") 1 [];
   mkFile (JSString.lit "B.mp4") [] 1 []].

(** The three ways a snapshot can be unusable at load time. *)
Definition snapshotMissing (storage : Storage) : Prop :=
  FOLDER_CACHE storage = None \/ FOLDER_CONTENT_CACHE storage = None.

Definition snapshotCorrupted (parseInfo : list N -> option CacheInfo)
    (parseContent : list N -> option ContentCache) (storage : Storage) : Prop :=
  (exists s, FOLDER_CACHE storage = Some s /\ parseInfo s = None) \/
  (exists s, FOLDER_CONTENT_CACHE storage = Some s /\ parseContent s = None).

Definition snapshotExpired (parseContent : list N -> option ContentCache)
    (storage : Storage) (now : Z) : Prop :=
  exists s content contentTimestamp,
    FOLDER_CONTENT_CACHE storage = Some s /\
    parseContent s = Some content /\
    cc_timestamp content = Some contentTimestamp /\
    now - contentTimestamp > RETENTION_MS.

(** The forest the component shows after a completion. *)
Definition foldersOf (c : Completion) : list FolderNode :=
  match c with
  | Return st _ => st_folders st
  | Throw st => st_folders st
  end.

Definition raises (c : Completion) : bool :=
  match c with
  | Return _ _ => false
  | Throw _ => true
  end.

(** Sample data for the instances below. *)
Definition sampleVideo (fileName : string) : VideoFile :=
  mkVideoFile None (JSString.lit fileName) (JSString.lit fileName) 1 None None.

Definition sampleFolder : FolderNode :=
  mkFolderNode (JSString.lit "Course") (JSString.lit "Course") []
    [sampleVideo "Lesson 2.mp4"; sampleVideo "Lesson 1.mp4"] None None.

(** ** The playlist of [App.tsx] and of the PlayList component *)

(** [PlaylistItem] of [types/video.ts]; [playedTime] is a binary64 number. *)
Record PlaylistItem : Type := mkPlaylistItem {
  item_id : list N;
  item_video : VideoFile;
  item_isPlaying : option bool;
  item_playedTime : option spec_float
}.

(** [array[i]] for an integer [i]: [undefined] outside the array. *)
Definition at_index {A : Type} (l : list A) (i : Z) : option A :=
  if i <? 0 then None else l !! Z.to_nat i.

(** [array.findIndex(p)]: the index of the first element that satisfies
    [p], [-1] when there is none. *)
Fixpoint findIndex_from {A : Type} (p : A -> bool) (l : list A) (i : Z) : Z :=
  match l with
  | [] => -1
  | x :: l' => if p x then i else findIndex_from p l' (i + 1)
  end.

Definition findIndex {A : Type} (p : A -> bool) (l : list A) : Z := findIndex_from p l 0.

Module App.

(** The three [useState] cells of [App]. *)
Record State : Type := mkState {
  currentVideo : option VideoFile;
  playlist : list PlaylistItem;
  currentIndex : Z
}.

(** [useState(null)], [useState([])], [useState(-1)]. *)
Definition initial : State := mkState None [] (-1).

(** [item.video.path === video.path && item.video.name === video.name] *)
Definition samePathAndName (video : VideoFile) (item : PlaylistItem) : bool :=
  JSString.eqb (v_path (item_video item)) (v_path video)
  && JSString.eqb (v_name (item_video item)) (v_name video).

(** [handleVideoSelect(video)]; [newId] is the string
    [`${Date.now()}-${Math.random()}`] the environment supplies. *)
Definition handleVideoSelect (newId : list N) (video : VideoFile) (st : State) : State :=
  let existingIndex := findIndex (samePathAndName video) (playlist st) in
  if negb (existingIndex =? -1) then
    mkState (Some video) (playlist st) existingIndex
  else
    let newPlaylistItem := mkPlaylistItem newId video (Some false) None in
    let newPlaylist := playlist st ++ [newPlaylistItem] in
    mkState (Some video) newPlaylist (Z.of_nat (length newPlaylist) - 1).

(** [handleVideoEnd()]; [None] when reading [playlist[nextIndex].video]
    throws because there is no such element. *)
Definition handleVideoEnd (st : State) : option State :=
  if currentIndex st <? Z.of_nat (length (playlist st)) - 1 then
    let nextIndex := currentIndex st + 1 in
    match at_index (playlist st) nextIndex with
    | Some item => Some (mkState (Some (item_video item)) (playlist st) nextIndex)
    | None => None
    end
  else Some st.

(** [{ ...item, playedTime: currentTime }] *)
Definition withPlayedTime (currentTime : spec_float) (item : PlaylistItem) : PlaylistItem :=
  mkPlaylistItem (item_id item) (item_video item) (item_isPlaying item) (Some currentTime).

(** [handleTimeUpdate(currentTime)] *)
Definition handleTimeUpdate (currentTime : spec_float) (st : State) : State :=
  if (0 <=? currentIndex st) && (currentIndex st <? Z.of_nat (length (playlist st))) then
    let updatedPlaylist :=
      alter (withPlayedTime currentTime) (Z.to_nat (currentIndex st)) (playlist st) in
    mkState (currentVideo st) updatedPlaylist (currentIndex st)
  else st.

(** The calls the two child components make. *)
Inductive Event : Type :=
| VideoSelect (newId : list N) (video : VideoFile)
| VideoEnd
| TimeUpdate (currentTime : spec_float).

Definition step (st : State) (event : Event) : option State :=
  match event with
  | VideoSelect newId video => Some (handleVideoSelect newId video st)
  | VideoEnd => handleVideoEnd st
  | TimeUpdate currentTime => Some (handleTimeUpdate currentTime st)
  end.

(** The state after a sequence of calls, from the first render on; the
    component is rendered again between two calls. *)
Definition run (events : list Event) : option State := foldlM step initial events.

(** What identifies a video in the playlist. *)
Definition identity (item : PlaylistItem) : list N * list N :=
  (v_path (item_video item), v_name (item_video item)).

(** The index is [-1] on an empty playlist with nothing playing, or points
    at an item that has the path and name of the current video; no two
    items have the same path and name. *)
Definition wellFormed (st : State) : Prop :=
  -1 <= currentIndex st < Z.of_nat (length (playlist st)) /\
  (currentIndex st = -1 -> currentVideo st = None /\ playlist st = []) /\
  (0 <= currentIndex st ->
   exists item video,
     at_index (playlist st) (currentIndex st) = Some item /\
     currentVideo st = Some video /\
     v_path video = v_path (item_video item) /\
     v_name video = v_name (item_video item)) /\
  NoDup (map identity (playlist st)).

End App.

Module PlayList.

(** ["name" | "size" | "duration"] and ["asc" | "desc"]. *)
Inductive SortBy : Type := byName | bySize | byDuration.
Inductive SortOrder : Type := asc | desc.

Global Instance SortBy_eq_dec : EqDecision SortBy.
Proof. solve_decision. Defined.

(** The two [useState] cells that drive the order of the rows. *)
Record Controls : Type := mkControls {
  sortBy : SortBy;
  sortOrder : SortOrder
}.

(** [x || 0] *)
Definition orZero (x : option Z) : Z :=
  match x with
  | Some d => d
  | None => 0
  end.

Section Sorting.
Variable localeCompare : list N -> list N -> Z.

(** The comparator handed to [sort]. *)
Definition compareItems (c : Controls) (a b : PlaylistItem) : Z :=
  let comparison :=
    match sortBy c with
    | byName => localeCompare (v_name (item_video a)) (v_name (item_video b))
    | bySize => Z.of_N (v_size (item_video a)) - Z.of_N (v_size (item_video b))
    | byDuration =>
        let aDuration := orZero (v_duration (item_video a)) in
        let bDuration := orZero (v_duration (item_video b)) in
        aDuration - bDuration
    end in
  match sortOrder c with
  | asc => comparison
  | desc => - comparison
  end.

(** [getSortedPlaylist()] *)
Definition getSortedPlaylist (c : Controls) (playlist : list PlaylistItem)
    : list PlaylistItem :=
  arraySort (compareItems c) playlist.

(** Where the chosen key allows [a] in front of [b]. *)
Definition inOrder (c : Controls) (a b : PlaylistItem) : Prop :=
  match sortBy c, sortOrder c with
  | byName, asc => localeCompare (v_name (item_video a)) (v_name (item_video b)) <= 0
  | byName, desc => localeCompare (v_name (item_video a)) (v_name (item_video b)) >= 0
  | bySize, asc => (v_size (item_video a) <= v_size (item_video b))%N
  | bySize, desc => (v_size (item_video b) <= v_size (item_video a))%N
  | byDuration, asc =>
      orZero (v_duration (item_video a)) <= orZero (v_duration (item_video b))
  | byDuration, desc =>
      orZero (v_duration (item_video b)) <= orZero (v_duration (item_video a))
  end.

End Sorting.

(** [handleSort(newSortBy)] *)
Definition handleSort (newSortBy : SortBy) (c : Controls) : Controls :=
  if bool_decide (sortBy c = newSortBy) then
    mkControls (sortBy c) (match sortOrder c with asc => desc | desc => asc end)
  else mkControls newSortBy asc.

(** [playlist.findIndex(p => p.id === item.id)], the index a row hands to
    [onVideoSelect] and [onRemoveVideo]. *)
Definition originalIndex (playlist : list PlaylistItem) (item : PlaylistItem) : Z :=
  findIndex (fun p => JSString.eqb (item_id p) (item_id item)) playlist.

End PlayList.

(** Sample playlist items. *)
Definition sampleItem (id : string) (fileName : string) (bytes : N) : PlaylistItem :=
  mkPlaylistItem (JSString.lit id)
    (mkVideoFile None (JSString.lit fileName) (JSString.lit fileName) bytes None None)
    (Some false) None.

Definition samplePlaylist : list PlaylistItem :=
  [sampleItem "1-0.5" "b.mp4" 30; sampleItem "2-0.25" "a.mp4" 20;
   sampleItem "3-0.75" "c.mp4" 10].

(** ** Notions of the further properties of [fileUtils.ts] *)

(** The extensions [isVideoByExtension] accepts. *)
Definition videoExtensions : list (list N) :=
  map JSString.lit
    [".mp4"; ".webm"; ".ogg"; ".avi"; ".mov";
     ".wmv"; ".flv"; ".mkv"; ".m4v"; ".3gp"]%string.

(** An extension is a dot followed by code units that are no dot. *)
Definition dotThenNoDot (extension : list N) : bool :=
  match extension with
  | c :: rest => N.eqb c 46 && forallb (fun x => negb (N.eqb x 46)) rest
  | [] => false
  end.

(** What a restored entry keeps of a video: it loses its [File]. *)
Definition withoutFile (video : VideoFile) : VideoFile :=
  restoreVideo (simplifyVideo video).

(** [convertFilesToVideoFiles]: the loop pushes an entry for every file
    that [isVideoFile] accepts. *)
Definition convertFilesToVideoFiles (toLowerCase : list N -> list N) (files : list File)
    : list VideoFile :=
  fold_left
    (fun videoFiles file =>
       if isVideoFile toLowerCase file then
         videoFiles ++
         [mkVideoFile (Some file) (file_name file)
            (match file_webkitRelativePath file with
             | [] => file_name file
             | p => p
             end)
            (file_size file) None None]
       else videoFiles)
    files [].

(** The files and the videos an object of the store holds. *)
Definition filesAt (m : gmap (list N) FolderObj) (k : list N) : list FileItem :=
  match m !! k with
  | Some o => o_allFiles o
  | None => []
  end.

Definition videosAt (m : gmap (list N) FolderObj) (k : list N) : list VideoFile :=
  match m !! k with
  | Some o => o_videos o
  | None => []
  end.

(** The entries of the [allFiles] lists of a forest, folder by folder. *)
Definition forestFiles (forest : list FolderNode) : list FileItem :=
  flat_map (fun folder => orEmpty (allFiles folder)) (forestNodes forest).

(** ** The tree of the FileExplorer component *)

(** [String(index)] for an array index: its decimal digits. *)
Fixpoint uintDigits (d : Decimal.uint) : list N :=
  match d with
  | Decimal.Nil => []
  | Decimal.D0 d' => 48%N :: uintDigits d'
  | Decimal.D1 d' => 49%N :: uintDigits d'
  | Decimal.D2 d' => 50%N :: uintDigits d'
  | Decimal.D3 d' => 51%N :: uintDigits d'
  | Decimal.D4 d' => 52%N :: uintDigits d'
  | Decimal.D5 d' => 53%N :: uintDigits d'
  | Decimal.D6 d' => 54%N :: uintDigits d'
  | Decimal.D7 d' => 55%N :: uintDigits d'
  | Decimal.D8 d' => 56%N :: uintDigits d'
  | Decimal.D9 d' => 57%N :: uintDigits d'
  end.

Definition numberToString (n : nat) : list N := uintDigits (Nat.to_uint n).

(** The [title] of a row is a React element; it is kept as the values it
    shows: the name, the formatted size and the video badge of a file, the
    name and the two counts of a folder. *)
Record FileTitle : Type := mkFileTitle {
  ft_name : list N;
  ft_size : list N;
  ft_isVideo : bool
}.

Record FolderTitle : Type := mkFolderTitle {
  fo_name : list N;
  fo_totalFiles : nat;
  fo_videoCount : nat
}.

(** The rows [convertToTreeData] hands to the antd [Tree]: a file row
    ([isLeaf: true], [selectable: true]) carries [fileData], a folder row
    carries [folderData] and its [children], [undefined] when it has
    none. *)
Unset Elimination Schemes.
Inductive TreeDataNode : Type :=
| FileLeaf (title : FileTitle) (key : list N) (fileData : FileItem)
| FolderBranch (title : FolderTitle) (key : list N)
    (children : option (list TreeDataNode)) (folderData : FolderNode).
Set Elimination Schemes.

Section TreeData.

(** [formatFileSize] goes through [Math.log] and [toFixed]; the tree only
    shows its result. *)
Variable formatFileSize : N -> list N.

(** [`file-${node.path}-${index}`] and [`folder-${node.path}`]. *)
Definition fileKey (nodePath : list N) (index : nat) : list N :=
  JSString.lit "file-" ++ nodePath ++ JSString.lit "-" ++ numberToString index.

Definition folderKey (nodePath : list N) : list N :=
  JSString.lit "folder-" ++ nodePath.

(** The row pushed for the file at [index] of [node.allFiles]. *)
Definition fileLeaf (node : FolderNode) (index : nat) (fileItem : FileItem) : TreeDataNode :=
  FileLeaf
    (mkFileTitle (fi_name fileItem) (formatFileSize (fi_size fileItem)) (fi_isVideo fileItem))
    (fileKey (path node) index) fileItem.

(** [convertNode] *)
Fixpoint convertNode (node : FolderNode) : TreeDataNode :=
  let children :=
    match allFiles node with
    | Some (fileItem :: rest) => imap (fileLeaf node) (fileItem :: rest)
    | _ => []
    end
    ++ map convertNode (children node) in
  let totalFiles :=
    match allFiles node with
    | Some files => length files
    | None => 0%nat
    end in
  let videoCount := length (getAllVideosFromFolder node) in
  FolderBranch (mkFolderTitle (name node) totalFiles videoCount)
    (folderKey (path node))
    (match children with
     | [] => None
     | _ => Some children
     end)
    node.

(** [convertToTreeData] *)
Definition convertToTreeData (folders : list FolderNode) : list TreeDataNode :=
  map convertNode folders.

End TreeData.

(** What a handler of the component does to the outside. *)
Inductive Effect : Type :=
| Alert (message : list N)
| VideoSelect (video : VideoFile)
| FolderLoad (folders : list FolderNode).

(** The texts of the alerts. *)
Definition MSG_FROM_CACHE : list N :=
  [36825; 26159; 20174; 32531; 23384; 24674; 22797; 30340; 25991; 20214; 21015; 34920;
   12290; 10; 10; 35201; 25773; 25918; 35270; 39057; 65292; 35831; 37325; 26032; 36873;
   25321; 25991; 20214; 22841; 12290]%N.

Definition MSG_NOT_A_VIDEO (fileName : list N) : list N :=
  ([34] ++ fileName ++
   [34; 32; 19981; 26159; 25903; 25345; 30340; 35270; 39057; 25991; 20214; 26684; 24335;
    12290; 10; 10; 25903; 25345; 30340; 26684; 24335; 65306] ++
   JSString.lit "MP4, WebM, OGG, AVI, MOV, WMV, FLV, MKV")%N.



(** [handleTreeSelect(selectedKeys, info)]; [selectedNodes] is
    [info.selectedNodes]. *)
Definition handleTreeSelect (selectedKeys : list (list N))
    (selectedNodes : list TreeDataNode) : list Effect :=
  match selectedKeys with
  | selectedKey :: _ =>
      if negb (JSString.eqb selectedKey [])
         && JSString.startsWith selectedKey (JSString.lit "file-")
      then
        match selectedNodes with
        | FileLeaf _ _ fileData :: _ =>
            match fi_file fileData with
            | None => [Alert MSG_FROM_CACHE]
            | Some file =>
                if fi_isVideo fileData then
                  let videoFile :=
                    mkVideoFile (Some file) (fi_name fileData) (fi_path fileData)
                      (fi_size fileData) None None in
                  [VideoSelect videoFile]
                else [Alert (MSG_NOT_A_VIDEO (fi_name fileData))]
            end
        | _ => []
        end
      else []
  | [] => []
  end.

(** Every row of a tree, a folder before its files and sub-folders. *)
Fixpoint treeNodes (node : TreeDataNode) : list TreeDataNode :=
  node ::
  match node with
  | FileLeaf _ _ _ => []
  | FolderBranch _ _ (Some rows) _ => flat_map treeNodes rows
  | FolderBranch _ _ None _ => []
  end.

Definition treeRows (treeData : list TreeDataNode) : list TreeDataNode :=
  flat_map treeNodes treeData.

Definition nodeKey (node : TreeDataNode) : list N :=
  match node with
  | FileLeaf _ key _ => key
  | FolderBranch _ key _ _ => key
  end.

(** A file row that wears the video badge. *)
Definition isVideoLeaf (node : TreeDataNode) : bool :=
  match node with
  | FileLeaf title _ _ => ft_isVideo title
  | FolderBranch _ _ _ _ => false
  end.

Definition isFileLeaf (node : TreeDataNode) : bool :=
  match node with
  | FileLeaf _ _ _ => true
  | FolderBranch _ _ _ _ => false
  end.

(** The rows a folder contributes itself: its own row and its files. *)
Definition ownRows (formatFileSize : N -> list N) (node : FolderNode) : list TreeDataNode :=
  convertNode formatFileSize node ::
  imap (fileLeaf formatFileSize node) (orEmpty (allFiles node)).

(** The counts in the title of a folder row are the counts of the rows
    below it. *)
Definition countsMatch (node : TreeDataNode) : Prop :=
  match node with
  | FileLeaf _ _ _ => True
  | FolderBranch title _ rows _ =>
      fo_totalFiles title = length (List.filter isFileLeaf (orEmpty rows)) /\
      fo_videoCount title = length (List.filter isVideoLeaf (treeNodes node))
  end.

(** Induction over a snapshot together with all its descendants. *)
Section Snapshot_ind.
Variable P : Snapshot -> Prop.
Hypothesis step : forall n p ch vs af ex,
    (forall cs, ch = Some cs -> Forall P cs) -> P (mkSnapshot n p ch vs af ex).

Fixpoint Snapshot_deep_ind (s : Snapshot) : P s :=
  match s with
  | mkSnapshot n p ch vs af ex =>
      step n p ch vs af ex
        (match ch as ch0 return forall cs, ch0 = Some cs -> Forall P cs with
         | Some cs0 =>
             fun cs (H : Some cs0 = Some cs) =>
               match H in _ = y return
                 match y with Some l => Forall P l | None => True end
               with
               | eq_refl =>
                   (fix all (l : list Snapshot) : Forall P l :=
                      match l with
                      | [] => @List.Forall_nil _ P
                      | c :: l' => @List.Forall_cons _ P c l' (Snapshot_deep_ind c) (all l')
                      end) cs0
               end
         | None => fun cs (H : None = Some cs) =>
             match H in _ = y return
               match y with Some l => Forall P l | None => True end
             with
             | eq_refl => I
             end
         end)
  end.
End Snapshot_ind.

(** In every folder of the forest, [videos] has as many entries as
    [allFiles] has entries marked as video. *)
Definition videosCounted (folder : FolderNode) : Prop :=
  length (videos folder) = length (List.filter fi_isVideo (orEmpty (allFiles folder))).

(** What a row restored from the cache is made of: its entries carry no
    [File]. *)
Definition withoutFiles (folder : FolderNode) : Prop :=
  Forall (fun entry => fi_file entry = None) (orEmpty (allFiles folder)).

(** A forest saved and restored. *)
Definition reloaded (forest : list FolderNode) : list FolderNode :=
  restoreFolderTree (simplifyFolderTree forest).

(** ** The cache of the FileExplorer component, written and read back *)

(** ["未知文件夹"] *)
Definition UNKNOWN_FOLDER : list N := [26410; 30693; 25991; 20214; 22841]%N.

(** [firstFile.webkitRelativePath ? firstFile.webkitRelativePath.split("/")[0]
    : "未知文件夹"] *)
Definition folderNameOf (firstFile : File) : list N :=
  match file_webkitRelativePath firstFile with
  | [] => UNKNOWN_FOLDER
  | p =>
      match JSString.split SLASH p with
      | piece :: _ => piece
      | [] => []
      end
  end.

(** The two objects [saveFolderToCache] writes. *)
Definition savedInfo (now1 : Z) (files : list File) (firstFile : File) : CacheInfo :=
  mkCacheInfo (folderNameOf firstFile) now1 (Z.of_nat (length files)).

Definition savedContent (now2 : Z) (folderTree : list FolderNode) : ContentCache :=
  mkContentCache (Some (simplifyFolderTree folderTree)) (Some now2).


Section Explorer.

(** [JSON.stringify] of the two objects, [formatFileSize] and the two
    string methods. *)
Variable stringifyInfo : CacheInfo -> list N.
Variable stringifyContent : ContentCache -> list N.
Variable formatFileSize : N -> list N.
Variable toLowerCase : list N -> list N.
Variable localeCompare : list N -> list N -> Z.

(** [saveFolderToCache(files, folderTree)]; [now1] and [now2] are the two
    readings of [Date.now()], and [localStorage.setItem] is taken to
    succeed. *)
Definition saveFolderToCache (now1 now2 : Z) (files : list File)
    (folderTree : list FolderNode) (storage : Storage) (st : ExplorerState)
    : Storage * ExplorerState :=
  match files with
  | [] => (storage, st)
  | firstFile :: _ =>
      let folderPath := folderNameOf firstFile in
      let storage1 :=
        mkStorage (Some (stringifyInfo (savedInfo now1 files firstFile)))
          (FOLDER_CONTENT_CACHE storage) in
      let storage2 :=
        mkStorage (FOLDER_CACHE storage1)
          (Some (stringifyContent (savedContent now2 folderTree))) in
      (storage2, mkExplorerState (st_folders st) folderPath)
  end.


End Explorer.

(** A snapshot is fresh up to and including the seventh day; one that
    carries no time stamp never expires. *)
Definition snapshotFresh (content : ContentCache) (now : Z) : Prop :=
  match cc_timestamp content with
  | Some contentTimestamp => now - contentTimestamp <= RETENTION_MS
  | None => True
  end.

(** A snapshot the loader can use: both entries are there and parse, the
    tree is there and fresh. *)
Definition snapshotUsable (parseInfo : list N -> option CacheInfo)
    (parseContent : list N -> option ContentCache) (storage : Storage) (now : Z)
    (info : CacheInfo) (folderTree : list Snapshot) : Prop :=
  exists cached contentCached content,
    truthyString (FOLDER_CACHE storage) = Some cached /\
    parseInfo cached = Some info /\
    truthyString (FOLDER_CONTENT_CACHE storage) = Some contentCached /\
    parseContent contentCached = Some content /\
    cc_folderTree content = Some folderTree /\
    snapshotFresh content now.

(** Sample data for the instances below. *)
Definition sampleSnapshot : list Snapshot :=
  [mkSnapshot (JSString.lit "Course") (JSString.lit "Course") (Some [])
     (Some [mkSimpleVideo (JSString.lit "a.mp4") (JSString.lit "Course/a.mp4") 1])
     (Some [mkSimpleFile (JSString.lit "a.mp4") (JSString.lit "Course/a.mp4") 1 true])
     (Some false)].

(** ** videoUtils.ts: the progress of the playback *)

(** The Number values of JavaScript are the binary64 floating-point
    numbers: [spec_float] at precision 53 with exponents below 1024. *)
Module JSDouble.

Definition prec : Z := 53.
Definition emax : Z := 1024.

(** [x / y] and [x * y] *)
Definition div (x y : spec_float) : spec_float := SFdiv prec emax x y.
Definition mul (x y : spec_float) : spec_float := SFmul prec emax x y.

(** The value of an integer literal. *)
Definition ofZ (z : Z) : spec_float := binary_normalize prec emax z 0 false.

(** [!x]: [0], [-0] and [NaN] are the falsy numbers. *)
Definition falsy (x : spec_float) : bool :=
  match x with
  | S754_zero _ | S754_nan => true
  | _ => false
  end.

(** [x === y] on numbers *)
Definition strictEquals (x y : spec_float) : bool := SFeqb x y.

(** [Math.max(a, b)] and [Math.min(a, b)]: [NaN] when an argument is
    [NaN]; [-0] counts as smaller than [+0]. *)
Definition max (a b : spec_float) : spec_float :=
  match SFcompare a b with
  | None => S754_nan
  | Some Gt => a
  | Some Lt => b
  | Some Eq =>
      match a with
      | S754_zero true => b
      | _ => a
      end
  end.

Definition min (a b : spec_float) : spec_float :=
  match SFcompare a b with
  | None => S754_nan
  | Some Lt => a
  | Some Gt => b
  | Some Eq =>
      match a with
      | S754_zero false => b
      | _ => a
      end
  end.

End JSDouble.

(** [calculateProgress(currentTime, duration)] *)
Definition calculateProgress (currentTime duration : spec_float) : spec_float :=
  if JSDouble.falsy duration || JSDouble.strictEquals duration (JSDouble.ofZ 0)
  then JSDouble.ofZ 0
  else
    JSDouble.min (JSDouble.ofZ 100)
      (JSDouble.max (JSDouble.ofZ 0)
         (JSDouble.mul (JSDouble.div currentTime duration) (JSDouble.ofZ 100))).

(** A number between 0 and 100, the bounds included. *)
Definition percentage (x : spec_float) : Prop :=
  SFleb (JSDouble.ofZ 0) x = true /\ SFleb x (JSDouble.ofZ 100) = true.

(** ** Notions of the further properties of the forest *)

(** A list in natural order: every item stands before the later ones. *)
Definition naturallySorted (localeCompare : list N -> list N -> Z) {A : Type}
    (nameOf : A -> list N) (l : list A) : Prop :=
  StronglySorted (fun a b => naturalOrder localeCompare (nameOf a) (nameOf b)) l.

(** The folder paths a descriptor asks for: the path of each of its
    directories, or the root folder [''] when it has none. *)
Definition directoriesOf (p : list N) : list (list N) :=
  match folderSegments p with
  | [] => [[]]
  | segments => map (fun i => joinSlash (take i segments)) (seq 1 (length segments))
  end.

(** ** fileUtils.ts: buildFolderTree

    The builder of the forest of the videos alone.  Its folder objects are
    those of [buildCompleteFolderTree] without the [allFiles] property, its
    [getRootFolder] and the body of its [pathParts.forEach] are the same
    code: the store, [getRootFolder] and [walkStep] serve both, the
    [o_allFiles] field stays empty and the nodes handed back have no
    [allFiles].  Nothing is sorted. *)

(** [folder.videos.push(video)] *)
Definition pushVideo (video : VideoFile) (folder : FolderObj) : FolderObj :=
  mkFolderObj (o_name folder) (o_path folder) (o_children folder)
    (o_videos folder ++ [video]) (o_allFiles folder) (o_isExpanded folder).

(** The body of [videoFiles.forEach]. *)
Definition addVideo (b : Builder) (video : VideoFile) : Builder :=
  let pathParts := removelast (JSString.split SLASH (v_path video)) in
  match pathParts with
  | [] =>
      let b1 := getRootFolder b in
      mkBuilder (alter (pushVideo video) [] (folderMap b1)) (rootFolders b1)
  | _ =>
      let '(_, currentParent, b1) := fold_left walkStep pathParts ([], None, b) in
      match currentParent with
      | Some folder => mkBuilder (alter (pushVideo video) folder (folderMap b1)) (rootFolders b1)
      | None => b1
      end
  end.

(** The update of the store that pushes a video. *)
Definition pushVideoAt (b : Builder) (k : list N) (video : VideoFile) : Builder :=
  mkBuilder (alter (pushVideo video) k (folderMap b)) (rootFolders b).

(** The state after the loop. *)
Definition videoStore (videoFiles : list VideoFile) : Builder :=
  fold_left addVideo videoFiles (mkBuilder ∅ []).

(** The tree a reference stands for, as a value without [allFiles]. *)
Fixpoint toVideoFolderNode (fuel : nat) (m : gmap (list N) FolderObj) (ref : list N)
    : option FolderNode :=
  match fuel with
  | O => None
  | S fuel' =>
      match m !! ref with
      | None => None
      | Some o =>
          match mapM (toVideoFolderNode fuel' m) (o_children o) with
          | None => None
          | Some ch =>
              Some (mkFolderNode (o_name o) (o_path o) ch (o_videos o)
                      None (Some (o_isExpanded o)))
          end
      end
  end.

(** [buildFolderTree(videoFiles)]: [rootFolders], as it stands after the
    loop. *)
Definition buildFolderTree (videoFiles : list VideoFile) : option (list FolderNode) :=
  let b := videoStore videoFiles in
  mapM (toVideoFolderNode (S (size (folderMap b))) (folderMap b)) (rootFolders b).

(** A folder and its sub-folders without their [allFiles]. *)
Fixpoint withoutAllFiles (folder : FolderNode) : FolderNode :=
  mkFolderNode (name folder) (path folder) (map withoutAllFiles (children folder))
    (videos folder) None (isExpanded folder).

(** The key of the folder that receives a video. *)
Definition videoKey (video : VideoFile) : list N :=
  fold_left nextPath (folderSegments (v_path video)) [].

(** The paths a path makes sure are registered. *)
Definition pathKeys (p : list N) : gset (list N) :=
  match folderSegments p with
  | [] => {[ [] ]}
  | pathParts => list_to_set (walkKeys pathParts [])
  end.

(** After the videos [done], every one of them has its folder, and a
    folder holds the videos whose folder it is, in input order. *)
Definition videosExact (done : list VideoFile) (b : Builder) : Prop :=
  (forall v, v ∈ done -> is_Some (folderMap b !! videoKey v)) /\
  (forall k o, folderMap b !! k = Some o ->
     o_videos o = List.filter (fun v => bool_decide (videoKey v = k)) done).

(** Sample videos for the instances below. *)
Definition sampleVideos : list VideoFile :=
  [mkVideoFile None (JSString.lit "b.mp4") (JSString.lit "Course/Part 2/b.mp4") 1 None None;
   mkVideoFile None (JSString.lit "a.mp4") (JSString.lit "a.mp4") 2 (Some 60) None;
   mkVideoFile None (JSString.lit "a1.mp4") (JSString.lit "Course/Part 2/a1.mp4") 3 None None].

(** ** The playlist as the history of the selections *)

(** The videos handed to [handleVideoSelect] during a run, each with the
    id made for it, in order. *)
Definition selected (events : list App.Event) : list (list N * VideoFile) :=
  flat_map (fun event =>
              match event with
              | App.VideoSelect newId video => [(newId, video)]
              | _ => []
              end) events.

(** What [handleVideoSelect] compares: the path and the name. *)
Definition selectionKey (selection : list N * VideoFile) : list N * list N :=
  (v_path (snd selection), v_name (snd selection)).

(** A list without the later items that repeat the key of an earlier
    one. *)
Fixpoint firstOccurrences {A K : Type} `{EqDecision K} (key : A -> K) (l : list A) : list A :=
  match l with
  | [] => []
  | x :: l' =>
      x :: List.filter (fun y => negb (bool_decide (key y = key x))) (firstOccurrences key l')
  end.

(** The id and the video of a playlist item. *)
Definition entryOf (item : PlaylistItem) : list N * VideoFile :=
  (item_id item, item_video item).

(** * Properties *)

(** ** Array.prototype.sort on a consistent comparator *)

Section ArraySortFacts.
Context {A : Type} (cmp : A -> A -> Z).

Definition cmpLe (a b : A) : Prop := cmp a b <= 0.

Lemma sortInsert_Permutation x l : Permutation (sortInsert cmp x l) (x :: l).
Proof.
  induction l as [|y l IH]; simpl; [reflexivity|].
  destruct (cmp x y <=? 0); [reflexivity|].
  rewrite IH. apply perm_swap.
Qed.

Lemma arraySort_Permutation l : Permutation (arraySort cmp l) l.
Proof.
  induction l as [|x l IH]; simpl; [reflexivity|].
  rewrite sortInsert_Permutation. by constructor.
Qed.

Lemma arraySort_map {B : Type} (cmpB : B -> B -> Z) (f : A -> B) l :
  (forall a b, cmpB (f a) (f b) = cmp a b) ->
  arraySort cmpB (map f l) = map f (arraySort cmp l).
Proof.
  intros Hf. induction l as [|x l IH]; simpl; [reflexivity|].
  rewrite IH. clear IH. generalize (arraySort cmp l) as s.
  induction s as [|y s IHs]; simpl; [reflexivity|].
  rewrite Hf. destruct (cmp x y <=? 0); simpl; [reflexivity|].
  by rewrite IHs.
Qed.

Lemma arraySort_ext (cmp' : A -> A -> Z) l :
  (forall a b, In a l -> In b l -> cmp' a b = cmp a b) ->
  arraySort cmp' l = arraySort cmp l.
Proof.
  induction l as [|x l IH]; simpl; intros Hc; [reflexivity|].
  rewrite IH by (intros; apply Hc; auto).
  assert (Hin : forall y, In y (arraySort cmp l) -> In y l).
  { intros y Hy. eapply Permutation_in; [apply arraySort_Permutation|done]. }
  revert Hin. generalize (arraySort cmp l) as s.
  induction s as [|y s IHs]; simpl; intros Hin; [reflexivity|].
  rewrite Hc by auto. destruct (cmp x y <=? 0); [reflexivity|].
  rewrite IHs; auto.
Qed.

Hypothesis ok : Consistent cmp.

Lemma cmpLe_total a b : cmp a b <= 0 \/ cmp b a <= 0.
Proof. pose proof (cmp_swap cmp ok a b). lia. Qed.

Lemma cmp_tie_sym a b : cmp a b = 0 -> cmp b a = 0.
Proof. pose proof (cmp_swap cmp ok a b). lia. Qed.

Lemma sortInsert_sorted x l :
  StronglySorted cmpLe l -> StronglySorted cmpLe (sortInsert cmp x l).
Proof.
  induction 1 as [|y l Hl IH Hy]; simpl.
  - repeat constructor.
  - destruct (Z.leb_spec (cmp x y) 0) as [Hle|Hgt].
    + constructor; [by constructor|].
      constructor; [done|].
      eapply Forall_impl; [exact Hy|]. intros z Hz.
      by apply (cmp_trans cmp ok x y z).
    + constructor; [done|].
      rewrite sortInsert_Permutation. constructor; [|done].
      destruct (cmpLe_total y x); [done|lia].
Qed.

Lemma arraySort_sorted l : StronglySorted cmpLe (arraySort cmp l).
Proof.
  induction l; simpl; [constructor|by apply sortInsert_sorted].
Qed.

(** A list that is in order already is left as it is. *)
Lemma arraySort_id l : StronglySorted cmpLe l -> arraySort cmp l = l.
Proof.
  induction 1 as [|x l Hl IH Hx]; simpl; [reflexivity|].
  rewrite IH. destruct Hx as [|y l Hxy _]; simpl; [reflexivity|].
  unfold cmpLe in Hxy. destruct (Z.leb_spec (cmp x y) 0); [reflexivity|lia].
Qed.

Lemma sortInsert_head x l : Forall (cmpLe x) l -> sortInsert cmp x l = x :: l.
Proof.
  destruct 1 as [|y l Hxy _]; simpl; [reflexivity|].
  unfold cmpLe in Hxy. destruct (Z.leb_spec (cmp x y) 0); [reflexivity|lia].
Qed.

Lemma filter_sortInsert (p : A -> bool) x l :
  StronglySorted cmpLe l ->
  List.filter p (sortInsert cmp x l) =
  if p x then sortInsert cmp x (List.filter p l) else List.filter p l.
Proof.
  induction 1 as [|y l Hl IH Hy].
  - simpl. by destruct (p x).
  - cbn [sortInsert]. destruct (Z.leb_spec (cmp x y) 0) as [Hle|Hgt].
    + change (List.filter p (x :: y :: l))
        with (if p x then x :: List.filter p (y :: l) else List.filter p (y :: l)).
      destruct (p x); [|reflexivity].
      rewrite sortInsert_head; [reflexivity|].
      apply Forall_forall. intros z Hz. apply list_elem_of_In in Hz.
      apply filter_In in Hz as [Hz _]. destruct Hz as [<-|Hz]; [done|].
      rewrite Forall_forall in Hy. apply (cmp_trans cmp ok x y z); [done|].
      apply Hy. by apply list_elem_of_In.
    + cbn [List.filter]. rewrite IH.
      destruct (p y) eqn:Hpy, (p x) eqn:Hpx; simpl; try reflexivity.
      destruct (Z.leb_spec (cmp x y) 0); [lia|reflexivity].
Qed.

(** Sorting commutes with taking a sub-list by a predicate. *)
Lemma filter_arraySort (p : A -> bool) l :
  List.filter p (arraySort cmp l) = arraySort cmp (List.filter p l).
Proof.
  induction l as [|x l IH]; simpl; [reflexivity|].
  rewrite filter_sortInsert by apply arraySort_sorted.
  rewrite IH. by destruct (p x).
Qed.

(** Stability: the items that tie with [x] keep their input order. *)
Lemma arraySort_stable x l :
  List.filter (fun y => cmp x y =? 0) (arraySort cmp l) =
  List.filter (fun y => cmp x y =? 0) l.
Proof.
  rewrite filter_arraySort. apply arraySort_id.
  assert (Hall : Forall (fun y => cmp x y = 0) (List.filter (fun y => cmp x y =? 0) l)).
  { apply Forall_forall. intros y Hy. apply list_elem_of_In, filter_In in Hy as [_ Hy].
    by apply Z.eqb_eq. }
  induction Hall as [|y s Hy Hs IH]; constructor; [done|].
  eapply Forall_impl; [exact Hs|]. intros z Hz. simpl in Hz.
  apply (cmp_trans cmp ok y x z); [|lia].
  apply cmp_tie_sym in Hy. lia.
Qed.

(** Two sorted arrangements of the same items differ at most in the
    order of items that tie. *)
Lemma sorted_Permutation_eq l1 l2 :
  (forall a b, In a l1 -> In b l1 -> cmp a b = 0 -> a = b) ->
  StronglySorted cmpLe l1 -> StronglySorted cmpLe l2 ->
  Permutation l1 l2 -> l1 = l2.
Proof.
  intros Htie Hs1. revert l2. induction Hs1 as [|x l1 Hl1 IH Hx]; intros l2 Hs2 Hp.
  - by apply Permutation_nil in Hp.
  - destruct Hs2 as [|y l2 Hl2 Hy].
    { symmetry in Hp. by apply Permutation_nil in Hp. }
    assert (x = y) as <-.
    { assert (Hyin : In y (x :: l1)).
      { eapply Permutation_in; [symmetry; exact Hp|by left]. }
      assert (Hxin : In x (y :: l2)).
      { eapply Permutation_in; [exact Hp|by left]. }
      destruct Hyin as [->|Hyin]; [done|].
      destruct Hxin as [->|Hxin]; [done|].
      rewrite Forall_forall in Hx, Hy.
      pose proof (Hx y (proj2 (list_elem_of_In _ _) Hyin)) as H1.
      pose proof (Hy x (proj2 (list_elem_of_In _ _) Hxin)) as H2.
      unfold cmpLe in H1, H2.
      apply Htie; [by left|by right|].
      pose proof (cmp_swap cmp ok x y). lia. }
    f_equal. apply IH; [|done|by apply Permutation_cons_inv in Hp].
    intros a b Ha Hb. apply Htie; by right.
Qed.

End ArraySortFacts.

(** ** The natural-sort comparator *)

Section ComparatorFacts.
Variable localeCompare : list N -> list N -> Z.
Context {A : Type} (nameOf : A -> list N).

Lemma compareByNumber_le a b :
  compareByNumber localeCompare nameOf a b <= 0 <->
  naturalOrder localeCompare (nameOf a) (nameOf b).
Proof.
  unfold compareByNumber, naturalOrder.
  destruct (extractNumberFromFileName (nameOf a)),
           (extractNumberFromFileName (nameOf b)); lia.
Qed.

Lemma compareByNumber_Consistent :
  Consistent localeCompare -> Consistent (compareByNumber localeCompare nameOf).
Proof.
  intros [Hswap Htrans]. split.
  - intros a b. unfold compareByNumber.
    destruct (extractNumberFromFileName (nameOf a)),
             (extractNumberFromFileName (nameOf b)); try lia.
    apply Hswap.
  - intros a b c. unfold compareByNumber.
    destruct (extractNumberFromFileName (nameOf a)),
             (extractNumberFromFileName (nameOf b)),
             (extractNumberFromFileName (nameOf c)); try lia.
    apply Htrans.
Qed.
End ComparatorFacts.

Lemma StronglySorted_lookup {A : Type} (R : A -> A -> Prop) (l : list A) i j a b :
  StronglySorted R l -> (i < j)%nat -> l !! i = Some a -> l !! j = Some b -> R a b.
Proof.
  intros Hs. revert i j. induction Hs as [|x l Hl IH Hx]; intros i j Hij Hi Hj.
  - by rewrite lookup_nil in Hi.
  - destruct j as [|j]; [lia|]. simpl in Hj. destruct i as [|i]; simpl in Hi.
    + injection Hi as <-. rewrite Forall_forall in Hx. apply Hx.
      by eapply list_elem_of_lookup_2.
    + apply (IH i j); [lia|done|done].
Qed.

Lemma codeUnitCompare_refl a : JSString.codeUnitCompare a a = 0.
Proof. induction a as [|x a IH]; simpl; [done|]. by rewrite N.compare_refl. Qed.

Lemma codeUnitCompare_swap a b :
  Z.sgn (JSString.codeUnitCompare b a) = - Z.sgn (JSString.codeUnitCompare a b).
Proof.
  revert b. induction a as [|x a IH]; intros [|y b]; simpl; try done.
  rewrite (N.compare_antisym x y). destruct (N.compare x y); simpl; auto.
Qed.

Lemma codeUnitCompare_trans a b c :
  JSString.codeUnitCompare a b <= 0 -> JSString.codeUnitCompare b c <= 0 ->
  JSString.codeUnitCompare a c <= 0.
Proof.
  revert b c. induction a as [|x a IH]; intros [|y b] [|z c]; simpl; try lia.
  destruct (N.compare_spec x y) as [->|Hxy|Hxy]; try lia.
  - destruct (N.compare_spec y z) as [->|Hyz|Hyz]; try lia. apply IH.
  - destruct (N.compare_spec y z) as [->|Hyz|Hyz]; try lia.
    + intros _ _. destruct (N.compare_spec x z); lia.
    + intros _ _. destruct (N.compare_spec x z); lia.
Qed.

Lemma codeUnitCompare_Consistent : Consistent JSString.codeUnitCompare.
Proof. split; [apply codeUnitCompare_swap|apply codeUnitCompare_trans]. Qed.

(** C4 (as the code has it).  On a consistent [localeCompare],
    [sortFilesByNumber] returns a permutation of its input in which an item
    with a number comes before every item without one, numbers ascend,
    items without a number are in [localeCompare] order, and items that tie
    keep their input order.  The key of "intro.mp4" is 4, the digit of its
    extension, so the three names of the scenario sort as episode2, intro,
    episode10; with an extension that has no digit the scenario is as the
    specification writes it. *)
Theorem sortFilesByNumber_natural_order
    (localeCompare : list N -> list N -> Z) {A : Type} (nameOf : A -> list N)
    (files : list A) :
  Consistent localeCompare ->
  let sorted := sortFilesByNumber localeCompare nameOf files in
  Permutation sorted files /\
  (forall i j a b, (i < j)%nat -> sorted !! i = Some a -> sorted !! j = Some b ->
     naturalOrder localeCompare (nameOf a) (nameOf b)) /\
  (forall x,
     List.filter (fun y => compareByNumber localeCompare nameOf x y =? 0) sorted =
     List.filter (fun y => compareByNumber localeCompare nameOf x y =? 0) files) /\
  sortFilesByNumber localeCompare id
    (map JSString.lit ["episode10.mp4"; "episode2.mp4"; "intro.mp4"]%string) =
    map JSString.lit ["episode2.mp4"; "intro.mp4"; "episode10.mp4"]%string /\
  sortFilesByNumber localeCompare id
    (map JSString.lit ["episode10.avi"; "episode2.avi"; "intro.avi"]%string) =
    map JSString.lit ["episode2.avi"; "episode10.avi"; "intro.avi"]%string.
Proof.
  intros Hlc sorted.
  pose proof (compareByNumber_Consistent localeCompare nameOf Hlc) as Hok.
  split; [apply arraySort_Permutation|].
  split.
  { intros i j a b Hij Hi Hj. apply compareByNumber_le.
    eapply (StronglySorted_lookup (cmpLe (compareByNumber localeCompare nameOf)));
      [apply arraySort_sorted, Hok|exact Hij|exact Hi|exact Hj]. }
  split; [intros x; by apply arraySort_stable|].
  split; reflexivity.
Qed.

Lemma sortFilesByNumber_natural_order_witness :
  Consistent JSString.codeUnitCompare /\
  Permutation
    (sortFilesByNumber JSString.codeUnitCompare id
       (map JSString.lit ["b.txt"; "10.txt"; "a.txt"; "9.txt"]%string))
    (map JSString.lit ["b.txt"; "10.txt"; "a.txt"; "9.txt"]%string).
Proof.
  split; [exact codeUnitCompare_Consistent|].
  exact (proj1 (sortFilesByNumber_natural_order JSString.codeUnitCompare id
    (map JSString.lit ["b.txt"; "10.txt"; "a.txt"; "9.txt"]%string)
    codeUnitCompare_Consistent)).
Defined.

(** The scenario of C4 as the specification writes it does not hold. *)
Lemma sortFilesByNumber_scenario_counterexample :
  sortFilesByNumber JSString.codeUnitCompare id
    (map JSString.lit ["episode10.mp4"; "episode2.mp4"; "intro.mp4"]%string) <>
  map JSString.lit ["episode2.mp4"; "episode10.mp4"; "intro.mp4"]%string.
Proof. vm_compute. discriminate. Qed.

(** ** extractNumberFromFileName *)

Section RegExpFacts.
Import RegExp.

Lemma matchDigits_no_digit k acc s :
  match s with [] => True | c :: _ => isDigit c = false end ->
  matchDigits k acc s = None.
Proof. destruct s as [|c s]; simpl; [done|]. by intros ->. Qed.

(** The group takes the whole run of digits when the rest of the pattern
    accepts what follows the run. *)
Lemma matchDigits_greedy k ds : forall acc rest r,
  ds <> [] -> forallb isDigit ds = true ->
  match rest with [] => True | c :: _ => isDigit c = false end ->
  k (acc ++ ds) rest = Some r ->
  matchDigits k acc (ds ++ rest) = Some r.
Proof.
  induction ds as [|d ds IH]; intros acc rest r Hne Hds Hrest Hk; [done|].
  simpl in Hds. apply andb_true_iff in Hds as [Hd Hds].
  simpl. rewrite Hd. destruct ds as [|d' ds].
  - simpl. rewrite (matchDigits_no_digit k _ rest Hrest). exact Hk.
  - rewrite (IH (acc ++ [d]) rest r); [done|done|done|done|].
    by rewrite <- app_assoc.
Qed.

Lemma search_skip c p pre rest :
  Forall (fun x => x <> c) pre ->
  search (Lit c :: p) (pre ++ rest) = search (Lit c :: p) rest.
Proof.
  induction 1 as [|x pre Hx _ IH]; [done|].
  cbn [app search matchHere]. destruct (N.eqb_spec x c); [done|]. exact IH.
Qed.

Lemma search_here p s r : matchHere p [] s = Some r -> search p s = Some r.
Proof. intros H. destruct s; simpl; by rewrite H. Qed.

(** A labelled occurrence [第 ds unit] is matched wherever it stands, as
    long as no [第] precedes it. *)
Lemma labelled_match unit pre ds post :
  isDigit unit = false ->
  Forall (fun x => x <> c_di) pre ->
  ds <> [] -> forallb isDigit ds = true ->
  exec (mkRegExp false [Lit c_di; Digits; Lit unit])
    (pre ++ [c_di] ++ ds ++ [unit] ++ post) = Some ds.
Proof.
  intros Hu Hpre Hne Hds. unfold exec. cbn [anchored atoms].
  rewrite search_skip by done. apply search_here.
  cbn [app matchHere]. rewrite N.eqb_refl.
  apply matchDigits_greedy; [done|done|exact Hu|].
  cbn [app matchHere]. by rewrite N.eqb_refl.
Qed.

Lemma search_no_digit p s c :
  forallb (fun x => negb (isDigit x)) s = true ->
  search (Lit c :: Digits :: p) s = None /\ search (Digits :: p) s = None.
Proof.
  induction s as [|x s IH]; intros Hs; [done|].
  simpl in Hs. apply andb_true_iff in Hs as [Hx Hs].
  apply negb_true_iff in Hx. specialize (IH Hs) as [IH1 IH2].
  split.
  - cbn [search matchHere]. destruct (N.eqb x c); [|exact IH1].
    rewrite matchDigits_no_digit; [exact IH1|].
    destruct s as [|y s]; [done|]. simpl in Hs.
    apply andb_true_iff in Hs as [Hy _]. by apply negb_true_iff in Hy.
  - cbn [search matchHere]. rewrite matchDigits_no_digit; [exact IH2|done].
Qed.

Lemma exec_no_digit s :
  forallb (fun x => negb (isDigit x)) s = true ->
  Forall (fun p => exec p s = None) patterns.
Proof.
  intros Hs. unfold patterns, exec.
  repeat constructor; cbn [anchored atoms pat_jie pat_zhang pat_ke pat_leading pat_any].
  1-3: by apply search_no_digit.
  - destruct s as [|x s]; [done|]. simpl in Hs.
    apply andb_true_iff in Hs as [Hx _]. apply negb_true_iff in Hx.
    simpl. by rewrite Hx.
  - by apply (search_no_digit [] s 0%N).
Qed.
End RegExpFacts.

Lemma firstMatch_none ps fileName :
  Forall (fun p => RegExp.exec p fileName = None) ps ->
  firstMatch ps fileName = Infinity.
Proof. induction 1 as [|p ps Hp _ IH]; simpl; [done|]. by rewrite Hp. Qed.

Lemma roundToDouble_exact n : n < 2 ^ 53 -> roundToDouble n = Finite n.
Proof. intros H. unfold roundToDouble. by destruct (Z.ltb_spec n (2 ^ 53)); [|lia]. Qed.

(** C5.  The key is a function of the name alone.  A match of a labelled
    pattern decides the key, in the order 第N节, 第N章, 第N课, whatever other
    digits the name contains; the key is then [parseInt] of the labelled
    digits, which is their integer value below 2^53.  A labelled occurrence
    that no 第 precedes is such a match.  When no pattern matches, as for
    every name without a digit, the key is [Infinity], and the comparator
    puts such a name after every name with a number. *)
Theorem extractNumberFromFileName_priority (fileName : list N) :
  (forall other, other = fileName ->
     extractNumberFromFileName other = extractNumberFromFileName fileName) /\
  (forall ds, RegExp.exec pat_jie fileName = Some ds ->
     extractNumberFromFileName fileName = parseInt10 ds) /\
  (forall ds, RegExp.exec pat_jie fileName = None ->
     RegExp.exec pat_zhang fileName = Some ds ->
     extractNumberFromFileName fileName = parseInt10 ds) /\
  (forall ds, RegExp.exec pat_jie fileName = None ->
     RegExp.exec pat_zhang fileName = None ->
     RegExp.exec pat_ke fileName = Some ds ->
     extractNumberFromFileName fileName = parseInt10 ds) /\
  (forall pre ds post,
     fileName = pre ++ [c_di] ++ ds ++ [c_jie] ++ post ->
     Forall (fun x => x <> c_di) pre ->
     ds <> [] -> forallb RegExp.isDigit ds = true ->
     extractNumberFromFileName fileName = parseInt10 ds) /\
  (forall pre ds post,
     fileName = pre ++ [c_di] ++ ds ++ [c_zhang] ++ post ->
     Forall (fun x => x <> c_di) pre ->
     ds <> [] -> forallb RegExp.isDigit ds = true ->
     RegExp.exec pat_jie fileName = None ->
     extractNumberFromFileName fileName = parseInt10 ds) /\
  (forall pre ds post,
     fileName = pre ++ [c_di] ++ ds ++ [c_ke] ++ post ->
     Forall (fun x => x <> c_di) pre ->
     ds <> [] -> forallb RegExp.isDigit ds = true ->
     RegExp.exec pat_jie fileName = None ->
     RegExp.exec pat_zhang fileName = None ->
     extractNumberFromFileName fileName = parseInt10 ds) /\
  (forall ds, digitsValue ds < 2 ^ 53 -> parseInt10 ds = Finite (digitsValue ds)) /\
  (Forall (fun p => RegExp.exec p fileName = None) patterns ->
     extractNumberFromFileName fileName = Infinity) /\
  (forallb (fun x => negb (RegExp.isDigit x)) fileName = true ->
     extractNumberFromFileName fileName = Infinity) /\
  (forall localeCompare other x,
     extractNumberFromFileName fileName = Infinity ->
     extractNumberFromFileName other = Finite x ->
     compareByNumber localeCompare id other fileName < 0 /\
     compareByNumber localeCompare id fileName other > 0).
Proof.
  assert (Hjie : forall ds, RegExp.exec pat_jie fileName = Some ds ->
            extractNumberFromFileName fileName = parseInt10 ds).
  { intros ds H. unfold extractNumberFromFileName, patterns. cbn [firstMatch].
    by rewrite H. }
  assert (Hzhang : forall ds, RegExp.exec pat_jie fileName = None ->
            RegExp.exec pat_zhang fileName = Some ds ->
            extractNumberFromFileName fileName = parseInt10 ds).
  { intros ds H1 H2. unfold extractNumberFromFileName, patterns. cbn [firstMatch].
    by rewrite H1, H2. }
  assert (Hke : forall ds, RegExp.exec pat_jie fileName = None ->
            RegExp.exec pat_zhang fileName = None ->
            RegExp.exec pat_ke fileName = Some ds ->
            extractNumberFromFileName fileName = parseInt10 ds).
  { intros ds H1 H2 H3. unfold extractNumberFromFileName, patterns. cbn [firstMatch].
    by rewrite H1, H2, H3. }
  repeat split.
  - by intros other ->.
  - exact Hjie.
  - exact Hzhang.
  - exact Hke.
  - intros pre ds post -> Hpre Hne Hds. apply Hjie.
    by apply (labelled_match c_jie).
  - intros pre ds post -> Hpre Hne Hds Hno. apply Hzhang; [done|].
    by apply (labelled_match c_zhang).
  - intros pre ds post -> Hpre Hne Hds Hno1 Hno2. apply Hke; [done|done|].
    by apply (labelled_match c_ke).
  - intros ds Hds. by apply roundToDouble_exact.
  - apply firstMatch_none.
  - intros Hs. by apply firstMatch_none, exec_no_digit.
  - unfold compareByNumber, id. rewrite H, H0. lia.
  - unfold compareByNumber, id. rewrite H, H0. lia.
Qed.

Lemma extractNumberFromFileName_priority_witness :
  extractNumberFromFileName
    (JSString.lit "7 " ++ [c_di] ++ JSString.lit "03" ++ [c_jie] ++ JSString.lit " 9")
  = Finite 3.
Proof.
  pose proof (extractNumberFromFileName_priority
    (JSString.lit "7 " ++ [c_di] ++ JSString.lit "03" ++ [c_jie] ++ JSString.lit " 9"))
    as (_ & _ & _ & _ & H & _).
  rewrite (H (JSString.lit "7 ") (JSString.lit "03") (JSString.lit " 9")).
  - reflexivity.
  - reflexivity.
  - repeat constructor; discriminate.
  - discriminate.
  - reflexivity.
Defined.

(** ** Search *)

Lemma trimStart_whitespace s :
  forallb JSString.isWhiteSpace s = true -> JSString.trimStart s = [].
Proof.
  induction s as [|c s IH]; simpl; [done|].
  intros H. apply andb_true_iff in H as [-> H]. auto.
Qed.

Lemma trim_whitespace s :
  forallb JSString.isWhiteSpace s = true -> JSString.trim s = [].
Proof. intros H. unfold JSString.trim. rewrite (trimStart_whitespace s H). reflexivity. Qed.

Section SearchFacts.
Variable toLowerCase : list N -> list N.
Variable localeCompare : list N -> list N -> Z.

Lemma searchInFolder_collects term folder : forall results,
  searchInFolder toLowerCase term folder results =
  results ++ List.filter (nameMatches toLowerCase term) (getAllVideosFromFolder folder).
Proof.
  induction folder as [n p ch vs af ex IH] using FolderNode_deep_ind.
  intros results. cbn [searchInFolder getAllVideosFromFolder videos children].
  rewrite List.filter_app, app_assoc.
  generalize (results ++ List.filter (nameMatches toLowerCase term) vs) as acc.
  induction IH as [|c ch Hc _ IHch]; intros acc; simpl.
  - by rewrite app_nil_r.
  - rewrite Hc, IHch, List.filter_app. by rewrite app_assoc.
Qed.

Lemma searchVideos_collects folders searchTerm :
  searchVideos toLowerCase folders searchTerm =
  List.filter (nameMatches toLowerCase (toLowerCase searchTerm))
    (flat_map getAllVideosFromFolder folders).
Proof.
  unfold searchVideos.
  change (List.filter _ (flat_map getAllVideosFromFolder folders))
    with ([] ++ List.filter (nameMatches toLowerCase (toLowerCase searchTerm))
                  (flat_map getAllVideosFromFolder folders)).
  generalize (@nil VideoFile) as acc.
  induction folders as [|f folders IH]; intros acc; simpl.
  - by rewrite app_nil_r.
  - rewrite searchInFolder_collects, IH, List.filter_app. by rewrite app_assoc.
Qed.

(** The videos a walk collects are the [videos] lists of the folders. *)
Lemma getAllVideosFromFolder_nodes folder :
  getAllVideosFromFolder folder = flat_map videos (folderNodes folder).
Proof.
  induction folder as [n p ch vs af ex IH] using FolderNode_deep_ind.
  cbn [getAllVideosFromFolder folderNodes videos children flat_map]. f_equal.
  induction IH as [|c ch Hc _ IHch]; simpl; [done|].
  by rewrite Hc, IHch, flat_map_app.
Qed.

Lemma forest_videos_nodes folders :
  flat_map getAllVideosFromFolder folders = flat_map videos (forestNodes folders).
Proof.
  unfold forestNodes. induction folders as [|f folders IH]; simpl; [done|].
  by rewrite IH, getAllVideosFromFolder_nodes, flat_map_app.
Qed.

(** [searchVideos] itself has no guard: every name includes the empty
    string, so on the empty term it collects every video.  The guard is
    the [trim] test of [handleSearch]. *)
Remark searchVideos_empty_term folders :
  toLowerCase [] = [] ->
  searchVideos toLowerCase folders [] = flat_map getAllVideosFromFolder folders.
Proof.
  intros Hlow. rewrite searchVideos_collects, Hlow.
  induction (flat_map getAllVideosFromFolder folders) as [|v vs IH]; [done|].
  simpl. unfold nameMatches at 1. rewrite IH.
  by destruct (toLowerCase (v_name v)).
Qed.

(** C2.  A search term that is empty or consists of white space yields no
    result, whatever the forest holds. *)
Theorem handleSearch_blank_term (folders : list FolderNode) (term : list N) :
  forallb JSString.isWhiteSpace term = true ->
  handleSearch toLowerCase localeCompare folders term = [].
Proof.
  intros H. unfold handleSearch. by rewrite trim_whitespace.
Qed.

(** C3 (as the code has it).  For a term that is not blank, the search
    returns the videos of the [videos] lists of all folders, taken in a
    depth-first pre-order walk, whose lower-cased name contains the
    lower-cased term, sorted by [sortFilesByNumber]: every result is an
    entry of some folder's [videos], every matching entry is a result, and
    on a consistent [localeCompare] the results are in natural order. *)
Theorem handleSearch_results (folders : list FolderNode) (term : list N) :
  JSString.trim term <> [] ->
  let matching :=
    List.filter
      (fun video =>
         JSString.includes (toLowerCase (v_name video)) (toLowerCase term))
      (flat_map videos (forestNodes folders)) in
  let results := handleSearch toLowerCase localeCompare folders term in
  results = sortFilesByNumber localeCompare v_name matching /\
  Permutation results matching /\
  (forall video, In video results <->
     (exists folder, In folder (forestNodes folders) /\ In video (videos folder)) /\
     JSString.includes (toLowerCase (v_name video)) (toLowerCase term) = true) /\
  (Consistent localeCompare ->
   forall i j a b, (i < j)%nat -> results !! i = Some a -> results !! j = Some b ->
     naturalOrder localeCompare (v_name a) (v_name b)).
Proof.
  intros Hterm matching results.
  assert (Hres : results = sortFilesByNumber localeCompare v_name matching).
  { unfold results, handleSearch, JSString.eqb.
    rewrite bool_decide_eq_false_2 by done.
    rewrite searchVideos_collects, forest_videos_nodes. reflexivity. }
  assert (Hperm : Permutation results matching).
  { rewrite Hres. apply arraySort_Permutation. }
  split; [exact Hres|]. split; [exact Hperm|]. split.
  - intros video. split.
    + intros Hin. eapply Permutation_in in Hin; [|exact Hperm].
      apply filter_In in Hin as [Hin Hm]. split; [|exact Hm].
      apply in_flat_map in Hin as (folder & Hf & Hv). eauto.
    + intros [(folder & Hf & Hv) Hm].
      eapply Permutation_in; [symmetry; exact Hperm|].
      apply filter_In. split; [|exact Hm]. apply in_flat_map. eauto.
  - intros Hlc i j a b Hij Hi Hj. apply compareByNumber_le.
    eapply (StronglySorted_lookup (cmpLe (compareByNumber localeCompare v_name)));
      [|exact Hij|exact Hi|exact Hj].
    rewrite Hres. by apply arraySort_sorted, compareByNumber_Consistent.
Qed.

End SearchFacts.

Lemma handleSearch_blank_term_witness :
  handleSearch JSString.asciiLower JSString.codeUnitCompare [sampleFolder]
    (JSString.lit "  ") = [].
Proof.
  apply (handleSearch_blank_term JSString.asciiLower JSString.codeUnitCompare
           [sampleFolder] (JSString.lit "  ")).
  reflexivity.
Defined.

Lemma handleSearch_results_witness :
  handleSearch JSString.asciiLower JSString.codeUnitCompare [sampleFolder]
    (JSString.lit "LESSON") =
  sortFilesByNumber JSString.codeUnitCompare v_name
    (List.filter
       (fun video =>
          JSString.includes (JSString.asciiLower (v_name video))
            (JSString.asciiLower (JSString.lit "LESSON")))
       (flat_map videos (forestNodes [sampleFolder]))).
Proof.
  refine (proj1 (handleSearch_results JSString.asciiLower JSString.codeUnitCompare
                   [sampleFolder] (JSString.lit "LESSON") _)).
  vm_compute. discriminate.
Defined.

(** C3 as stated fails for a term that is not empty but blank: the video
    "Lesson 1.mp4" contains the term " " and is not returned. *)
Lemma handleSearch_blank_counterexample :
  JSString.lit " " <> [] /\
  In (sampleVideo "Lesson 1.mp4") (flat_map videos (forestNodes [sampleFolder])) /\
  JSString.includes (JSString.asciiLower (v_name (sampleVideo "Lesson 1.mp4")))
    (JSString.asciiLower (JSString.lit " ")) = true /\
  ~ In (sampleVideo "Lesson 1.mp4")
      (handleSearch JSString.asciiLower JSString.codeUnitCompare [sampleFolder]
         (JSString.lit " ")).
Proof.
  split; [discriminate|]. split; [right; left; reflexivity|].
  split; [reflexivity|]. vm_compute. tauto.
Qed.

(** ** The snapshot codec *)

Lemma simplify_restore_video vs :
  map simplifyVideo (map restoreVideo vs) = vs.
Proof. induction vs as [|[] vs IH]; simpl; [done|]. by rewrite IH. Qed.

Lemma simplify_restore_file fs :
  map simplifyFile (map restoreFile fs) = fs.
Proof. induction fs as [|[] fs IH]; simpl; [done|]. by rewrite IH. Qed.

Lemma simplify_restore_simplify_folder (g : option bool -> option bool) folder :
  (forall e, g (Some (orFalse e)) = g e) ->
  mapExpanded g (simplifyFolder (restoreFolder (simplifyFolder folder))) =
  mapExpanded g (simplifyFolder folder).
Proof.
  intros Hg. induction folder as [n p ch vs af ex IH] using FolderNode_deep_ind.
  cbn [simplifyFolder restoreFolder mapExpanded name path children videos allFiles
       isExpanded s_name s_path s_children s_videos s_allFiles s_isExpanded orEmpty].
  rewrite simplify_restore_video, simplify_restore_file, Hg. f_equal. f_equal.
  induction IH as [|c ch Hc _ IHch]; simpl; [done|]. by rewrite Hc, IHch.
Qed.

Lemma simplify_restore_simplify_normal folder :
  simplifyFolder (restoreFolder (simplifyFolder folder)) =
  mapExpanded (fun e => Some (orFalse e)) (simplifyFolder folder).
Proof.
  induction folder as [n p ch vs af ex IH] using FolderNode_deep_ind.
  cbn [simplifyFolder restoreFolder mapExpanded name path children videos allFiles
       isExpanded s_name s_path s_children s_videos s_allFiles s_isExpanded orEmpty].
  rewrite simplify_restore_video, simplify_restore_file. f_equal. f_equal.
  induction IH as [|c ch Hc _ IHch]; simpl; [done|]. by rewrite Hc, IHch.
Qed.

Lemma simplify_restore_simplify_set folder :
  expandedSet folder = true ->
  simplifyFolder (restoreFolder (simplifyFolder folder)) = simplifyFolder folder.
Proof.
  induction folder as [n p ch vs af ex IH] using FolderNode_deep_ind.
  cbn [expandedSet isExpanded children]. destruct ex as [ex|]; [|done]. intros Hch.
  cbn [simplifyFolder restoreFolder name path children videos allFiles
       isExpanded s_name s_path s_children s_videos s_allFiles s_isExpanded orEmpty
       orFalse].
  rewrite simplify_restore_video, simplify_restore_file. f_equal. f_equal.
  induction IH as [|c ch Hc _ IHch]; simpl; [done|].
  simpl in Hch. apply andb_true_iff in Hch as [H1 H2]. by rewrite Hc, IHch.
Qed.

(** C1.  Serializing, restoring and serializing again gives the first
    serialization back: the same folders with the same names and paths, the
    same nesting, the same [videos] and [allFiles] entries, all in the same
    order.  The [isExpanded] flag of a folder comes back as it was when it
    was set, which is the case for every folder the builder creates; a
    flag that was left unset comes back as [false]. *)
Theorem simplify_restore_round_trip (T : list FolderNode) :
  let once := simplifyFolderTree T in
  let twice := simplifyFolderTree (restoreFolderTree (simplifyFolderTree T)) in
  map (mapExpanded (fun _ => None)) twice = map (mapExpanded (fun _ => None)) once /\
  twice = map (mapExpanded (fun e => Some (orFalse e))) once /\
  (forallb expandedSet T = true -> twice = once).
Proof.
  unfold simplifyFolderTree, restoreFolderTree. cbv zeta. split; [|split].
  - induction T as [|f T IH]; simpl; [done|].
    rewrite IH. by rewrite (simplify_restore_simplify_folder (fun _ => None)).
  - induction T as [|f T IH]; simpl; [done|].
    by rewrite IH, simplify_restore_simplify_normal.
  - induction T as [|f T IH]; simpl; [done|]. intros H.
    apply andb_true_iff in H as [H1 H2].
    by rewrite IH, simplify_restore_simplify_set.
Qed.

Lemma simplify_restore_round_trip_witness :
  simplifyFolderTree
    (restoreFolderTree
       (simplifyFolderTree
          [mkFolderNode (JSString.lit "A") (JSString.lit "A") [] [] None (Some true)])) =
  simplifyFolderTree
    [mkFolderNode (JSString.lit "A") (JSString.lit "A") [] [] None (Some true)].
Proof.
  apply (simplify_restore_round_trip
           [mkFolderNode (JSString.lit "A") (JSString.lit "A") [] [] None (Some true)]).
  reflexivity.
Defined.

(** ** Loading the cache *)

Section CacheFacts.
Variable parseInfo : list N -> option CacheInfo.
Variable parseContent : list N -> option ContentCache.

Lemma loadFolderFromCache_returns storage now st :
  raises (loadFolderFromCache parseInfo parseContent storage now st) = false.
Proof.
  unfold loadFolderFromCache.
  by destruct (loadBody parseInfo parseContent storage now st).
Qed.

(** C9.  [loadFolderFromCache] always returns to its caller.  When the
    snapshot is missing, does not parse, or is older than the retention
    window of seven days, the forest of the component stays the empty
    forest it starts with, as it does on an empty storage. *)
Theorem loadFolderFromCache_unusable_snapshot (storage : Storage) (now : Z) :
  raises (loadFolderFromCache parseInfo parseContent storage now initialState) = false /\
  (snapshotMissing storage \/
   snapshotCorrupted parseInfo parseContent storage \/
   snapshotExpired parseContent storage now ->
   foldersOf (loadFolderFromCache parseInfo parseContent storage now initialState) = [] /\
   foldersOf (loadFolderFromCache parseInfo parseContent storage now initialState) =
   foldersOf (loadFolderFromCache parseInfo parseContent (mkStorage None None) now
                initialState)).
Proof.
  split; [apply loadFolderFromCache_returns|].
  intros H.
  assert (Hgoal : foldersOf
            (loadFolderFromCache parseInfo parseContent storage now initialState) = []);
    [|by rewrite Hgoal].
  unfold loadFolderFromCache, loadBody.
  destruct storage as [info content]; cbn [FOLDER_CACHE FOLDER_CONTENT_CACHE] in *.
  destruct (truthyString info) as [cached|] eqn:Hinfo; [|done].
  destruct (parseInfo cached) as [ci|] eqn:Hci; [|done].
  destruct (truthyString content) as [contentCached|] eqn:Hcontent; [|done].
  destruct (parseContent contentCached) as [cc|] eqn:Hcc; [|done].
  assert (info = Some cached) as ->.
  { destruct info as [[|c s]|]; simpl in Hinfo; congruence. }
  assert (content = Some contentCached) as ->.
  { destruct content as [[|c s]|]; simpl in Hcontent; congruence. }
  destruct H as [[H|H]|[[(s & H1 & H2)|(s & H1 & H2)]|(s & c & t & H1 & H2 & H3 & H4)]];
    cbn [FOLDER_CACHE FOLDER_CONTENT_CACHE] in *; try congruence.
  injection H1 as <-. rewrite Hcc in H2. injection H2 as <-.
  rewrite H3. destruct (Z.gtb_spec (now - t) RETENTION_MS); [|lia].
  reflexivity.
Qed.

End CacheFacts.

Lemma loadFolderFromCache_unusable_snapshot_witness :
  foldersOf
    (loadFolderFromCache
       (fun _ => Some (mkCacheInfo (JSString.lit "Course") 0 2))
       (fun _ => Some (mkContentCache
                         (Some (simplifyFolderTree [sampleFolder])) (Some 0)))
       (mkStorage (Some (JSString.lit "{}")) (Some (JSString.lit "{}")))
       (RETENTION_MS + 1) initialState) = [].
Proof.
  refine (proj1 (proj2 (loadFolderFromCache_unusable_snapshot _ _ _ _) _)).
  right. right. unfold snapshotExpired.
  exists (JSString.lit "{}"),
    (mkContentCache (Some (simplifyFolderTree [sampleFolder])) (Some 0)), 0.
  repeat split.
Defined.

(** ** Paths *)

Lemma split_nonempty sep s : JSString.split sep s <> [].
Proof.
  destruct s as [|c s]; simpl; [done|].
  destruct (N.eqb c sep); [done|]. by destruct (JSString.split sep s).
Qed.

Lemma split_pieces sep s : Forall (fun piece => sep ∉ piece) (JSString.split sep s).
Proof.
  induction s as [|c s IH]; simpl.
  - constructor; [|constructor]. apply not_elem_of_nil.
  - destruct (N.eqb_spec c sep) as [->|Hne].
    + constructor; [apply not_elem_of_nil|done].
    + destruct (JSString.split sep s) as [|piece rest]; simpl.
      * constructor; [|constructor]. rewrite elem_of_cons, elem_of_nil.
        intuition congruence.
      * apply Forall_cons in IH as [H1 H2]. constructor; [|done].
        rewrite elem_of_cons. intuition congruence.
Qed.

Lemma Forall_removelast {A : Type} (P : A -> Prop) (l : list A) :
  Forall P l -> Forall P (removelast l).
Proof.
  induction 1 as [|x l Hx Hl IH]; simpl; [constructor|].
  destruct l; [constructor|]. by constructor.
Qed.

Lemma folderSegments_pieces p : Forall (fun piece => SLASH ∉ piece) (folderSegments p).
Proof. apply Forall_removelast, split_pieces. Qed.

Lemma dirname_aux_noslash s : SLASH ∉ s -> dirname_aux s = None.
Proof.
  induction s as [|c s IH]; simpl; [done|].
  rewrite elem_of_cons. intros H. rewrite IH by naive_solver.
  destruct (N.eqb_spec c SLASH); [|done]. naive_solver.
Qed.

Lemma dirname_noslash s : SLASH ∉ s -> dirname s = [].
Proof. intros H. unfold dirname. by rewrite dirname_aux_noslash. Qed.

Lemma dirname_aux_app_slash p seg :
  SLASH ∉ seg -> dirname_aux (p ++ SLASH :: seg) = Some p.
Proof.
  intros Hseg. induction p as [|c p IH]; simpl.
  - by rewrite dirname_aux_noslash.
  - by rewrite IH.
Qed.

Lemma dirname_app_slash p seg : SLASH ∉ seg -> dirname (p ++ SLASH :: seg) = p.
Proof. intros H. unfold dirname. by rewrite dirname_aux_app_slash. Qed.

Lemma removelast_cons {A : Type} (x : A) (l : list A) :
  l <> [] -> removelast (x :: l) = x :: removelast l.
Proof. by destruct l. Qed.

Lemma joinSlash_cons segment rest :
  rest <> [] -> joinSlash (segment :: rest) = segment ++ SLASH :: joinSlash rest.
Proof. by destruct rest. Qed.

Lemma joinSlash_cons_cons c segment rest :
  joinSlash ((c :: segment) :: rest) = c :: joinSlash (segment :: rest).
Proof. by destruct rest. Qed.

(** [dirname] is what [split], [pop] and [join] compute. *)
Lemma dirname_aux_split p :
  match dirname_aux p with
  | None => folderSegments p = []
  | Some d => folderSegments p <> [] /\ joinSlash (folderSegments p) = d
  end.
Proof.
  unfold folderSegments. induction p as [|c p IH]; [done|].
  pose proof (split_nonempty SLASH p) as Hne.
  cbn [dirname_aux JSString.split].
  destruct (N.eqb_spec c SLASH) as [->|Hc].
  - rewrite removelast_cons by done.
    destruct (dirname_aux p) as [d|].
    + destruct IH as [IH1 IH2]. split; [done|].
      rewrite joinSlash_cons by done. by rewrite IH2.
    + split; [done|]. by rewrite IH.
  - destruct (JSString.split SLASH p) as [|h t] eqn:Hs; [done|].
    destruct (dirname_aux p) as [d|].
    + destruct IH as [IH1 IH2].
      destruct t as [|h' t]; [done|].
      rewrite removelast_cons in * by done. split; [done|].
      by rewrite joinSlash_cons_cons, IH2.
    + by destruct t.
Qed.

Lemma dirname_split p : joinSlash (folderSegments p) = dirname p.
Proof.
  pose proof (dirname_aux_split p) as H. unfold dirname.
  destruct (dirname_aux p); [by destruct H|]. by rewrite H.
Qed.

Lemma folderSegments_relative p :
  relativePath p ->
  match folderSegments p with
  | [] => True
  | segment :: _ => segment <> []
  end.
Proof.
  unfold folderSegments. destruct p as [|c p]; simpl; [done|]. intros Hc.
  destruct (N.eqb_spec c SLASH); [done|].
  pose proof (split_nonempty SLASH p).
  destruct (JSString.split SLASH p) as [|h [|h' t]]; done.
Qed.

(** ** The store of the builder *)

Lemma StoreInv_empty : StoreInv (mkBuilder ∅ []).
Proof.
  split; simpl; try (intros; simplify_map_eq; done).
  - intros r Hr. by apply elem_of_nil in Hr.
  - constructor.
Qed.

Lemma StoreInv_insertRoot b k name expanded :
  StoreInv b -> folderMap b !! k = None -> SLASH ∉ k ->
  StoreInv (insertRoot b k (mkFolderObj name k [] [] [] expanded)).
Proof.
  intros Hb Hk Hflat. destruct Hb.
  split; unfold insertRoot; cbn [folderMap rootFolders].
  - intros x o Hx. apply lookup_insert_Some in Hx as [[<- <-]|[Hne Hx]]; eauto.
  - intros x o c Hx Hc. apply lookup_insert_Some in Hx as [[<- <-]|[Hne Hx]].
    { by apply elem_of_nil in Hc. }
    destruct (si_child0 x o c Hx Hc) as (Hc1 & Hc2 & Hc3).
    split; [|done]. rewrite lookup_insert_is_Some. destruct (decide (k = c)); auto.
  - intros r Hr. apply elem_of_app in Hr as [Hr|Hr].
    + destruct (si_root0 r Hr) as [H1 H2]. split; [|done].
      rewrite lookup_insert_is_Some. destruct (decide (k = r)); auto.
    + apply list_elem_of_singleton in Hr as ->. split; [|done].
      rewrite lookup_insert_eq. eauto.
  - intros x o Hx. apply lookup_insert_Some in Hx as [[<- <-]|[Hne Hx]]; eauto.
    constructor.
  - apply NoDup_app. split; [done|]. split; [|apply NoDup_singleton].
    intros r Hr Hr'. apply list_elem_of_singleton in Hr' as ->.
    destruct (si_root0 k Hr) as [[o Ho] _]. congruence.
  - intros r x o Hr Hx. apply lookup_insert_Some in Hx as [[<- <-]|[Hne Hx]].
    { apply not_elem_of_nil. }
    apply elem_of_app in Hr as [Hr|Hr]; [eauto|].
    apply list_elem_of_singleton in Hr as ->. intros Hc.
    destruct (si_child0 x o k Hx Hc) as ([o' Ho'] & _). congruence.
  - intros x Hx. apply lookup_insert_is_Some in Hx as [<-|[Hne Hx]].
    { left. apply elem_of_app. right. by apply list_elem_of_singleton. }
    destruct (si_attached0 x Hx) as [Hr|(o & Ho & Hc)].
    + left. apply elem_of_app. by left.
    + right. exists o. split; [|done]. rewrite lookup_insert_ne; [done|].
      intros Heq. rewrite <- Heq in Ho. congruence.
Qed.

Lemma lookup_insertChild (m : gmap (list N) FolderObj) parent k (o : FolderObj) x o' :
  parent <> k ->
  alter (pushChild k) parent (<[ k := o ]> m) !! x = Some o' ->
  (x = parent /\ exists op, m !! parent = Some op /\ o' = pushChild k op) \/
  (x = k /\ o' = o) \/
  (x <> parent /\ x <> k /\ m !! x = Some o').
Proof.
  intros Hne Hx. destruct (decide (x = parent)) as [->|Hxp].
  - left. split; [done|]. rewrite lookup_alter_eq, lookup_insert_ne in Hx by done.
    destruct (m !! parent) as [op|]; simpl in Hx; [|done].
    injection Hx as <-. eauto.
  - right. rewrite lookup_alter_ne in Hx by done.
    apply lookup_insert_Some in Hx as [[<- <-]|[Hne' Hx]]; [by left|].
    right. auto.
Qed.

Lemma is_Some_insertChild (m : gmap (list N) FolderObj) parent k (o : FolderObj) x :
  is_Some (m !! x) \/ x = k ->
  is_Some (alter (pushChild k) parent (<[ k := o ]> m) !! x).
Proof.
  intros H. rewrite lookup_alter_is_Some, lookup_insert_is_Some.
  destruct (decide (k = x)); [by left|]. right. split; [done|].
  by destruct H as [H|H].
Qed.

Lemma elem_of_pushChild c k o : c ∈ o_children (pushChild k o) <-> c ∈ o_children o \/ c = k.
Proof. simpl. rewrite elem_of_app, list_elem_of_singleton. tauto. Qed.

Lemma StoreInv_insertChild b parent k name expanded :
  StoreInv b -> folderMap b !! k = None -> is_Some (folderMap b !! parent) ->
  dirname k = parent -> (length parent < length k)%nat ->
  StoreInv (insertChild b parent k (mkFolderObj name k [] [] [] expanded)).
Proof.
  intros Hb Hk [op Hop] Hdir Hlen. destruct Hb.
  assert (Hne : parent <> k) by (intros ->; congruence).
  split; unfold insertChild; cbn [folderMap rootFolders].
  - intros x o Hx.
    apply lookup_insertChild in Hx as [[-> (op' & Hp & ->)]|[[-> ->]|(_ & _ & Hx)]];
      [|done|eauto|done].
    simpl. eauto.
  - intros x o c Hx Hc.
    apply lookup_insertChild in Hx as [[-> (op' & Hp & ->)]|[[-> ->]|(_ & _ & Hx)]];
      [|by apply elem_of_nil in Hc| |done].
    + apply elem_of_pushChild in Hc as [Hc| ->].
      * destruct (si_child0 parent op' c Hp Hc) as (Hc1 & Hc2 & Hc3).
        split; [|done]. apply is_Some_insertChild. by left.
      * split; [|done]. apply is_Some_insertChild. by right.
    + destruct (si_child0 x o c Hx Hc) as (Hc1 & Hc2 & Hc3).
      split; [|done]. apply is_Some_insertChild. by left.
  - intros r Hr. destruct (si_root0 r Hr) as [H1 H2]. split; [|done].
    apply is_Some_insertChild. by left.
  - intros x o Hx.
    apply lookup_insertChild in Hx as [[-> (op' & Hp & ->)]|[[-> ->]|(_ & _ & Hx)]];
      [|constructor|eauto|done].
    simpl. apply NoDup_app. split; [eauto|]. split; [|apply NoDup_singleton].
    intros c Hc Hc'. apply list_elem_of_singleton in Hc' as ->.
    destruct (si_child0 parent op' k Hp Hc) as ([o' Ho'] & _). congruence.
  - done.
  - intros r x o Hr Hx.
    apply lookup_insertChild in Hx as [[-> (op' & Hp & ->)]|[[-> ->]|(_ & _ & Hx)]];
      [|apply not_elem_of_nil|eauto|done].
    rewrite elem_of_pushChild. intros [Hc| ->]; [by eapply si_root_not_child0|].
    destruct (si_root0 k Hr) as [[o' Ho'] _]. congruence.
  - intros x Hx. apply lookup_alter_is_Some, lookup_insert_is_Some in Hx as [<-|[Hxk Hx]].
    { right. rewrite Hdir. exists (pushChild k op). split.
      - by rewrite lookup_alter_eq, lookup_insert_ne, Hop.
      - apply elem_of_pushChild. by right. }
    destruct (si_attached0 x Hx) as [Hr|(o & Ho & Hc)]; [by left|].
    right. destruct (decide (dirname x = parent)) as [Heq|Hneq].
    + exists (pushChild k o). rewrite Heq in *. split.
      * by rewrite lookup_alter_eq, lookup_insert_ne, Ho.
      * apply elem_of_pushChild. by left.
    + exists o. split; [|done]. rewrite lookup_alter_ne, lookup_insert_ne; [done| |done].
      intros Heq. rewrite <- Heq in Ho. congruence.
Qed.

Lemma StoreInv_pushFileAt b k fileItem :
  StoreInv b -> StoreInv (pushFileAt b k fileItem).
Proof.
  intros Hb. destruct Hb.
  assert (Hlk : forall x o', alter (pushFile fileItem) k (folderMap b) !! x = Some o' ->
            exists o, folderMap b !! x = Some o /\
              (o' = o \/ o' = pushFile fileItem o)).
  { intros x o' Hx. destruct (decide (x = k)) as [->|Hne].
    - rewrite lookup_alter_eq in Hx. destruct (folderMap b !! k) as [o|]; [|done].
      injection Hx as <-. eauto.
    - rewrite lookup_alter_ne in Hx by done. eauto. }
  split; unfold pushFileAt; cbn [folderMap rootFolders].
  - intros x o' Hx. apply Hlk in Hx as (o & Ho & [->| ->]); simpl; eauto.
  - intros x o' c Hx Hc. apply Hlk in Hx as (o & Ho & Ho').
    assert (Hc' : c ∈ o_children o) by (by destruct Ho' as [->| ->]).
    destruct (si_child0 x o c Ho Hc') as (Hc1 & Hc2 & Hc3).
    split; [|done]. by apply lookup_alter_is_Some.
  - intros r Hr. destruct (si_root0 r Hr) as [H1 H2]. split; [|done].
    by apply lookup_alter_is_Some.
  - intros x o' Hx. apply Hlk in Hx as (o & Ho & [->| ->]); simpl; eauto.
  - done.
  - intros r x o' Hr Hx. apply Hlk in Hx as (o & Ho & [->| ->]); simpl; eauto.
  - intros x Hx. apply lookup_alter_is_Some in Hx.
    destruct (si_attached0 x Hx) as [Hr|(o & Ho & Hc)]; [by left|].
    right. destruct (decide (dirname x = k)) as [Heq|Hneq].
    + exists (pushFile fileItem o). rewrite Heq in *. split; [|done].
      by rewrite lookup_alter_eq, Ho.
    + exists o. split; [|done]. by rewrite lookup_alter_ne.
Qed.

(** ** The main loop, update by update *)

Lemma stepBuilder_lookup b currentPath currentParent folderName :
  is_Some (folderMap (stepBuilder b currentPath currentParent folderName)
             !! nextPath currentPath folderName).
Proof.
  unfold stepBuilder.
  destruct (folderMap b !! nextPath currentPath folderName) eqn:Hk; [by rewrite Hk|].
  destruct currentParent; unfold insertChild, insertRoot; cbn [folderMap].
  - apply is_Some_insertChild. by right.
  - rewrite lookup_insert_eq. eauto.
Qed.

Lemma walkStep_eq b currentPath currentParent folderName :
  (currentParent = None -> currentPath = []) ->
  walkStep (currentPath, currentParent, b) folderName =
  (nextPath currentPath folderName, Some (nextPath currentPath folderName),
   stepBuilder b currentPath currentParent folderName).
Proof.
  intros Hpar.
  pose proof (stepBuilder_lookup b currentPath currentParent folderName) as Hin.
  unfold walkStep.
  change (match currentPath with
          | [] => folderName
          | _ :: _ => currentPath ++ [SLASH] ++ folderName
          end) with (nextPath currentPath folderName).
  assert (Hb :
    match folderMap b !! nextPath currentPath folderName with
    | Some _ => b
    | None =>
        match currentParent with
        | Some parent =>
            mkBuilder
              (alter (pushChild (nextPath currentPath folderName)) parent
                 (<[ nextPath currentPath folderName :=
                       mkFolderObj folderName (nextPath currentPath folderName)
                         [] [] [] false ]> (folderMap b)))
              (rootFolders b)
        | None =>
            match currentPath with
            | [] =>
                mkBuilder
                  (<[ nextPath currentPath folderName :=
                        mkFolderObj folderName (nextPath currentPath folderName)
                          [] [] [] false ]> (folderMap b))
                  (rootFolders b ++ [nextPath currentPath folderName])
            | _ :: _ =>
                match
                  <[ nextPath currentPath folderName :=
                       mkFolderObj folderName (nextPath currentPath folderName)
                         [] [] [] false ]> (folderMap b) !! currentPath
                with
                | Some _ =>
                    mkBuilder
                      (alter (pushChild (nextPath currentPath folderName)) currentPath
                         (<[ nextPath currentPath folderName :=
                               mkFolderObj folderName (nextPath currentPath folderName)
                                 [] [] [] false ]> (folderMap b)))
                      (rootFolders b)
                | None =>
                    mkBuilder
                      (<[ nextPath currentPath folderName :=
                            mkFolderObj folderName (nextPath currentPath folderName)
                              [] [] [] false ]> (folderMap b))
                      (rootFolders b)
                end
            end
        end
    end = stepBuilder b currentPath currentParent folderName).
  { unfold stepBuilder.
    destruct (folderMap b !! nextPath currentPath folderName); [done|].
    destruct currentParent; [done|]. by rewrite Hpar. }
  rewrite Hb. destruct Hin as [o Ho]. by rewrite Ho.
Qed.

Lemma fold_walkStep_eq pathParts : forall b currentPath currentParent,
  (currentParent = None -> currentPath = []) ->
  fold_left walkStep pathParts (currentPath, currentParent, b) =
  (fold_left nextPath pathParts currentPath,
   match pathParts with
   | [] => currentParent
   | _ => Some (fold_left nextPath pathParts currentPath)
   end,
   walkBuilder pathParts currentPath currentParent b).
Proof.
  induction pathParts as [|folderName rest IH]; intros b currentPath currentParent Hpar;
    [done|].
  cbn [fold_left walkBuilder]. rewrite walkStep_eq by done.
  rewrite IH by done. by destruct rest.
Qed.

Lemma getRootFolder_eq b :
  getRootFolder b =
  match folderMap b !! [] with
  | Some _ => b
  | None => insertRoot b [] (mkFolderObj ROOT_NAME [] [] [] [] true)
  end.
Proof. done. Qed.

Lemma addFile_eq b fileItem :
  addFile b fileItem =
  match folderSegments (fi_path fileItem) with
  | [] => pushFileAt (getRootFolder b) [] fileItem
  | pathParts =>
      pushFileAt (walkBuilder pathParts [] None b) (fold_left nextPath pathParts [])
        fileItem
  end.
Proof.
  unfold addFile, folderSegments.
  destruct (removelast (JSString.split SLASH (fi_path fileItem))) as [|seg rest] eqn:Hparts;
    [done|].
  by rewrite fold_walkStep_eq.
Qed.

(** The invariant along the walk. *)
Lemma StoreInv_stepBuilder b currentPath currentParent folderName :
  StoreInv b -> SLASH ∉ folderName ->
  (currentParent = None -> currentPath = []) ->
  (forall parent, currentParent = Some parent ->
     parent = currentPath /\ is_Some (folderMap b !! parent)) ->
  StoreInv (stepBuilder b currentPath currentParent folderName).
Proof.
  intros Hb Hseg Hnone Hsome. unfold stepBuilder.
  destruct (folderMap b !! nextPath currentPath folderName) eqn:Hk; [done|].
  destruct currentParent as [parent|].
  - destruct (Hsome parent eq_refl) as [-> Hin].
    apply StoreInv_insertChild; [done|done|done| |].
    + unfold nextPath. destruct currentPath; [by apply dirname_noslash|].
      by apply dirname_app_slash.
    + unfold nextPath. destruct currentPath as [|c s].
      * destruct folderName; [|simpl; lia].
        destruct Hin as [o Ho]. simpl in Hk. congruence.
      * rewrite !length_app. simpl. lia.
  - rewrite (Hnone eq_refl) in *. by apply StoreInv_insertRoot.
Qed.

Lemma StoreInv_walkBuilder pathParts : forall b currentPath currentParent,
  StoreInv b -> Forall (fun piece => SLASH ∉ piece) pathParts ->
  (currentParent = None -> currentPath = []) ->
  (forall parent, currentParent = Some parent ->
     parent = currentPath /\ is_Some (folderMap b !! parent)) ->
  StoreInv (walkBuilder pathParts currentPath currentParent b).
Proof.
  induction pathParts as [|folderName rest IH];
    intros b currentPath currentParent Hb Hparts Hnone Hsome; [done|].
  apply Forall_cons in Hparts as [Hseg Hrest]. cbn [walkBuilder].
  apply IH; [by apply StoreInv_stepBuilder|done|done|].
  intros parent [= <-]. split; [done|]. apply stepBuilder_lookup.
Qed.

Lemma StoreInv_getRootFolder b : StoreInv b -> StoreInv (getRootFolder b).
Proof.
  intros Hb. rewrite getRootFolder_eq. destruct (folderMap b !! []) eqn:Hk; [done|].
  apply StoreInv_insertRoot; [done|done|apply not_elem_of_nil].
Qed.

Lemma StoreInv_addFile b fileItem : StoreInv b -> StoreInv (addFile b fileItem).
Proof.
  intros Hb. rewrite addFile_eq.
  pose proof (folderSegments_pieces (fi_path fileItem)) as Hparts.
  destruct (folderSegments (fi_path fileItem)) as [|seg rest].
  - by apply StoreInv_pushFileAt, StoreInv_getRootFolder.
  - apply StoreInv_pushFileAt, StoreInv_walkBuilder; done.
Qed.

Lemma StoreInv_fold items : forall b,
  StoreInv b -> StoreInv (fold_left addFile items b).
Proof.
  induction items as [|f items IH]; intros b Hb; [done|].
  simpl. by apply IH, StoreInv_addFile.
Qed.

Lemma StoreInv_buildStore toLowerCase files : StoreInv (buildStore toLowerCase files).
Proof. apply StoreInv_fold, StoreInv_empty. Qed.

(** ** The sorting pass and the forest it leaves *)

Section SortPass.
Variable localeCompare : list N -> list N -> Z.

Lemma sortOwnLists_eq m folder :
  sortOwnLists localeCompare m folder =
  mkFolderObj (o_name folder) (o_path folder)
    (sortFilesByNumber localeCompare (nameAt m) (o_children folder))
    (sortFilesByNumber localeCompare v_name (o_videos folder))
    (sortFilesByNumber localeCompare fi_name (o_allFiles folder))
    (o_isExpanded folder).
Proof.
  unfold sortOwnLists.
  by destruct (o_children folder), (o_videos folder), (o_allFiles folder).
Qed.

Lemma sortOwnLists_sameUpToOrder m folder :
  sameUpToOrder folder (sortOwnLists localeCompare m folder).
Proof.
  rewrite sortOwnLists_eq. unfold sameUpToOrder. cbn.
  repeat split; apply arraySort_Permutation.
Qed.

(** A property of the store that every in-place sort of one object keeps
    is kept by the whole recursion. *)
Lemma sortFolderContents_preserves (I : gmap (list N) FolderObj -> Prop) :
  (forall m k o, I m -> m !! k = Some o ->
     I (<[ k := sortOwnLists localeCompare m o ]> m)) ->
  forall fuel m k m',
    I m -> sortFolderContents localeCompare fuel m k = Some m' -> I m'.
Proof.
  intros Hstep. induction fuel as [|fuel IH]; intros m k m' Hm Hrun; [done|].
  cbn [sortFolderContents] in Hrun. destruct (m !! k) as [o|] eqn:Hk; [|done].
  pose proof (Hstep m k o Hm Hk) as Hm1. revert Hm1 Hrun.
  generalize (<[ k := sortOwnLists localeCompare m o ]> m) as m1.
  generalize (o_children (sortOwnLists localeCompare m o)) as cs.
  induction cs as [|c cs IHcs]; intros m1 Hm1 Hrun; simpl in Hrun.
  - by injection Hrun as <-.
  - destruct (sortFolderContents localeCompare fuel m1 c) as [m2|] eqn:Hc; [|done].
    eapply IHcs; [|exact Hrun]. by eapply IH.
Qed.

Lemma foldlM_sortFolderContents_preserves (I : gmap (list N) FolderObj -> Prop) :
  (forall m k o, I m -> m !! k = Some o ->
     I (<[ k := sortOwnLists localeCompare m o ]> m)) ->
  forall fuel refs m m',
    I m -> foldlM (sortFolderContents localeCompare fuel) m refs = Some m' -> I m'.
Proof.
  intros Hstep fuel refs. induction refs as [|c cs IH]; intros m m' Hm Hrun;
    simpl in Hrun.
  - by injection Hrun as <-.
  - destruct (sortFolderContents localeCompare fuel m c) as [m2|] eqn:Hc; [|done].
    eapply IH; [|exact Hrun]. by eapply sortFolderContents_preserves.
Qed.

Lemma Shape_sorted (m0 m : gmap (list N) FolderObj) k o :
  Shape m /\ dom m = dom m0 -> m !! k = Some o ->
  Shape (<[ k := sortOwnLists localeCompare m o ]> m) /\
  dom (<[ k := sortOwnLists localeCompare m o ]> m) = dom m0.
Proof.
  intros [Hshape Hdom] Hk. split.
  - intros x ox c Hx Hc. rewrite lookup_insert_is_Some.
    apply lookup_insert_Some in Hx as [[<- <-]|[Hne Hx]].
    + destruct (sortOwnLists_sameUpToOrder m o) as (_ & _ & _ & Hp & _).
      rewrite Hp in Hc. destruct (Hshape k o c Hk Hc) as [H1 H2].
      split; [|done]. destruct (decide (k = c)); auto.
    + destruct (Hshape x ox c Hx Hc) as [H1 H2].
      split; [|done]. destruct (decide (k = c)); auto.
  - rewrite <- Hdom. apply dom_insert_lookup_L. eauto.
Qed.

Lemma deeper_child m k o c :
  Shape m -> m !! k = Some o -> c ∈ o_children o ->
  (size (deeper m c) < size (deeper m k))%nat.
Proof.
  intros Hshape Hk Hc. destruct (Hshape k o c Hk Hc) as [Hin Hlen].
  apply subset_size. unfold deeper. split.
  - intros q Hq. apply elem_of_filter in Hq as [Hq1 Hq2].
    apply elem_of_filter. split; [lia|done].
  - intros Hsub. assert (Hcin : c ∈ filter (fun q => (length c < length q)%nat) (dom m)).
    { apply Hsub, elem_of_filter. split; [done|]. by apply elem_of_dom. }
    apply elem_of_filter in Hcin as [Hcin _]. lia.
Qed.

Lemma deeper_dom (m m0 : gmap (list N) FolderObj) k :
  dom m = dom m0 -> deeper m k = deeper m0 k.
Proof. unfold deeper. by intros ->. Qed.

(** With fuel beyond the number of longer paths, the in-place sort comes
    back. *)
Lemma sortFolderContents_total fuel : forall m k,
  Shape m -> is_Some (m !! k) -> (size (deeper m k) < fuel)%nat ->
  is_Some (sortFolderContents localeCompare fuel m k).
Proof.
  induction fuel as [|fuel IH]; intros m k Hshape [o Hk] Hfuel; [lia|].
  cbn [sortFolderContents]. rewrite Hk.
  destruct (Shape_sorted m m k o (conj Hshape eq_refl) Hk) as [Hshape1 Hdom1].
  assert (Hcs : forall c, c ∈ o_children (sortOwnLists localeCompare m o) ->
            is_Some (m !! c) /\ (size (deeper m c) < fuel)%nat).
  { intros c Hc. destruct (sortOwnLists_sameUpToOrder m o) as (_ & _ & _ & Hp & _).
    rewrite Hp in Hc. split; [by destruct (Hshape k o c Hk Hc)|].
    pose proof (deeper_child m k o c Hshape Hk Hc). lia. }
  revert Hshape1 Hdom1 Hcs.
  generalize (<[ k := sortOwnLists localeCompare m o ]> m) as m1.
  generalize (o_children (sortOwnLists localeCompare m o)) as cs.
  induction cs as [|c cs IHcs]; intros m1 Hshape1 Hdom1 Hcs; simpl; [eauto|].
  destruct (Hcs c) as [Hcin Hcfuel]; [by left|].
  destruct (IH m1 c) as [m2 Hm2]; [done| |by rewrite (deeper_dom m1 m)|].
  { apply elem_of_dom. rewrite Hdom1. by apply elem_of_dom. }
  rewrite Hm2.
  destruct (sortFolderContents_preserves (fun m' => Shape m' /\ dom m' = dom m)
              (Shape_sorted m) fuel m1 c m2 (conj Hshape1 Hdom1) Hm2) as [Hs2 Hd2].
  apply IHcs; [done|done|]. intros c' Hc'. apply Hcs. by right.
Qed.

Lemma foldlM_sortFolderContents_total fuel refs : forall (m m0 : gmap (list N) FolderObj),
  Shape m -> dom m = dom m0 ->
  (forall r, r ∈ refs -> is_Some (m0 !! r)) -> (size m0 < fuel)%nat ->
  is_Some (foldlM (sortFolderContents localeCompare fuel) m refs).
Proof.
  induction refs as [|r refs IH]; intros m m0 Hshape Hdom Hrefs Hfuel; simpl; [eauto|].
  destruct (sortFolderContents_total fuel m r) as [m2 Hm2]; [done| | |].
  { apply elem_of_dom. rewrite Hdom. apply elem_of_dom, Hrefs. by left. }
  { rewrite (deeper_dom m m0) by done. unfold deeper.
    eapply Nat.le_lt_trans; [|exact Hfuel]. rewrite <- size_dom.
    apply subseteq_size. intros q Hq. by apply elem_of_filter in Hq as [_ Hq]. }
  rewrite Hm2.
  destruct (sortFolderContents_preserves (fun m' => Shape m' /\ dom m' = dom m0)
              (Shape_sorted m0) fuel m r m2 (conj Hshape Hdom) Hm2) as [Hs2 Hd2].
  apply (IH m2 m0); [done|done| |done]. intros r' Hr'. apply Hrefs. by right.
Qed.

(** Unfolding the references into a tree comes back as well. *)
Lemma toFolderNode_total fuel : forall m k,
  Shape m -> is_Some (m !! k) -> (size (deeper m k) < fuel)%nat ->
  is_Some (toFolderNode fuel m k).
Proof.
  induction fuel as [|fuel IH]; intros m k Hshape [o Hk] Hfuel; [lia|].
  cbn [toFolderNode]. rewrite Hk.
  assert (Hch : is_Some (mapM (toFolderNode fuel m) (o_children o))).
  { apply mapM_is_Some, Forall_forall. intros c Hc. simpl.
    apply IH; [done|by destruct (Hshape k o c Hk Hc)|].
    pose proof (deeper_child m k o c Hshape Hk Hc). lia. }
  destruct Hch as [ch Hch]. rewrite Hch. eauto.
Qed.

Lemma sameUpToOrder_refl o : sameUpToOrder o o.
Proof. by repeat split. Qed.

Lemma sameUpToOrder_trans o1 o2 o3 :
  sameUpToOrder o1 o2 -> sameUpToOrder o2 o3 -> sameUpToOrder o1 o3.
Proof.
  intros (H1 & H2 & H3 & H4 & H5 & H6) (G1 & G2 & G3 & G4 & G5 & G6).
  repeat split; try congruence; etrans; eauto.
Qed.

Lemma StoreReorder_refl m : StoreReorder m m.
Proof.
  intros k. destruct (m !! k); constructor. apply sameUpToOrder_refl.
Qed.

Lemma StoreReorder_sorted m0 m k o :
  StoreReorder m0 m -> m !! k = Some o ->
  StoreReorder m0 (<[ k := sortOwnLists localeCompare m o ]> m).
Proof.
  intros Hm Hk x. destruct (decide (k = x)) as [<-|Hne].
  - rewrite lookup_insert_eq. specialize (Hm k). rewrite Hk in Hm.
    inversion Hm as [o0 o' Ho0 Heq0 Heq|]; subst. constructor.
    eapply sameUpToOrder_trans; [exact Ho0|apply sortOwnLists_sameUpToOrder].
  - rewrite lookup_insert_ne by done. apply Hm.
Qed.

Lemma StoreReorder_lookup m m' k o' :
  StoreReorder m m' -> m' !! k = Some o' ->
  exists o, m !! k = Some o /\ sameUpToOrder o o'.
Proof.
  intros Hm Hk. specialize (Hm k). rewrite Hk in Hm.
  inversion Hm; subst. eauto.
Qed.

Lemma StoreReorder_is_Some m m' k :
  StoreReorder m m' -> is_Some (m !! k) <-> is_Some (m' !! k).
Proof.
  intros Hm. specialize (Hm k). split; intros [o Ho]; rewrite Ho in Hm;
    inversion Hm; subst; eauto.
Qed.

Lemma StoreReorder_dom m m' : StoreReorder m m' -> dom m' = dom m.
Proof.
  intros Hm. apply set_eq. intros k. rewrite !elem_of_dom.
  symmetry. by apply StoreReorder_is_Some.
Qed.

(** The structure of the store does not depend on the order of the lists. *)
Lemma StoreInv_reorder m roots m' roots' :
  StoreInv (mkBuilder m roots) -> StoreReorder m m' -> Permutation roots' roots ->
  StoreInv (mkBuilder m' roots').
Proof.
  intros [] Hm Hroots. cbn [folderMap rootFolders] in *.
  split; cbn [folderMap rootFolders].
  - intros k o' Hk.
    destruct (StoreReorder_lookup m m' k o' Hm Hk) as (o & Ho & _ & Hp & _).
    rewrite Hp. eauto.
  - intros k o' c Hk Hc.
    destruct (StoreReorder_lookup m m' k o' Hm Hk) as (o & Ho & _ & _ & _ & Hp & _).
    rewrite Hp in Hc. destruct (si_child0 k o c Ho Hc) as (H1 & H2 & H3).
    split; [|done]. by apply (StoreReorder_is_Some m m').
  - intros r Hr. rewrite Hroots in Hr. destruct (si_root0 r Hr) as [H1 H2].
    split; [|done]. by apply (StoreReorder_is_Some m m').
  - intros k o' Hk.
    destruct (StoreReorder_lookup m m' k o' Hm Hk) as (o & Ho & _ & _ & _ & Hp & _).
    rewrite Hp. eauto.
  - by rewrite Hroots.
  - intros r k o' Hr Hk. rewrite Hroots in Hr.
    destruct (StoreReorder_lookup m m' k o' Hm Hk) as (o & Ho & _ & _ & _ & Hp & _).
    rewrite Hp. eauto.
  - intros k Hk. apply (StoreReorder_is_Some m m') in Hk; [|done].
    destruct (si_attached0 k Hk) as [Hr|(o & Ho & Hc)].
    + left. by rewrite Hroots.
    + right. pose proof (Hm (dirname k)) as Hd. rewrite Ho in Hd.
      inversion Hd as [o1 o' Hoo' Heq1 Heq2|]; subst.
      exists o'. split; [done|]. destruct Hoo' as (_ & _ & _ & Hp & _). by rewrite Hp.
Qed.

Lemma StoreInv_Shape b : StoreInv b -> Shape (folderMap b).
Proof.
  intros [] k o c Hk Hc. destruct (si_child0 k o c Hk Hc) as (H1 & H2 & _). done.
Qed.

(** The folders of an unfolded tree show objects of the store. *)
Lemma toFolderNode_shows fuel : forall m k t,
  toFolderNode fuel m k = Some t ->
  forall folder, In folder (folderNodes t) ->
    exists k' o, m !! k' = Some o /\ shows o folder.
Proof.
  induction fuel as [|fuel IH]; intros m k t Ht folder Hin; [done|].
  cbn [toFolderNode] in Ht. destruct (m !! k) as [o|] eqn:Hk; [|done].
  destruct (mapM (toFolderNode fuel m) (o_children o)) as [ch|] eqn:Hch; [|done].
  injection Ht as <-. cbn [folderNodes children] in Hin.
  destruct Hin as [<-|Hin].
  - exists k, o. by repeat split.
  - apply in_flat_map in Hin as (c & Hc & Hin).
    apply mapM_Some in Hch. apply list_elem_of_In, list_elem_of_lookup in Hc as [i Hi].
    destruct (Forall2_lookup_r _ _ _ _ _ Hch Hi) as (kc & Hkc & Htc).
    eauto.
Qed.

(** The pass comes back, and so does the unfolding of the result. *)
Lemma sortedStore_total toLowerCase files :
  exists m',
    foldlM (sortFolderContents localeCompare
              (S (size (folderMap (buildStore toLowerCase files)))))
      (folderMap (buildStore toLowerCase files))
      (rootFolders (buildStore toLowerCase files)) = Some m' /\
    sortedStore toLowerCase localeCompare files =
      Some (mkBuilder m'
              (sortFilesByNumber localeCompare (nameAt m')
                 (rootFolders (buildStore toLowerCase files)))) /\
    StoreReorder (folderMap (buildStore toLowerCase files)) m'.
Proof.
  pose proof (StoreInv_buildStore toLowerCase files) as Hinv.
  set (b := buildStore toLowerCase files) in *.
  destruct (foldlM_sortFolderContents_total (S (size (folderMap b))) (rootFolders b)
              (folderMap b) (folderMap b)) as [m' Hm']; [by apply StoreInv_Shape|done| |lia|].
  { intros r Hr. by destruct (si_root b Hinv r Hr). }
  exists m'. split; [done|]. split.
  - unfold sortedStore. fold b. by rewrite Hm'.
  - eapply (foldlM_sortFolderContents_preserves (StoreReorder (folderMap b)));
      [apply StoreReorder_sorted|apply StoreReorder_refl|exact Hm'].
Qed.

Lemma buildCompleteFolderTree_total toLowerCase files :
  exists m' roots' forest,
    sortedStore toLowerCase localeCompare files = Some (mkBuilder m' roots') /\
    StoreReorder (folderMap (buildStore toLowerCase files)) m' /\
    Permutation roots' (rootFolders (buildStore toLowerCase files)) /\
    StoreInv (mkBuilder m' roots') /\
    buildCompleteFolderTree toLowerCase localeCompare files = Some forest /\
    Forall2 (fun r t => toFolderNode (S (size m')) m' r = Some t) roots' forest.
Proof.
  destruct (sortedStore_total toLowerCase files) as (m' & Hrun & Hsorted & Hre).
  pose proof (StoreInv_buildStore toLowerCase files) as Hinv.
  set (b := buildStore toLowerCase files) in *.
  set (roots' := sortFilesByNumber localeCompare (nameAt m') (rootFolders b)) in *.
  assert (Hperm : Permutation roots' (rootFolders b)) by apply arraySort_Permutation.
  assert (Hinv' : StoreInv (mkBuilder m' roots')).
  { eapply StoreInv_reorder; [|exact Hre|exact Hperm]. by destruct b. }
  assert (Hforest : is_Some (mapM (toFolderNode (S (size m')) m') roots')).
  { apply mapM_is_Some, Forall_forall. intros r Hr. unfold compose.
    apply toFolderNode_total; [by apply (StoreInv_Shape _ Hinv')| |].
    - by destruct (si_root _ Hinv' r Hr).
    - unfold deeper. rewrite <- size_dom.
      apply Nat.lt_succ_r, subseteq_size. intros q Hq.
      by apply elem_of_filter in Hq as [_ Hq]. }
  destruct Hforest as [forest Hforest].
  exists m', roots', forest. split_and!; try done.
  - unfold buildCompleteFolderTree. rewrite Hsorted. exact Hforest.
  - by apply mapM_Some.
Qed.

(** Every folder of the returned forest shows an object of the sorted
    store. *)
Lemma forest_shows m' roots' forest fuel :
  Forall2 (fun r t => toFolderNode fuel m' r = Some t) roots' forest ->
  forall folder, In folder (forestNodes forest) ->
    exists k o, m' !! k = Some o /\ shows o folder.
Proof.
  intros Hf folder Hin. unfold forestNodes in Hin.
  apply in_flat_map in Hin as (t & Ht & Hin).
  apply list_elem_of_In, list_elem_of_lookup in Ht as [i Hi].
  destruct (Forall2_lookup_r _ _ _ _ _ Hf Hi) as (r & Hr & Hrt).
  by eapply toFolderNode_shows.
Qed.

End SortPass.

(** ** Properties of single objects along the main loop *)

Section Keyed.
Variable Q : list N -> FolderObj -> Prop.
Hypothesis Q_fresh : forall k name expanded, Q k (mkFolderObj name k [] [] [] expanded).
Hypothesis Q_pushChild : forall k o c, Q k o -> Q k (pushChild c o).

Lemma KeyedInv_insert m k name expanded :
  KeyedInv Q m -> KeyedInv Q (<[ k := mkFolderObj name k [] [] [] expanded ]> m).
Proof.
  intros Hm x o Hx. apply lookup_insert_Some in Hx as [[<- <-]|[_ Hx]]; auto.
Qed.

Lemma KeyedInv_alter_pushChild m parent c :
  KeyedInv Q m -> KeyedInv Q (alter (pushChild c) parent m).
Proof.
  intros Hm x o Hx. destruct (decide (parent = x)) as [<-|Hne].
  - rewrite lookup_alter_eq in Hx. destruct (m !! parent) as [op|] eqn:Hp; [|done].
    injection Hx as <-. auto.
  - rewrite lookup_alter_ne in Hx by done. auto.
Qed.

Lemma KeyedInv_stepBuilder b currentPath currentParent folderName :
  KeyedInv Q (folderMap b) ->
  KeyedInv Q (folderMap (stepBuilder b currentPath currentParent folderName)).
Proof.
  intros Hb. unfold stepBuilder.
  destruct (folderMap b !! nextPath currentPath folderName); [done|].
  destruct currentParent; cbn [insertChild insertRoot folderMap].
  - by apply KeyedInv_alter_pushChild, KeyedInv_insert.
  - by apply KeyedInv_insert.
Qed.

Lemma KeyedInv_walkBuilder pathParts : forall b currentPath currentParent,
  KeyedInv Q (folderMap b) ->
  KeyedInv Q (folderMap (walkBuilder pathParts currentPath currentParent b)).
Proof.
  induction pathParts as [|folderName rest IH]; intros b currentPath currentParent Hb;
    [done|].
  cbn [walkBuilder]. by apply IH, KeyedInv_stepBuilder.
Qed.

Lemma KeyedInv_addFile b fileItem :
  (forall o, Q (pushKey fileItem) o -> Q (pushKey fileItem) (pushFile fileItem o)) ->
  KeyedInv Q (folderMap b) -> KeyedInv Q (folderMap (addFile b fileItem)).
Proof.
  intros Hpush Hb. rewrite addFile_eq. unfold pushKey in Hpush.
  assert (Halter : forall m, KeyedInv Q m ->
            KeyedInv Q (alter (pushFile fileItem)
                          (fold_left nextPath (folderSegments (fi_path fileItem)) []) m)).
  { intros m Hm x o Hx.
    destruct (decide (fold_left nextPath (folderSegments (fi_path fileItem)) [] = x))
      as [<-|Hne].
    - rewrite lookup_alter_eq in Hx.
      destruct (m !! fold_left nextPath (folderSegments (fi_path fileItem)) [])
        as [op|] eqn:Hp; [|done].
      injection Hx as <-. auto.
    - rewrite lookup_alter_ne in Hx by done. auto. }
  destruct (folderSegments (fi_path fileItem)) as [|seg rest] eqn:Hparts.
  - cbn [pushFileAt folderMap]. apply (Halter _). rewrite getRootFolder_eq.
    destruct (folderMap b !! []); [done|]. by apply KeyedInv_insert.
  - cbn [pushFileAt folderMap]. by apply (Halter _), KeyedInv_walkBuilder.
Qed.

Lemma KeyedInv_fold items : forall b,
  Forall (fun fileItem =>
            forall o, Q (pushKey fileItem) o -> Q (pushKey fileItem) (pushFile fileItem o))
    items ->
  KeyedInv Q (folderMap b) -> KeyedInv Q (folderMap (fold_left addFile items b)).
Proof.
  induction items as [|f items IH]; intros b Hitems Hb; [done|].
  apply Forall_cons in Hitems as [Hf Hitems]. simpl.
  by apply IH, KeyedInv_addFile.
Qed.

End Keyed.

Lemma joinSlash_step currentPath folderName rest :
  joinSlash ((currentPath ++ SLASH :: folderName) :: rest) =
  joinSlash (currentPath :: folderName :: rest).
Proof.
  destruct rest as [|s rest]; [done|].
  rewrite joinSlash_cons by done.
  rewrite (joinSlash_cons currentPath) by done.
  rewrite (joinSlash_cons folderName) by done.
  by rewrite <- app_assoc.
Qed.

Lemma fold_nextPath rest : forall currentPath,
  currentPath <> [] ->
  fold_left nextPath rest currentPath = joinSlash (currentPath :: rest).
Proof.
  induction rest as [|s rest IH]; intros currentPath Hne; [done|].
  cbn [fold_left]. unfold nextPath at 2.
  destruct currentPath as [|c cp]; [done|].
  rewrite IH by done. apply (joinSlash_step (c :: cp)).
Qed.

(** For a relative path, the folder that receives the file is the one its
    path names. *)
Lemma pushKey_relative fileItem :
  relativePath (fi_path fileItem) -> pushKey fileItem = dirname (fi_path fileItem).
Proof.
  intros Hrel. unfold pushKey. rewrite <- dirname_split.
  pose proof (folderSegments_relative _ Hrel) as Hhead.
  destruct (folderSegments (fi_path fileItem)) as [|s rest]; [done|].
  cbn [fold_left]. unfold nextPath at 2. by apply fold_nextPath.
Qed.

Lemma filesBelong_buildStore toLowerCase files :
  Forall (fun file => relativePath (descriptorPath file)) files ->
  KeyedInv filesBelong (folderMap (buildStore toLowerCase files)).
Proof.
  intros Hrel. unfold buildStore. apply KeyedInv_fold.
  - intros k nm e. split; intros x Hx; by apply elem_of_nil in Hx.
  - intros k o c [H1 H2]. by split.
  - apply Forall_forall. intros f Hf. apply list_elem_of_fmap in Hf as (file & -> & Hfile).
    rewrite Forall_forall in Hrel. specialize (Hrel file Hfile).
    rewrite pushKey_relative by done.
    intros o [H1 H2]. split.
    + intros x Hx. simpl in Hx. apply elem_of_app in Hx as [Hx|Hx]; [auto|].
      by apply list_elem_of_singleton in Hx as ->.
    + intros v Hv. simpl in Hv. destruct (isVideoFile toLowerCase file); [|auto].
      apply elem_of_app in Hv as [Hv|Hv]; [auto|].
      by apply list_elem_of_singleton in Hv as ->.
  - intros k o Hk. cbn [folderMap] in Hk. by rewrite lookup_empty in Hk.
Qed.

Lemma filesBelong_reorder m m' :
  StoreReorder m m' -> KeyedInv filesBelong m -> KeyedInv filesBelong m'.
Proof.
  intros Hre Hm k o' Hk.
  destruct (StoreReorder_lookup m m' k o' Hre Hk) as (o & Ho & _ & _ & _ & _ & Hv & Hf).
  destruct (Hm k o Ho) as [H1 H2]. split.
  - intros f Hin. rewrite Hf in Hin. auto.
  - intros v Hin. rewrite Hv in Hin. auto.
Qed.

(** C7.  The build returns a forest, and for a batch of relative paths
    every entry of a folder's [allFiles] and [videos] has the path of the
    folder as its own path without the final segment (the empty path of the
    root folder when it has no [/]). *)
Theorem files_sit_in_their_folder toLowerCase localeCompare (files : list File) :
  Forall (fun file => relativePath (descriptorPath file)) files ->
  exists forest,
    buildCompleteFolderTree toLowerCase localeCompare files = Some forest /\
    forall folder, In folder (forestNodes forest) ->
      (forall entries entry, allFiles folder = Some entries -> In entry entries ->
         path folder = dirname (fi_path entry)) /\
      (forall video, In video (videos folder) ->
         path folder = dirname (v_path video)).
Proof.
  intros Hrel.
  destruct (buildCompleteFolderTree_total localeCompare toLowerCase files)
    as (m' & roots' & forest & Hsorted & Hre & Hperm & Hinv & Hbuild & Hforest).
  exists forest. split; [done|]. intros folder Hin.
  destruct (forest_shows m' roots' forest _ Hforest folder Hin)
    as (k & o & Hk & Hn & Hp & Hv & Hf & He).
  pose proof (filesBelong_reorder _ _ Hre (filesBelong_buildStore toLowerCase files Hrel)
                k o Hk) as [H1 H2].
  pose proof (si_path _ Hinv k o Hk) as Hpath. cbn in Hpath.
  split.
  - intros entries entry Hentries Hentry. rewrite Hf in Hentries.
    injection Hentries as <-. rewrite Hp, Hpath. symmetry.
    by apply H1, list_elem_of_In.
  - intros video Hvideo. rewrite Hv in Hvideo. rewrite Hp, Hpath. symmetry.
    by apply H2, list_elem_of_In.
Qed.

Lemma files_sit_in_their_folder_witness :
  exists forest,
    buildCompleteFolderTree JSString.asciiLower JSString.codeUnitCompare sampleBatch
      = Some forest /\
    forall folder, In folder (forestNodes forest) ->
      (forall entries entry, allFiles folder = Some entries -> In entry entries ->
         path folder = dirname (fi_path entry)) /\
      (forall video, In video (videos folder) ->
         path folder = dirname (v_path video)).
Proof.
  apply (files_sit_in_their_folder JSString.asciiLower JSString.codeUnitCompare
           sampleBatch).
  repeat constructor; discriminate.
Defined.

(** A path that begins with [/] is not relative: its first folder segment
    is empty, the walk restarts the prefix after it, and the file lands in
    a folder whose path lacks the leading [/]. *)
Example leading_slash_folder :
  option_map (map path)
    (buildCompleteFolderTree JSString.asciiLower JSString.codeUnitCompare
       [sampleFile "/x/f.mp4" "f.mp4"]) = Some [[]] /\
  option_map (fun forest => map path (flat_map children forest))
    (buildCompleteFolderTree JSString.asciiLower JSString.codeUnitCompare
       [sampleFile "/x/f.mp4" "f.mp4"]) = Some [JSString.lit "x"] /\
  dirname (JSString.lit "/x/f.mp4") = JSString.lit "/x".
Proof. repeat split; vm_compute; reflexivity. Qed.

(** The scenario of the specification: folder [A] with its two lessons in
    order, and the root folder with [B.mp4]. *)
Example scenario_forest :
  option_map (map (fun folder => (name folder, path folder, map v_name (videos folder))))
    (buildCompleteFolderTree JSString.asciiLower JSString.codeUnitCompare scenarioBatch) =
  Some [(JSString.lit "A", JSString.lit "A", [lessonName "1"; lessonName "2"]);
        (ROOT_NAME, [], [JSString.lit "B.mp4"])].
Proof. vm_compute. reflexivity. Qed.

(** ** videos and allFiles *)

Lemma Permutation_List_filter {A : Type} (p : A -> bool) (l l' : list A) :
  Permutation l l' -> Permutation (List.filter p l) (List.filter p l').
Proof.
  induction 1 as [|x l l' _ IH|x y l|l l' l'' _ IH1 _ IH2]; simpl.
  - constructor.
  - destruct (p x); [by constructor|done].
  - destruct (p x), (p y); try done. apply perm_swap.
  - by etrans.
Qed.

Lemma videosOfFiles_buildStore toLowerCase files :
  KeyedInv videosOfFiles (folderMap (buildStore toLowerCase files)).
Proof.
  unfold buildStore. apply KeyedInv_fold.
  - done.
  - done.
  - apply Forall_forall. intros f _ o Ho. unfold videosOfFiles in *. simpl.
    rewrite List.filter_app, map_app, <- Ho. simpl.
    destruct (fi_isVideo f); simpl; [done|]. by rewrite app_nil_r.
  - intros k o Hk. cbn [folderMap] in Hk. by rewrite lookup_empty in Hk.
Qed.

Lemma videosOfFiles_sorted localeCompare m k o :
  Consistent localeCompare ->
  KeyedInv videosOfFiles m -> m !! k = Some o ->
  KeyedInv videosOfFiles (<[ k := sortOwnLists localeCompare m o ]> m).
Proof.
  intros Hlc Hm Hk x ox Hx.
  apply lookup_insert_Some in Hx as [[<- <-]|[_ Hx]]; [|by apply Hm].
  specialize (Hm k o Hk). unfold videosOfFiles in *.
  rewrite sortOwnLists_eq. cbn [o_videos o_allFiles]. unfold sortFilesByNumber.
  rewrite filter_arraySort by by apply compareByNumber_Consistent.
  rewrite Hm. by apply arraySort_map.
Qed.

(** C10.  The build returns a forest in which, for every folder, [videos]
    and the entries of [allFiles] tagged [isVideo] correspond one to one:
    each video has the name, path and size of such an entry, each such entry
    has its video, the counts agree, and on a consistent [localeCompare] the
    videos are those entries in the same order. *)
Theorem videos_are_the_video_files toLowerCase localeCompare (files : list File) :
  exists forest,
    buildCompleteFolderTree toLowerCase localeCompare files = Some forest /\
    forall folder, In folder (forestNodes forest) ->
      exists entries,
        allFiles folder = Some entries /\
        Permutation (videos folder)
          (map toVideoFile (List.filter fi_isVideo entries)) /\
        (forall video, In video (videos folder) ->
           exists entry, In entry entries /\ sameEntry video entry) /\
        (forall entry, In entry entries -> fi_isVideo entry = true ->
           exists video, In video (videos folder) /\ sameEntry video entry) /\
        length (videos folder) = length (List.filter fi_isVideo entries) /\
        (Consistent localeCompare ->
         videos folder = map toVideoFile (List.filter fi_isVideo entries)).
Proof.
  destruct (sortedStore_total localeCompare toLowerCase files) as (m1 & Hrun & Hs1 & _).
  destruct (buildCompleteFolderTree_total localeCompare toLowerCase files)
    as (m' & roots' & forest & Hsorted & Hre & Hperm & Hinv & Hbuild & Hforest).
  assert (m1 = m') as -> by congruence.
  exists forest. split; [done|]. intros folder Hin.
  destruct (forest_shows m' roots' forest _ Hforest folder Hin)
    as (k & o' & Hk & Hn & Hp & Hv & Hf & He).
  exists (o_allFiles o'). split; [done|].
  destruct (StoreReorder_lookup _ _ k o' Hre Hk) as (o & Ho & _ & _ & _ & _ & Hpv & Hpf).
  pose proof (videosOfFiles_buildStore toLowerCase files k o Ho) as Heq.
  unfold videosOfFiles in Heq.
  assert (Hp1 : Permutation (videos folder)
                  (map toVideoFile (List.filter fi_isVideo (o_allFiles o')))).
  { rewrite Hv, Hpv, Heq. by apply Permutation_map, Permutation_List_filter. }
  split; [done|]. split; [|split; [|split]].
  - intros video Hvideo. eapply Permutation_in in Hvideo; [|exact Hp1].
    apply in_map_iff in Hvideo as (entry & <- & Hentry).
    apply filter_In in Hentry as [Hentry Hvid]. exists entry. by repeat split.
  - intros entry Hentry Hvid. exists (toVideoFile entry). split; [|by repeat split].
    eapply Permutation_in; [symmetry; exact Hp1|].
    apply in_map, filter_In. by split.
  - rewrite (Permutation_length Hp1). apply length_map.
  - intros Hlc. rewrite Hv.
    apply (foldlM_sortFolderContents_preserves localeCompare (KeyedInv videosOfFiles)
             (fun m k o => videosOfFiles_sorted localeCompare m k o Hlc) _ _ _ _
             (videosOfFiles_buildStore toLowerCase files) Hrun k o' Hk).
Qed.

(** ** Levels *)

Lemma split_noslash s : SLASH ∉ s -> JSString.split SLASH s = [s].
Proof.
  induction s as [|c s IH]; [done|]. rewrite elem_of_cons. intros H.
  cbn [JSString.split]. destruct (N.eqb_spec c SLASH); [intuition congruence|].
  rewrite IH by tauto. done.
Qed.

Lemma split_app_slash d last :
  SLASH ∉ last ->
  JSString.split SLASH (d ++ SLASH :: last) = JSString.split SLASH d ++ [last].
Proof.
  intros Hlast. induction d as [|c d IH].
  - cbn [app JSString.split]. rewrite N.eqb_refl. by rewrite split_noslash.
  - cbn [app JSString.split]. rewrite IH.
    destruct (N.eqb c SLASH); [done|].
    pose proof (split_nonempty SLASH d).
    by destruct (JSString.split SLASH d).
Qed.

Lemma dirname_aux_Some c d :
  dirname_aux c = Some d -> exists last, c = d ++ SLASH :: last /\ SLASH ∉ last.
Proof.
  revert d. induction c as [|x c IH]; intros d Hd; [done|].
  cbn [dirname_aux] in Hd. destruct (dirname_aux c) as [d'|] eqn:Hc.
  - injection Hd as <-. destruct (IH d' eq_refl) as (last & -> & Hlast).
    by exists last.
  - destruct (N.eqb_spec x SLASH) as [->|Hx]; [|done]. injection Hd as <-.
    exists c. split; [done|].
    clear IH. induction c as [|y c IHc]; [apply not_elem_of_nil|].
    cbn [dirname_aux] in Hc. destruct (dirname_aux c); [done|].
    destruct (N.eqb_spec y SLASH); [done|].
    rewrite elem_of_cons. intros [?|?]; [congruence|]. by apply IHc.
Qed.

Lemma level_noslash k : SLASH ∉ k -> level k = 1%nat.
Proof. intros H. unfold level. by rewrite split_noslash. Qed.

Lemma level_app_slash d last :
  SLASH ∉ last -> level (d ++ SLASH :: last) = S (level d).
Proof.
  intros H. unfold level. rewrite split_app_slash by done.
  rewrite length_app. simpl. lia.
Qed.

Lemma level_child k c : dirname c = k -> k <> [] -> level c = S (level k).
Proof.
  unfold dirname. intros Hd Hk. destruct (dirname_aux c) as [d|] eqn:Hc; [|congruence].
  subst d. destruct (dirname_aux_Some c k Hc) as (last & -> & Hlast).
  by apply level_app_slash.
Qed.

Lemma level_nextPath currentPath folderName :
  SLASH ∉ folderName ->
  (level (nextPath currentPath folderName) <=
   S (match currentPath with [] => 0 | _ => level currentPath end))%nat.
Proof.
  intros H. unfold nextPath. destruct currentPath as [|c cp].
  - by rewrite level_noslash.
  - change ((c :: cp) ++ [SLASH] ++ folderName) with ((c :: cp) ++ SLASH :: folderName).
    by rewrite level_app_slash.
Qed.

Lemma split_joinSlash segments :
  segments <> [] -> Forall (fun piece => SLASH ∉ piece) segments ->
  JSString.split SLASH (joinSlash segments) = segments.
Proof.
  intros Hne Hall. induction Hall as [|s rest Hs Hrest IH]; [done|].
  destruct rest as [|s' rest].
  - by apply split_noslash.
  - rewrite joinSlash_cons by done. clear Hne.
    induction s as [|c s IHs].
    + cbn [app JSString.split]. rewrite N.eqb_refl. by rewrite IH.
    + cbn [app JSString.split]. rewrite elem_of_cons in Hs.
      destruct (N.eqb_spec c SLASH); [intuition congruence|].
      rewrite IHs by tauto. done.
Qed.

Lemma level_pushKey fileItem :
  relativePath (fi_path fileItem) ->
  level (pushKey fileItem) = Nat.max 1 (length (folderSegments (fi_path fileItem))).
Proof.
  intros Hrel. rewrite pushKey_relative by done. rewrite <- dirname_split.
  pose proof (folderSegments_pieces (fi_path fileItem)) as Hpieces.
  destruct (folderSegments (fi_path fileItem)) as [|s rest] eqn:Hsegs; [done|].
  unfold level. rewrite split_joinSlash by done. simpl. lia.
Qed.

(** ** Which paths get registered *)

Lemma stepBuilder_mono b currentPath currentParent folderName x :
  is_Some (folderMap b !! x) ->
  is_Some (folderMap (stepBuilder b currentPath currentParent folderName) !! x).
Proof.
  intros Hx. unfold stepBuilder.
  destruct (folderMap b !! nextPath currentPath folderName); [done|].
  destruct currentParent; cbn [insertChild insertRoot folderMap].
  - apply is_Some_insertChild. by left.
  - rewrite lookup_insert_is_Some.
    destruct (decide (nextPath currentPath folderName = x)); auto.
Qed.

Lemma walkBuilder_mono pathParts : forall b currentPath currentParent x,
  is_Some (folderMap b !! x) ->
  is_Some (folderMap (walkBuilder pathParts currentPath currentParent b) !! x).
Proof.
  induction pathParts as [|s rest IH]; intros b cp par x Hx; [done|].
  cbn [walkBuilder]. by apply IH, stepBuilder_mono.
Qed.

Lemma walkBuilder_last pathParts : forall b currentPath currentParent,
  pathParts <> [] ->
  is_Some (folderMap (walkBuilder pathParts currentPath currentParent b)
             !! fold_left nextPath pathParts currentPath).
Proof.
  induction pathParts as [|s rest IH]; intros b cp par Hne; [done|].
  cbn [walkBuilder fold_left]. destruct rest as [|s' rest].
  - apply stepBuilder_lookup.
  - by apply IH.
Qed.

Lemma getRootFolder_mono b x :
  is_Some (folderMap b !! x) -> is_Some (folderMap (getRootFolder b) !! x).
Proof.
  intros Hx. rewrite getRootFolder_eq. destruct (folderMap b !! []) eqn:Hr; [done|].
  cbn [insertRoot folderMap]. rewrite lookup_insert_is_Some.
  destruct (decide ([] = x)); auto.
Qed.

Lemma getRootFolder_lookup b : is_Some (folderMap (getRootFolder b) !! []).
Proof.
  rewrite getRootFolder_eq. destruct (folderMap b !! []) eqn:Hr; [by rewrite Hr|].
  cbn [insertRoot folderMap]. rewrite lookup_insert_eq. eauto.
Qed.

Lemma addFile_mono b fileItem x :
  is_Some (folderMap b !! x) -> is_Some (folderMap (addFile b fileItem) !! x).
Proof.
  intros Hx. rewrite addFile_eq.
  destruct (folderSegments (fi_path fileItem)); cbn [pushFileAt folderMap];
    apply lookup_alter_is_Some.
  - by apply getRootFolder_mono.
  - by apply walkBuilder_mono.
Qed.

Lemma addFile_pushKey b fileItem :
  is_Some (folderMap (addFile b fileItem) !! pushKey fileItem).
Proof.
  rewrite addFile_eq. unfold pushKey.
  destruct (folderSegments (fi_path fileItem)) as [|s rest];
    cbn [pushFileAt folderMap]; apply lookup_alter_is_Some.
  - apply getRootFolder_lookup.
  - by apply walkBuilder_last.
Qed.

Lemma fold_addFile_mono items : forall b x,
  is_Some (folderMap b !! x) -> is_Some (folderMap (fold_left addFile items b) !! x).
Proof.
  induction items as [|f items IH]; intros b x Hx; [done|].
  simpl. by apply IH, addFile_mono.
Qed.

Lemma fold_addFile_pushKey items : forall b fileItem,
  fileItem ∈ items ->
  is_Some (folderMap (fold_left addFile items b) !! pushKey fileItem).
Proof.
  induction items as [|f items IH]; intros b fileItem Hin.
  - by apply elem_of_nil in Hin.
  - simpl. apply elem_of_cons in Hin as [->|Hin]; [|by apply IH].
    apply fold_addFile_mono, addFile_pushKey.
Qed.

(** No path is longer than the longest descriptor asks for. *)
Lemma levelBound_stepBuilder bound b currentPath currentParent folderName :
  levelBound bound (folderMap b) ->
  (level (nextPath currentPath folderName) <= bound)%nat ->
  levelBound bound (folderMap (stepBuilder b currentPath currentParent folderName)).
Proof.
  intros Hb Hk x Hx. unfold stepBuilder in Hx.
  destruct (folderMap b !! nextPath currentPath folderName); [by apply Hb|].
  destruct currentParent; cbn [insertChild insertRoot folderMap] in Hx.
  - apply lookup_alter_is_Some, lookup_insert_is_Some in Hx as [<-|[_ Hx]]; auto.
  - apply lookup_insert_is_Some in Hx as [<-|[_ Hx]]; auto.
Qed.

Lemma levelBound_walkBuilder bound pathParts : forall b currentPath currentParent,
  levelBound bound (folderMap b) ->
  Forall (fun piece => SLASH ∉ piece) pathParts ->
  (match currentPath with [] => 0 | _ => level currentPath end + length pathParts
   <= bound)%nat ->
  levelBound bound (folderMap (walkBuilder pathParts currentPath currentParent b)).
Proof.
  induction pathParts as [|s rest IH]; intros b cp par Hb Hparts Hlen; [done|].
  apply Forall_cons in Hparts as [Hs Hrest]. cbn [walkBuilder].
  pose proof (level_nextPath cp s Hs) as Hlv. simpl in Hlen.
  apply IH; [|done|].
  - apply levelBound_stepBuilder; [done|lia].
  - destruct (nextPath cp s); lia.
Qed.

Lemma levelBound_addFile bound b fileItem :
  levelBound bound (folderMap b) ->
  (Nat.max 1 (length (folderSegments (fi_path fileItem))) <= bound)%nat ->
  levelBound bound (folderMap (addFile b fileItem)).
Proof.
  intros Hb Hlen. rewrite addFile_eq.
  pose proof (folderSegments_pieces (fi_path fileItem)) as Hparts.
  destruct (folderSegments (fi_path fileItem)) as [|s rest];
    cbn [pushFileAt folderMap]; intros x Hx; apply lookup_alter_is_Some in Hx.
  - rewrite getRootFolder_eq in Hx. destruct (folderMap b !! []); [by apply Hb|].
    cbn [insertRoot folderMap] in Hx.
    apply lookup_insert_is_Some in Hx as [<-|[_ Hx]]; [|by apply Hb].
    unfold level. simpl. lia.
  - eapply levelBound_walkBuilder; [exact Hb|exact Hparts| |exact Hx].
    simpl in *. lia.
Qed.

Lemma levelBound_fold bound items : forall b,
  levelBound bound (folderMap b) ->
  Forall (fun fileItem =>
            (Nat.max 1 (length (folderSegments (fi_path fileItem))) <= bound)%nat) items ->
  levelBound bound (folderMap (fold_left addFile items b)).
Proof.
  induction items as [|f items IH]; intros b Hb Hitems; [done|].
  apply Forall_cons in Hitems as [Hf Hitems]. simpl.
  apply IH; [by apply levelBound_addFile|done].
Qed.

(** For relative paths the root folder never gets a sub-folder. *)
Lemma rootIsFlat_stepBuilder b currentPath currentParent folderName :
  rootIsFlat (folderMap b) -> currentParent <> Some [] ->
  rootIsFlat (folderMap (stepBuilder b currentPath currentParent folderName)).
Proof.
  intros Hb Hpar o Ho. unfold stepBuilder in Ho.
  destruct (folderMap b !! nextPath currentPath folderName); [by apply Hb|].
  destruct currentParent as [parent|]; cbn [insertChild insertRoot folderMap] in Ho.
  - rewrite lookup_alter_ne in Ho by congruence.
    apply lookup_insert_Some in Ho as [[_ <-]|[_ Ho]]; [done|by apply Hb].
  - apply lookup_insert_Some in Ho as [[_ <-]|[_ Ho]]; [done|by apply Hb].
Qed.

Lemma rootIsFlat_walkBuilder pathParts : forall b currentPath currentParent,
  rootIsFlat (folderMap b) -> currentParent <> Some [] ->
  (currentPath = [] -> match pathParts with s :: _ => s <> [] | [] => True end) ->
  rootIsFlat (folderMap (walkBuilder pathParts currentPath currentParent b)).
Proof.
  induction pathParts as [|s rest IH]; intros b cp par Hb Hpar Hhead; [done|].
  cbn [walkBuilder].
  assert (Hnext : nextPath cp s <> []).
  { unfold nextPath. destruct cp as [|c cp]; [by apply Hhead|done]. }
  apply IH; [by apply rootIsFlat_stepBuilder|congruence|done].
Qed.

Lemma rootIsFlat_addFile b fileItem :
  rootIsFlat (folderMap b) -> relativePath (fi_path fileItem) ->
  rootIsFlat (folderMap (addFile b fileItem)).
Proof.
  intros Hb Hrel. rewrite addFile_eq.
  pose proof (folderSegments_relative _ Hrel) as Hhead.
  assert (Halter : forall m k, rootIsFlat m -> rootIsFlat (alter (pushFile fileItem) k m)).
  { intros m k Hm o Ho. destruct (decide (k = [])) as [->|Hne].
    - rewrite lookup_alter_eq in Ho. destruct (m !! []) as [o0|] eqn:H0; [|done].
      injection Ho as <-. simpl. by apply Hm.
    - rewrite lookup_alter_ne in Ho by done. by apply Hm. }
  destruct (folderSegments (fi_path fileItem)) as [|s rest];
    cbn [pushFileAt folderMap]; apply Halter.
  - rewrite getRootFolder_eq. destruct (folderMap b !! []) eqn:Hr; [done|].
    intros o Ho. cbn [insertRoot folderMap] in Ho. rewrite lookup_insert_eq in Ho.
    by injection Ho as <-.
  - by apply rootIsFlat_walkBuilder.
Qed.

Lemma rootIsFlat_fold items : forall b,
  rootIsFlat (folderMap b) -> Forall (fun f => relativePath (fi_path f)) items ->
  rootIsFlat (folderMap (fold_left addFile items b)).
Proof.
  induction items as [|f items IH]; intros b Hb Hitems; [done|].
  apply Forall_cons in Hitems as [Hf Hitems]. simpl.
  apply IH; [by apply rootIsFlat_addFile|done].
Qed.

(** ** Depth of the forest *)

Lemma toFolderNode_mono fuel : forall fuel' m k t,
  (fuel <= fuel')%nat -> toFolderNode fuel m k = Some t ->
  toFolderNode fuel' m k = Some t.
Proof.
  induction fuel as [|fuel IH]; intros fuel' m k t Hle Ht; [done|].
  destruct fuel' as [|fuel']; [lia|]. cbn [toFolderNode] in *.
  destruct (m !! k) as [o|]; [|done].
  destruct (mapM (toFolderNode fuel m) (o_children o)) as [ch|] eqn:Hch; [|done].
  assert (Hch' : mapM (toFolderNode fuel' m) (o_children o) = Some ch).
  { apply mapM_Some. apply mapM_Some in Hch.
    eapply Forall2_impl; [exact Hch|]. intros c tc Hc. apply (IH fuel'); [lia|done]. }
  by rewrite Hch'.
Qed.

Lemma toFolderNode_children fuel m k t :
  toFolderNode (S fuel) m k = Some t ->
  exists o, m !! k = Some o /\
    Forall2 (fun c tc => toFolderNode (S fuel) m c = Some tc) (o_children o) (children t).
Proof.
  intros Ht. cbn [toFolderNode] in Ht. destruct (m !! k) as [o|]; [|done].
  destruct (mapM (toFolderNode fuel m) (o_children o)) as [ch|] eqn:Hch; [|done].
  injection Ht as <-. exists o. split; [done|]. cbn [children].
  apply mapM_Some in Hch. eapply Forall2_impl; [exact Hch|].
  intros c tc Hc. apply (toFolderNode_mono fuel); [lia|done].
Qed.

Lemma list_max_In x l : In x l -> (x <= list_max l)%nat.
Proof.
  intros Hin. pose proof (proj1 (list_max_le l (list_max l)) (Nat.le_refl _)) as H.
  rewrite List.Forall_forall in H. by apply H.
Qed.

Section Depth.
Variable m : gmap (list N) FolderObj.
Variable roots : list (list N).
Variable bound : nat.
Hypothesis Hinv : StoreInv (mkBuilder m roots).
Hypothesis Hflat : rootIsFlat m.
Hypothesis Hbound : levelBound bound m.

Lemma child_level k o c :
  m !! k = Some o -> c ∈ o_children o -> level c = S (level k).
Proof.
  intros Hk Hc. destruct (si_child _ Hinv k o c Hk Hc) as (_ & _ & Hdir).
  apply level_child; [done|]. intros ->. rewrite (Hflat o Hk) in Hc.
  by apply elem_of_nil in Hc.
Qed.

Lemma depth_upper fuel : forall k t,
  toFolderNode fuel m k = Some t -> (level k <= bound)%nat ->
  (depthNode t + level k <= S bound)%nat.
Proof.
  induction fuel as [|fuel IH]; intros k t Ht Hk; [done|].
  destruct (toFolderNode_children fuel m k t Ht) as (o & Ho & Hch).
  destruct t as [n p ch vs af ex]. cbn [children depthNode] in *.
  assert (Hmax : (list_max (map depthNode ch) <= bound - level k)%nat); [|lia].
  apply list_max_le, List.Forall_forall. intros d Hd.
  apply in_map_iff in Hd as (tc & <- & Htc).
  apply list_elem_of_In, list_elem_of_lookup in Htc as [i Hi].
  destruct (Forall2_lookup_r _ _ _ _ _ Hch Hi) as (c & Hc & Hctc).
  assert (Hcin : c ∈ o_children o) by (by eapply list_elem_of_lookup_2).
  pose proof (child_level k o c Ho Hcin) as Hlv.
  destruct (si_child _ Hinv k o c Ho Hcin) as (Hdom & _ & _).
  pose proof (Hbound c Hdom) as Hcb.
  assert (Hsmall : toFolderNode fuel m c = Some tc).
  { cbn [toFolderNode] in Ht. rewrite Ho in Ht.
    destruct (mapM (toFolderNode fuel m) (o_children o)) as [ch'|] eqn:Hch'; [|done].
    injection Ht as _ _ <- _ _ _. apply mapM_Some in Hch'.
    destruct (Forall2_lookup_r _ _ _ _ _ Hch' Hi) as (c' & Hc' & Hc'tc).
    congruence. }
  specialize (IH c tc Hsmall Hcb). lia.
Qed.

Variable forest : list FolderNode.
Hypothesis Hforest :
  Forall2 (fun r t => toFolderNode (S (size m)) m r = Some t) roots forest.

Lemma depth_lower n : forall k,
  (length k <= n)%nat -> is_Some (m !! k) ->
  exists t, toFolderNode (S (size m)) m k = Some t /\
    (level k + depthNode t <= S (depthForest forest))%nat.
Proof.
  induction n as [|n IH]; intros k Hlen Hk.
  - destruct (si_attached _ Hinv k Hk) as [Hr|(o & Ho & Hc)].
    + apply list_elem_of_lookup in Hr as [i Hi].
      destruct (Forall2_lookup_l _ _ _ _ _ Hforest Hi) as (t & Hti & Ht).
      exists t. split; [done|].
      destruct (si_root _ Hinv k) as [_ Hflatk]; [by eapply list_elem_of_lookup_2|].
      rewrite level_noslash by done.
      assert (depthNode t <= depthForest forest)%nat; [|lia].
      apply list_max_In, in_map, list_elem_of_In. by eapply list_elem_of_lookup_2.
    + destruct (si_child _ Hinv _ o k Ho Hc) as (_ & Hlt & _). cbn in Hlt. lia.
  - destruct (si_attached _ Hinv k Hk) as [Hr|(o & Ho & Hc)].
    + apply list_elem_of_lookup in Hr as [i Hi].
      destruct (Forall2_lookup_l _ _ _ _ _ Hforest Hi) as (t & Hti & Ht).
      exists t. split; [done|].
      destruct (si_root _ Hinv k) as [_ Hflatk]; [by eapply list_elem_of_lookup_2|].
      rewrite level_noslash by done.
      assert (depthNode t <= depthForest forest)%nat; [|lia].
      apply list_max_In, in_map, list_elem_of_In. by eapply list_elem_of_lookup_2.
    + cbn [folderMap] in Ho.
      destruct (si_child _ Hinv _ o k Ho Hc) as (_ & Hlt & _). cbn in Hlt.
      destruct (IH (dirname k)) as (tp & Htp & Hdp); [lia|by eauto|].
      destruct (toFolderNode_children _ m _ tp Htp) as (o' & Ho' & Hch).
      assert (o' = o) as -> by congruence.
      apply list_elem_of_lookup in Hc as [i Hi].
      destruct (Forall2_lookup_l _ _ _ _ _ Hch Hi) as (t & Hti & Ht).
      exists t. split; [done|].
      pose proof (child_level (dirname k) o k Ho) as Hlv.
      rewrite Hlv by (by eapply list_elem_of_lookup_2).
      assert (S (depthNode t) <= depthNode tp)%nat; [|lia].
      destruct tp as [n' p' ch' vs' af' ex']. cbn [depthNode children] in *.
      apply le_n_S, list_max_In, in_map, list_elem_of_In.
      by eapply list_elem_of_lookup_2.
Qed.

Lemma depthForest_upper : (depthForest forest <= bound)%nat.
Proof.
  unfold depthForest. apply list_max_le, List.Forall_forall. intros d Hd.
  apply in_map_iff in Hd as (t & <- & Ht).
  apply list_elem_of_In, list_elem_of_lookup in Ht as [i Hi].
  destruct (Forall2_lookup_r _ _ _ _ _ Hforest Hi) as (r & Hr & Hrt).
  destruct (si_root _ Hinv r) as [Hdom Hflatr]; [by eapply list_elem_of_lookup_2|].
  pose proof (Hbound r Hdom) as Hrb.
  pose proof (depth_upper _ r t Hrt Hrb) as Hup.
  rewrite level_noslash in Hup by done. lia.
Qed.

Lemma depthForest_lower k :
  is_Some (m !! k) -> (level k <= depthForest forest)%nat.
Proof.
  intros Hk. destruct (depth_lower (length k) k (Nat.le_refl _) Hk) as (t & _ & Hd).
  destruct t. cbn [depthNode] in Hd. lia.
Qed.

(** A chain of [children] references goes to longer and longer paths. *)
Lemma childOf_longer a b : tc (childOf m) a b -> (length a < length b)%nat.
Proof.
  induction 1 as [a b (o & Ho & Hc)|a b c (o & Ho & Hc) _ IH].
  - by destruct (si_child _ Hinv a o b Ho Hc) as (_ & Hlt & _).
  - destruct (si_child _ Hinv a o b Ho Hc) as (_ & Hlt & _). cbn in *. lia.
Qed.

Lemma childOf_parent p c : childOf m p c -> p = dirname c.
Proof.
  intros (o & Ho & Hc). by destruct (si_child _ Hinv p o c Ho Hc) as (_ & _ & ->).
Qed.

End Depth.

Lemma fi_path_toFileItem toLowerCase file :
  fi_path (toFileItem toLowerCase file) = descriptorPath file.
Proof. done. Qed.

Lemma rootIsFlat_reorder m m' : StoreReorder m m' -> rootIsFlat m -> rootIsFlat m'.
Proof.
  intros Hre Hm o' Ho'.
  destruct (StoreReorder_lookup m m' [] o' Hre Ho') as (o & Ho & _ & _ & _ & Hp & _).
  rewrite (Hm o Ho) in Hp. symmetry in Hp. by apply Permutation_nil in Hp.
Qed.

Lemma levelBound_reorder bound m m' :
  StoreReorder m m' -> levelBound bound m -> levelBound bound m'.
Proof. intros Hre Hm k Hk. apply Hm. by apply (StoreReorder_is_Some m m'). Qed.

(** C8 (as the code has it).  The build returns a forest, the unfolding of
    a store in which no folder is reachable from itself through [children],
    no folder is a child of two folders or both a child and a root, and no
    reference occurs twice in a list.  For a batch of relative paths the
    depth of the forest, in levels of folders, is the largest number of
    folder segments of a descriptor, where a descriptor without folder
    segments counts for one level: its file sits in the root folder.  When
    every descriptor has a folder segment, the depth is the largest number
    of folder segments. *)
Theorem forest_is_acyclic_and_deep_as_paths toLowerCase localeCompare (files : list File) :
  exists m' roots' forest,
    sortedStore toLowerCase localeCompare files = Some (mkBuilder m' roots') /\
    buildCompleteFolderTree toLowerCase localeCompare files = Some forest /\
    Forall2 (fun r t => toFolderNode (S (size m')) m' r = Some t) roots' forest /\
    (forall k, ~ tc (childOf m') k k) /\
    (forall p1 p2 c, childOf m' p1 c -> childOf m' p2 c -> p1 = p2) /\
    (forall r p, r ∈ roots' -> ~ childOf m' p r) /\
    NoDup roots' /\
    (forall k o, m' !! k = Some o -> NoDup (o_children o)) /\
    (Forall (fun file => relativePath (descriptorPath file)) files ->
     depthForest forest = list_max (map levelsOf files)) /\
    (Forall (fun file => relativePath (descriptorPath file)) files ->
     Forall (fun file => folderSegments (descriptorPath file) <> []) files ->
     depthForest forest =
     list_max (map (fun file => length (folderSegments (descriptorPath file))) files)).
Proof.
  destruct (buildCompleteFolderTree_total localeCompare toLowerCase files)
    as (m' & roots' & forest & Hsorted & Hre & Hperm & Hinv & Hbuild & Hforest).
  exists m', roots', forest.
  assert (Hdepth : Forall (fun file => relativePath (descriptorPath file)) files ->
                   depthForest forest = list_max (map levelsOf files)).
  { intros Hrel.
    assert (Hitems : Forall (fun f => relativePath (fi_path f))
                       (map (toFileItem toLowerCase) files)).
    { apply Forall_forall. intros f Hf.
      apply list_elem_of_fmap in Hf as (file & -> & Hfile).
      rewrite Forall_forall in Hrel. by apply Hrel. }
    assert (Hflat : rootIsFlat m').
    { apply (rootIsFlat_reorder _ _ Hre). unfold buildStore.
      apply rootIsFlat_fold; [|done]. intros o Ho. cbn [folderMap] in Ho.
      by rewrite lookup_empty in Ho. }
    assert (Hbound : levelBound (list_max (map levelsOf files)) m').
    { apply (levelBound_reorder _ _ _ Hre). unfold buildStore.
      apply levelBound_fold.
      - intros k Hk. cbn [folderMap] in Hk. rewrite lookup_empty in Hk.
        by destruct Hk.
      - apply Forall_forall. intros f Hf.
        apply list_elem_of_fmap in Hf as (file & -> & Hfile).
        rewrite fi_path_toFileItem.
        apply (list_max_In (levelsOf file)), in_map. by apply list_elem_of_In. }
    apply Nat.le_antisymm.
    - by apply (depthForest_upper m' roots' _ Hinv Hflat Hbound).
    - apply list_max_le, List.Forall_forall. intros d Hd.
      apply in_map_iff in Hd as (file & <- & Hfile).
      assert (Hkey : is_Some (m' !! pushKey (toFileItem toLowerCase file))).
      { apply (StoreReorder_is_Some _ _ _ Hre). unfold buildStore.
        apply fold_addFile_pushKey, list_elem_of_fmap.
        exists file. split; [done|]. by apply list_elem_of_In. }
      pose proof (depthForest_lower m' roots' Hinv Hflat forest Hforest _ Hkey) as Hlow.
      rewrite level_pushKey in Hlow.
      + by rewrite fi_path_toFileItem in Hlow.
      + rewrite List.Forall_forall in Hrel. by apply Hrel. }
  split_and!; try done.
  - intros k Hk. apply (childOf_longer m' roots' Hinv) in Hk. lia.
  - intros p1 p2 c H1 H2.
    rewrite (childOf_parent m' roots' Hinv p1 c H1).
    by rewrite (childOf_parent m' roots' Hinv p2 c H2).
  - intros r p Hr (o & Ho & Hc). by apply (si_root_not_child _ Hinv r p o Hr Ho).
  - apply (si_nodup_roots _ Hinv).
  - intros k o Hk. apply (si_nodup_children _ Hinv k o Hk).
  - intros Hrel Hsegs. rewrite (Hdepth Hrel). f_equal. apply map_ext_in.
    intros file Hfile. rewrite List.Forall_forall in Hsegs.
    specialize (Hsegs file Hfile). unfold levelsOf.
    destruct (folderSegments (descriptorPath file)); [done|simpl; lia].
Qed.

Lemma forest_is_acyclic_and_deep_as_paths_witness :
  exists forest,
    buildCompleteFolderTree JSString.asciiLower JSString.codeUnitCompare sampleBatch
      = Some forest /\
    depthForest forest = 2%nat.
Proof.
  destruct (forest_is_acyclic_and_deep_as_paths JSString.asciiLower
              JSString.codeUnitCompare sampleBatch)
    as (m' & roots' & forest & _ & Hbuild & _ & _ & _ & _ & _ & _ & Hdepth & _).
  exists forest. split; [exact Hbuild|]. rewrite Hdepth; [reflexivity|].
  repeat constructor; discriminate.
Defined.

(** C8 as stated fails on the depth: a batch of one file without a folder
    yields the root folder, one level deep, for zero folder segments; and
    if depth is counted in steps below a root instead, a batch of one file
    in one folder yields depth zero for one folder segment. *)
Lemma depth_counterexample :
  (exists forest,
     buildCompleteFolderTree JSString.asciiLower JSString.codeUnitCompare
       [sampleFile "" "b.mp4"] = Some forest /\
     depthForest forest <>
     list_max (map (fun file => length (folderSegments (descriptorPath file)))
                 [sampleFile "" "b.mp4"])) /\
  (exists forest,
     buildCompleteFolderTree JSString.asciiLower JSString.codeUnitCompare
       [sampleFile "A/x.mp4" "x.mp4"] = Some forest /\
     depthEdges forest <>
     list_max (map (fun file => length (folderSegments (descriptorPath file)))
                 [sampleFile "A/x.mp4" "x.mp4"])).
Proof.
  split; eexists; (split; [vm_compute; reflexivity|]); vm_compute; discriminate.
Qed.

Lemma videos_are_the_video_files_witness :
  exists forest,
    buildCompleteFolderTree JSString.asciiLower JSString.codeUnitCompare sampleBatch
      = Some forest /\
    forall folder, In folder (forestNodes forest) ->
      exists entries,
        allFiles folder = Some entries /\
        videos folder = map toVideoFile (List.filter fi_isVideo entries).
Proof.
  destruct (videos_are_the_video_files JSString.asciiLower JSString.codeUnitCompare
              sampleBatch) as (forest & Hbuild & Hall).
  exists forest. split; [exact Hbuild|]. intros folder Hin.
  destruct (Hall folder Hin) as (entries & Hentries & _ & _ & _ & _ & Heq).
  exists entries. split; [exact Hentries|].
  exact (Heq codeUnitCompare_Consistent).
Defined.

(** ** What the store holds, whatever the order of the batch *)

Lemma dom_stepBuilder b currentPath currentParent folderName :
  dom (folderMap (stepBuilder b currentPath currentParent folderName)) =
  {[ nextPath currentPath folderName ]} ∪ dom (folderMap b).
Proof.
  unfold stepBuilder.
  destruct (folderMap b !! nextPath currentPath folderName) eqn:Hk.
  - apply elem_of_dom_2 in Hk. set_solver.
  - destruct currentParent; cbn [insertChild insertRoot folderMap].
    + by rewrite dom_alter_L, dom_insert_L.
    + by rewrite dom_insert_L.
Qed.

Lemma dom_walkBuilder pathParts : forall b currentPath currentParent,
  dom (folderMap (walkBuilder pathParts currentPath currentParent b)) =
  list_to_set (walkKeys pathParts currentPath) ∪ dom (folderMap b).
Proof.
  induction pathParts as [|s rest IH]; intros b cp par; cbn [walkBuilder walkKeys].
  - set_solver.
  - rewrite IH, dom_stepBuilder. set_solver.
Qed.

Lemma dom_addFile b fileItem :
  dom (folderMap (addFile b fileItem)) = keysOf fileItem ∪ dom (folderMap b).
Proof.
  rewrite addFile_eq. unfold keysOf.
  destruct (folderSegments (fi_path fileItem)) as [|s rest];
    cbn [pushFileAt folderMap]; rewrite dom_alter_L.
  - rewrite getRootFolder_eq. destruct (folderMap b !! []) eqn:Hr.
    + apply elem_of_dom_2 in Hr. set_solver.
    + cbn [insertRoot folderMap]. by rewrite dom_insert_L.
  - apply dom_walkBuilder.
Qed.

Lemma dom_fold items : forall b,
  dom (folderMap (fold_left addFile items b)) =
  ⋃ (keysOf <$> items) ∪ dom (folderMap b).
Proof.
  induction items as [|f items IH]; intros b; simpl.
  - set_solver.
  - rewrite IH, dom_addFile. set_solver.
Qed.

Lemma dom_fold_Permutation items items' b :
  Permutation items items' ->
  dom (folderMap (fold_left addFile items b)) =
  dom (folderMap (fold_left addFile items' b)).
Proof.
  intros Hp. rewrite !dom_fold. f_equal. apply set_eq. intros k.
  rewrite !elem_of_union_list. split; intros (X & HX & Hk); exists X; split; try done.
  - by rewrite <- Hp.
  - by rewrite Hp.
Qed.

Lemma basename_nextPath currentPath folderName :
  SLASH ∉ folderName -> basename (nextPath currentPath folderName) = folderName.
Proof.
  intros Hs. unfold basename, nextPath. destruct currentPath as [|c cp].
  - by rewrite split_noslash.
  - change ((c :: cp) ++ [SLASH] ++ folderName) with ((c :: cp) ++ SLASH :: folderName).
    rewrite split_app_slash by done. apply last_last.
Qed.

Lemma namedByKey_alter (f : FolderObj -> FolderObj) m k :
  (forall o, o_name (f o) = o_name o /\ o_isExpanded (f o) = o_isExpanded o) ->
  namedByKey m -> namedByKey (alter f k m).
Proof.
  intros Hf Hm x o Hx. destruct (decide (k = x)) as [<-|Hne].
  - rewrite lookup_alter_eq in Hx. destruct (m !! k) as [o0|] eqn:Hk; [|done].
    injection Hx as <-. destruct (Hf o0) as [-> ->]. by apply Hm.
  - rewrite lookup_alter_ne in Hx by done. by apply Hm.
Qed.

Lemma namedByKey_stepBuilder b currentPath currentParent folderName :
  namedByKey (folderMap b) -> SLASH ∉ folderName ->
  nextPath currentPath folderName <> [] ->
  namedByKey (folderMap (stepBuilder b currentPath currentParent folderName)).
Proof.
  intros Hb Hs Hne. unfold stepBuilder.
  destruct (folderMap b !! nextPath currentPath folderName); [done|].
  assert (Hins : namedByKey
            (<[ nextPath currentPath folderName :=
                  mkFolderObj folderName (nextPath currentPath folderName) [] [] [] false ]>
               (folderMap b))).
  { intros x o Hx. apply lookup_insert_Some in Hx as [[<- <-]|[_ Hx]]; [|by apply Hb].
    cbn [o_name o_isExpanded]. unfold nameFor, expandedFor.
    destruct (nextPath currentPath folderName) eqn:Hk; [done|].
    rewrite <- Hk. by rewrite basename_nextPath. }
  destruct currentParent; cbn [insertChild insertRoot folderMap]; [|done].
  by apply namedByKey_alter.
Qed.

Lemma namedByKey_walkBuilder pathParts : forall b currentPath currentParent,
  namedByKey (folderMap b) -> Forall (fun piece => SLASH ∉ piece) pathParts ->
  (currentPath = [] -> match pathParts with s :: _ => s <> [] | [] => True end) ->
  namedByKey (folderMap (walkBuilder pathParts currentPath currentParent b)).
Proof.
  induction pathParts as [|s rest IH]; intros b cp par Hb Hparts Hhead; [done|].
  apply Forall_cons in Hparts as [Hs Hrest]. cbn [walkBuilder].
  assert (Hnext : nextPath cp s <> []).
  { unfold nextPath. destruct cp as [|c cp]; [by apply Hhead|done]. }
  apply IH; [by apply namedByKey_stepBuilder|done|done].
Qed.

Lemma namedByKey_addFile b fileItem :
  namedByKey (folderMap b) -> relativePath (fi_path fileItem) ->
  namedByKey (folderMap (addFile b fileItem)).
Proof.
  intros Hb Hrel. rewrite addFile_eq.
  pose proof (folderSegments_relative _ Hrel) as Hhead.
  pose proof (folderSegments_pieces (fi_path fileItem)) as Hparts.
  destruct (folderSegments (fi_path fileItem)) as [|s rest];
    cbn [pushFileAt folderMap]; apply namedByKey_alter; try done.
  - rewrite getRootFolder_eq. destruct (folderMap b !! []) eqn:Hr; [done|].
    intros x o Hx. cbn [insertRoot folderMap] in Hx.
    apply lookup_insert_Some in Hx as [[<- <-]|[_ Hx]]; [done|by apply Hb].
  - by apply namedByKey_walkBuilder.
Qed.

Lemma namedByKey_fold items : forall b,
  namedByKey (folderMap b) -> Forall (fun f => relativePath (fi_path f)) items ->
  namedByKey (folderMap (fold_left addFile items b)).
Proof.
  induction items as [|f items IH]; intros b Hb Hitems; [done|].
  apply Forall_cons in Hitems as [Hf Hitems]. simpl.
  apply IH; [by apply namedByKey_addFile|done].
Qed.

(** The files of each folder. *)
Lemma filesExact_fresh done b k :
  filesExact done b -> folderMap b !! k = None ->
  List.filter (fun f => bool_decide (pushKey f = k)) done = [].
Proof.
  intros [Hdone _] Hk. induction done as [|f done IH]; [done|].
  simpl. destruct (bool_decide_reflect (pushKey f = k)) as [Heq|Hne].
  - destruct (Hdone f) as [o Ho]; [by left|]. congruence.
  - apply IH. intros f' Hf'. apply Hdone. by right.
Qed.

Lemma filesExact_stepBuilder done b currentPath currentParent folderName :
  filesExact done b -> filesExact done (stepBuilder b currentPath currentParent folderName).
Proof.
  intros Hb. pose proof Hb as [Hdone Hfiles]. split.
  - intros f Hf. by apply stepBuilder_mono, Hdone.
  - intros x o Hx. unfold stepBuilder in Hx.
    destruct (folderMap b !! nextPath currentPath folderName) eqn:Hk; [by apply Hfiles|].
    pose proof (filesExact_fresh done b _ Hb Hk) as Hfresh.
    destruct currentParent as [parent|]; cbn [insertChild insertRoot folderMap] in Hx.
    + destruct (decide (parent = x)) as [<-|Hne].
      * rewrite lookup_alter_eq in Hx.
        destruct (<[ nextPath currentPath folderName := _ ]> (folderMap b) !! parent)
          as [op|] eqn:Hp; [|done].
        injection Hx as <-. cbn [pushChild o_allFiles].
        apply lookup_insert_Some in Hp as [[<- <-]|[_ Hp]]; [done|by apply Hfiles].
      * rewrite lookup_alter_ne in Hx by done.
        apply lookup_insert_Some in Hx as [[<- <-]|[_ Hx]]; [done|by apply Hfiles].
    + apply lookup_insert_Some in Hx as [[<- <-]|[_ Hx]]; [done|by apply Hfiles].
Qed.

Lemma filesExact_walkBuilder done pathParts : forall b currentPath currentParent,
  filesExact done b -> filesExact done (walkBuilder pathParts currentPath currentParent b).
Proof.
  induction pathParts as [|s rest IH]; intros b cp par Hb; [done|].
  cbn [walkBuilder]. by apply IH, filesExact_stepBuilder.
Qed.

Lemma filesExact_getRootFolder done b :
  filesExact done b -> filesExact done (getRootFolder b).
Proof.
  intros Hb. pose proof Hb as [Hdone Hfiles]. rewrite getRootFolder_eq.
  destruct (folderMap b !! []) eqn:Hr; [done|]. split.
  - intros f Hf. cbn [insertRoot folderMap]. rewrite lookup_insert_is_Some.
    destruct (decide ([] = pushKey f)); auto.
  - intros x o Hx. cbn [insertRoot folderMap] in Hx.
    apply lookup_insert_Some in Hx as [[<- <-]|[_ Hx]]; [|by apply Hfiles].
    cbn [o_allFiles]. symmetry. by apply (filesExact_fresh done b).
Qed.

Lemma filesExact_pushFileAt done b fileItem :
  filesExact done b -> is_Some (folderMap b !! pushKey fileItem) ->
  filesExact (done ++ [fileItem]) (pushFileAt b (pushKey fileItem) fileItem).
Proof.
  intros [Hdone Hfiles] Hkey. split; cbn [pushFileAt folderMap].
  - intros f Hf. apply lookup_alter_is_Some.
    apply elem_of_app in Hf as [Hf|Hf]; [by apply Hdone|].
    by apply list_elem_of_singleton in Hf as ->.
  - intros x o Hx. rewrite List.filter_app. simpl.
    destruct (decide (pushKey fileItem = x)) as [<-|Hne].
    + rewrite lookup_alter_eq in Hx.
      destruct (folderMap b !! pushKey fileItem) as [o0|] eqn:Hk; [|done].
      injection Hx as <-. cbn [pushFile o_allFiles].
      rewrite bool_decide_eq_true_2 by done. by rewrite (Hfiles _ o0 Hk).
    + rewrite lookup_alter_ne in Hx by done.
      rewrite bool_decide_eq_false_2 by done. rewrite app_nil_r. by apply Hfiles.
Qed.

Lemma filesExact_addFile done b fileItem :
  filesExact done b -> filesExact (done ++ [fileItem]) (addFile b fileItem).
Proof.
  intros Hb. rewrite addFile_eq.
  destruct (folderSegments (fi_path fileItem)) as [|s rest] eqn:Hsegs.
  - assert (Hpk : pushKey fileItem = []) by (unfold pushKey; by rewrite Hsegs).
    rewrite <- Hpk. apply filesExact_pushFileAt; [by apply filesExact_getRootFolder|].
    rewrite Hpk. apply getRootFolder_lookup.
  - assert (Hpk : pushKey fileItem = fold_left nextPath (s :: rest) [])
      by (unfold pushKey; by rewrite Hsegs).
    cbv zeta. rewrite <- Hpk.
    apply filesExact_pushFileAt; [by apply filesExact_walkBuilder|].
    rewrite Hpk. by apply walkBuilder_last.
Qed.

Lemma filesExact_fold items : forall done b,
  filesExact done b -> filesExact (done ++ items) (fold_left addFile items b).
Proof.
  induction items as [|f items IH]; intros done b Hb; simpl.
  - by rewrite app_nil_r.
  - replace (done ++ f :: items) with ((done ++ [f]) ++ items)
      by (by rewrite <- app_assoc).
    by apply IH, filesExact_addFile.
Qed.

(** Roots and children, by membership. *)
Lemma roots_iff b r :
  StoreInv b -> rootIsFlat (folderMap b) ->
  (r ∈ rootFolders b) <-> is_Some (folderMap b !! r) /\ SLASH ∉ r.
Proof.
  intros Hinv Hflat. split; [apply (si_root _ Hinv)|].
  intros [Hr Hs]. destruct (si_attached _ Hinv r Hr) as [?|(o & Ho & Hc)]; [done|].
  rewrite dirname_noslash in Ho by done. rewrite (Hflat o Ho) in Hc.
  by apply elem_of_nil in Hc.
Qed.

Lemma children_iff b k o c :
  StoreInv b -> folderMap b !! k = Some o ->
  (c ∈ o_children o) <->
  is_Some (folderMap b !! c) /\ (c ∉ rootFolders b) /\ dirname c = k.
Proof.
  intros Hinv Hk. split.
  - intros Hc. destruct (si_child _ Hinv k o c Hk Hc) as (H1 & _ & H2).
    split; [done|]. split; [|done]. intros Hr.
    by apply (si_root_not_child _ Hinv c k o Hr Hk).
  - intros (Hc & Hr & Hd). destruct (si_attached _ Hinv c Hc) as [?|(o' & Ho' & Hc')];
      [done|]. rewrite Hd in Ho'. congruence.
Qed.

Lemma filesExact_empty : filesExact [] (mkBuilder ∅ []).
Proof.
  split.
  - intros f Hf. by apply elem_of_nil in Hf.
  - intros k o Hk. cbn [folderMap] in Hk. by rewrite lookup_empty in Hk.
Qed.

(** Two orders of one batch of relative paths build the same store, up to
    the order within the lists. *)
Lemma buildStore_Permutation toLowerCase files files' :
  Forall (fun file => relativePath (descriptorPath file)) files ->
  Permutation files files' ->
  StoreReorder (folderMap (buildStore toLowerCase files))
    (folderMap (buildStore toLowerCase files')) /\
  Permutation (rootFolders (buildStore toLowerCase files'))
    (rootFolders (buildStore toLowerCase files)).
Proof.
  intros Hrel Hperm.
  assert (Hrel' : Forall (fun file => relativePath (descriptorPath file)) files').
  { by rewrite <- Hperm. }
  assert (Hfacts : forall fs,
            Forall (fun file => relativePath (descriptorPath file)) fs ->
            rootIsFlat (folderMap (buildStore toLowerCase fs)) /\
            namedByKey (folderMap (buildStore toLowerCase fs)) /\
            filesExact (map (toFileItem toLowerCase) fs) (buildStore toLowerCase fs)).
  { intros fs Hfs.
    assert (Hitems : Forall (fun f => relativePath (fi_path f))
                       (map (toFileItem toLowerCase) fs)).
    { apply Forall_forall. intros f Hf.
      apply list_elem_of_fmap in Hf as (file & -> & Hfile).
      rewrite Forall_forall in Hfs. by apply Hfs. }
    unfold buildStore. split_and!.
    - apply rootIsFlat_fold; [|done]. intros o Ho. cbn [folderMap] in Ho.
      by rewrite lookup_empty in Ho.
    - apply namedByKey_fold; [|done]. intros k o Hk. cbn [folderMap] in Hk.
      by rewrite lookup_empty in Hk.
    - apply (filesExact_fold _ [] _ filesExact_empty). }
  destruct (Hfacts files Hrel) as (Hflat1 & Hnamed1 & [_ Hfiles1]).
  destruct (Hfacts files' Hrel') as (Hflat2 & Hnamed2 & [_ Hfiles2]).
  pose proof (StoreInv_buildStore toLowerCase files) as Hinv1.
  pose proof (StoreInv_buildStore toLowerCase files') as Hinv2.
  pose proof (videosOfFiles_buildStore toLowerCase files) as Hvid1.
  pose proof (videosOfFiles_buildStore toLowerCase files') as Hvid2.
  assert (Hdom : forall k,
            is_Some (folderMap (buildStore toLowerCase files) !! k) <->
            is_Some (folderMap (buildStore toLowerCase files') !! k)).
  { intros k. rewrite <- !elem_of_dom. unfold buildStore.
    rewrite (dom_fold_Permutation (map (toFileItem toLowerCase) files)
               (map (toFileItem toLowerCase) files')); [done|].
    by apply Permutation_map. }
  set (b1 := buildStore toLowerCase files) in *.
  set (b2 := buildStore toLowerCase files') in *.
  assert (Hroots : Permutation (rootFolders b2) (rootFolders b1)).
  { apply NoDup_Permutation; [apply (si_nodup_roots _ Hinv2)|apply (si_nodup_roots _ Hinv1)|].
    intros r. rewrite !roots_iff by done. by rewrite Hdom. }
  split; [|done].
  intros k. destruct (folderMap b1 !! k) as [o1|] eqn:H1.
  - destruct (proj1 (Hdom k)) as [o2 H2]; [by rewrite H1|]. rewrite H2.
    constructor. unfold sameUpToOrder.
    destruct (Hnamed1 k o1 H1) as [Hn1 He1]. destruct (Hnamed2 k o2 H2) as [Hn2 He2].
    split_and!.
    + congruence.
    + by rewrite (si_path _ Hinv1 k o1 H1), (si_path _ Hinv2 k o2 H2).
    + congruence.
    + apply NoDup_Permutation;
        [apply (si_nodup_children _ Hinv2 k o2 H2)
        |apply (si_nodup_children _ Hinv1 k o1 H1)|].
      intros c. rewrite (children_iff b1 k o1 c Hinv1 H1).
      rewrite (children_iff b2 k o2 c Hinv2 H2). rewrite Hdom.
      by rewrite Hroots.
    + rewrite (Hvid1 k o1 H1), (Hvid2 k o2 H2).
      apply Permutation_map, Permutation_List_filter.
      rewrite (Hfiles1 k o1 H1), (Hfiles2 k o2 H2).
      apply Permutation_List_filter. symmetry. by apply Permutation_map.
    + rewrite (Hfiles1 k o1 H1), (Hfiles2 k o2 H2).
      apply Permutation_List_filter. symmetry. by apply Permutation_map.
  - destruct (folderMap b2 !! k) as [o2|] eqn:H2; [|constructor].
    destruct (proj2 (Hdom k)) as [o1 Ho1]; [by rewrite H2|]. congruence.
Qed.

(** ** The sorting pass, exactly *)

Section SortPassExact.
Variable localeCompare : list N -> list N -> Z.
Hypothesis Hlc : Consistent localeCompare.
Variable m0 : gmap (list N) FolderObj.

Lemma nameAt_PassInv m x : PassInv localeCompare m0 m -> nameAt m x = nameAt m0 x.
Proof.
  intros Hm. specialize (Hm x). unfold nameAt.
  destruct (m0 !! x) as [o|]; [|by rewrite Hm].
  destruct Hm as [-> | ->]; [done|]. by rewrite sortOwnLists_eq.
Qed.

Lemma sortOwnLists_ext m m' o :
  (forall x, nameAt m x = nameAt m' x) ->
  sortOwnLists localeCompare m o = sortOwnLists localeCompare m' o.
Proof.
  intros Hn. rewrite !sortOwnLists_eq. f_equal. unfold sortFilesByNumber.
  apply arraySort_ext. intros a b _ _. unfold compareByNumber. by rewrite !Hn.
Qed.

Lemma sortOwnLists_idem m o :
  sortOwnLists localeCompare m (sortOwnLists localeCompare m o) =
  sortOwnLists localeCompare m o.
Proof.
  rewrite !sortOwnLists_eq. cbn [o_name o_path o_children o_videos o_allFiles o_isExpanded].
  unfold sortFilesByNumber. f_equal;
    apply arraySort_id, arraySort_sorted; by apply compareByNumber_Consistent.
Qed.

Lemma PassInv_sorted m k ok :
  PassInv localeCompare m0 m -> m !! k = Some ok ->
  PassInv localeCompare m0 (<[ k := sortOwnLists localeCompare m ok ]> m) /\
  Done localeCompare m0 (<[ k := sortOwnLists localeCompare m ok ]> m) k /\
  (forall x, Done localeCompare m0 m x ->
     Done localeCompare m0 (<[ k := sortOwnLists localeCompare m ok ]> m) x) /\
  (exists o, m0 !! k = Some o /\
     Permutation (o_children (sortOwnLists localeCompare m ok)) (o_children o)).
Proof.
  intros Hm Hk.
  assert (Hnames : forall x, nameAt m x = nameAt m0 x) by (intros; by apply nameAt_PassInv).
  pose proof (Hm k) as Hmk. destruct (m0 !! k) as [o|] eqn:H0; [|congruence].
  assert (Hnew : sortOwnLists localeCompare m ok = sortOwnLists localeCompare m0 o).
  { rewrite (sortOwnLists_ext m m0) by done.
    destruct Hmk as [Hmk|Hmk]; rewrite Hk in Hmk; injection Hmk as ->; [done|].
    apply sortOwnLists_idem. }
  split_and!.
  - intros x. destruct (decide (k = x)) as [<-|Hne].
    + rewrite H0, lookup_insert_eq. right. by rewrite Hnew.
    + rewrite lookup_insert_ne by done. apply Hm.
  - exists o. split; [done|]. by rewrite lookup_insert_eq, Hnew.
  - intros x (ox & Hx0 & Hx). exists ox. split; [done|].
    destruct (decide (k = x)) as [<-|Hne].
    + rewrite lookup_insert_eq, Hnew. congruence.
    + by rewrite lookup_insert_ne.
  - exists o. split; [done|]. rewrite Hnew.
    by destruct (sortOwnLists_sameUpToOrder localeCompare m0 o) as (_ & _ & _ & Hp & _).
Qed.

(** What one call establishes, a [forEach] of such calls establishes for
    every reference of the list. *)
Lemma passStep_foldlM run refs :
  passStep localeCompare m0 run ->
  forall m m',
    PassInv localeCompare m0 m -> foldlM run m refs = Some m' ->
    PassInv localeCompare m0 m' /\
    (forall x, Done localeCompare m0 m x -> Done localeCompare m0 m' x) /\
    (forall r x, r ∈ refs -> rtc (childOf m0) r x -> Done localeCompare m0 m' x).
Proof.
  intros Hrun. induction refs as [|r refs IH]; intros m m' Hm Hfold; simpl in Hfold.
  - injection Hfold as <-. split_and!; [done|done|].
    intros r x Hr. by apply elem_of_nil in Hr.
  - destruct (run m r) as [m1|] eqn:Hr1; [|done].
    destruct (Hrun m r m1 Hm Hr1) as (Hm1 & Hmono1 & Hdesc1).
    destruct (IH m1 m' Hm1 Hfold) as (Hm' & Hmono' & Hdesc').
    split_and!; [done|by auto|].
    intros r' x Hr' Hx. apply elem_of_cons in Hr' as [->|Hr']; [|by eauto].
    by apply Hmono', Hdesc1.
Qed.

Lemma passStep_sortFolderContents fuel :
  passStep localeCompare m0 (sortFolderContents localeCompare fuel).
Proof.
  induction fuel as [|fuel IH]; intros m k m' Hm Hrun; [done|].
  cbn [sortFolderContents] in Hrun. destruct (m !! k) as [ok|] eqn:Hk; [|done].
  destruct (PassInv_sorted m k ok Hm Hk) as (Hm1 & Hdone1 & Hmono1 & o & H0 & Hperm).
  destruct (passStep_foldlM _ _ IH _ _ Hm1 Hrun) as (Hm' & Hmono' & Hdesc').
  split_and!; [done|by auto|].
  intros x Hx. apply rtc_inv in Hx as [<-|(c & (o' & Ho' & Hc) & Hcx)]; [by auto|].
  assert (o' = o) as -> by congruence.
  apply (Hdesc' c); [by rewrite Hperm|done].
Qed.

Lemma PassInv_refl : PassInv localeCompare m0 m0.
Proof. intros k. destruct (m0 !! k); auto. Qed.

Variable roots : list (list N).
Hypothesis Hinv : StoreInv (mkBuilder m0 roots).

(** Every object of the store hangs below a root. *)
Lemma reachable_from_roots n : forall k,
  (length k <= n)%nat -> is_Some (m0 !! k) ->
  exists r, r ∈ roots /\ rtc (childOf m0) r k.
Proof.
  induction n as [|n IH]; intros k Hlen Hk;
    (destruct (si_attached _ Hinv k Hk) as [Hr|(o & Ho & Hc)];
     [by exists k|]);
    destruct (si_child _ Hinv _ o k Ho Hc) as (_ & Hlt & _); cbn in Hlt; [lia|].
  destruct (IH (dirname k)) as (r & Hr & Hrk); [lia|by eauto|].
  exists r. split; [done|]. eapply rtc_r; [exact Hrk|]. by exists o.
Qed.

(** The pass sorts the lists of every object, and changes nothing else. *)
Lemma sort_pass_sortAll fuel m' :
  foldlM (sortFolderContents localeCompare fuel) m0 roots = Some m' ->
  m' = sortAll localeCompare m0.
Proof.
  intros Hrun.
  destruct (passStep_foldlM _ _ (passStep_sortFolderContents fuel) _ _ PassInv_refl Hrun)
    as (Hm' & _ & Hdesc).
  apply map_eq. intros k. unfold sortAll. rewrite lookup_fmap.
  specialize (Hm' k). destruct (m0 !! k) as [o|] eqn:H0; [|done].
  destruct (reachable_from_roots (length k) k (Nat.le_refl _)) as (r & Hr & Hrk);
    [by rewrite H0|].
  destruct (Hdesc r k Hr Hrk) as (o' & Ho' & ->). simpl. congruence.
Qed.

End SortPassExact.

(** ** Independence of the input order *)

Lemma arraySort_Permutation_eq {A : Type} (cmp : A -> A -> Z) (l1 l2 : list A) :
  Consistent cmp ->
  (forall a b, In a l1 -> In b l1 -> cmp a b = 0 -> a = b) ->
  Permutation l2 l1 -> arraySort cmp l2 = arraySort cmp l1.
Proof.
  intros Hc Htie Hp. symmetry. apply (sorted_Permutation_eq cmp Hc).
  - intros a b Ha Hb. apply Htie; eapply Permutation_in; try apply arraySort_Permutation;
      done.
  - by apply arraySort_sorted.
  - by apply arraySort_sorted.
  - rewrite !arraySort_Permutation. by symmetry.
Qed.

Lemma toFolderNode_root fuel m k t :
  toFolderNode fuel m k = Some t -> exists o, m !! k = Some o /\ shows o t.
Proof.
  destruct fuel as [|fuel]; [done|]. cbn [toFolderNode].
  destruct (m !! k) as [o|]; [|done].
  destruct (mapM (toFolderNode fuel m) (o_children o)); [|done].
  intros [= <-]. exists o. by repeat split.
Qed.

Lemma folderNodes_self t : In t (folderNodes t).
Proof. destruct t. by left. Qed.

Lemma folderNodes_children T : forall tp t,
  In tp (folderNodes T) -> In t (children tp) -> In t (folderNodes T).
Proof.
  induction T as [n p ch vs af ex IH] using FolderNode_deep_ind. intros tp t Htp Ht.
  cbn [folderNodes children] in *. destruct Htp as [<-|Htp].
  - right. apply in_flat_map. exists t. split; [done|apply folderNodes_self].
  - right. apply in_flat_map in Htp as (c & Hc & Htp). apply in_flat_map.
    exists c. split; [done|]. rewrite List.Forall_forall in IH. by apply (IH c Hc tp t).
Qed.

Section NodeOfKey.
Variable m : gmap (list N) FolderObj.
Variable roots : list (list N).
Hypothesis Hinv : StoreInv (mkBuilder m roots).
Variable forest : list FolderNode.
Hypothesis Hforest :
  Forall2 (fun r t => toFolderNode (S (size m)) m r = Some t) roots forest.

(** Every object of the store is shown by a folder of the forest. *)
Lemma node_of_key n : forall k,
  (length k <= n)%nat -> is_Some (m !! k) ->
  exists t, toFolderNode (S (size m)) m k = Some t /\ In t (forestNodes forest).
Proof.
  induction n as [|n IH]; intros k Hlen Hk;
    (destruct (si_attached _ Hinv k Hk) as [Hr|(o & Ho & Hc)];
     [apply list_elem_of_lookup in Hr as [i Hi];
      destruct (Forall2_lookup_l _ _ _ _ _ Hforest Hi) as (t & Hti & Ht);
      exists t; split; [done|];
      apply in_flat_map; exists t; split;
        [by eapply list_elem_of_In, list_elem_of_lookup_2|apply folderNodes_self]|]);
    destruct (si_child _ Hinv _ o k Ho Hc) as (_ & Hlt & _); cbn in Hlt; [lia|].
  cbn [folderMap] in Ho.
  destruct (IH (dirname k)) as (tp & Htp & Hin); [lia|by eauto|].
  destruct (toFolderNode_children _ m _ tp Htp) as (o' & Ho' & Hch).
  assert (o' = o) as -> by congruence.
  apply list_elem_of_lookup in Hc as [i Hi].
  destruct (Forall2_lookup_l _ _ _ _ _ Hch Hi) as (t & Hti & Ht).
  exists t. split; [done|].
  unfold forestNodes in *. apply in_flat_map in Hin as (T & HT & Hin).
  apply in_flat_map. exists T. split; [done|].
  apply (folderNodes_children T tp t Hin).
  by eapply list_elem_of_In, list_elem_of_lookup_2.
Qed.

(** Ties among references are ties among the folders they unfold to. *)
Lemma tieFree_refs localeCompare refs trees :
  Forall2 (fun r t => toFolderNode (S (size m)) m r = Some t) refs trees ->
  tieFree localeCompare name trees ->
  tieFree localeCompare (nameAt m) refs.
Proof.
  intros Hf Htie a b Ha Hb Hab.
  apply list_elem_of_In, list_elem_of_lookup in Ha as [i Hi].
  apply list_elem_of_In, list_elem_of_lookup in Hb as [j Hj].
  destruct (Forall2_lookup_l _ _ _ _ _ Hf Hi) as (ta & Hta & Ha).
  destruct (Forall2_lookup_l _ _ _ _ _ Hf Hj) as (tb & Htb & Hb).
  destruct (toFolderNode_root _ _ _ _ Ha) as (oa & Hoa & Hna & Hpa & _).
  destruct (toFolderNode_root _ _ _ _ Hb) as (ob & Hob & Hnb & Hpb & _).
  assert (ta = tb) as Heq.
  { apply Htie.
    - by eapply list_elem_of_In, list_elem_of_lookup_2.
    - by eapply list_elem_of_In, list_elem_of_lookup_2.
    - unfold compareByNumber in *. unfold nameAt in Hab.
      rewrite Hoa, Hob in Hab. by rewrite Hna, Hnb. }
  rewrite <- (si_path _ Hinv a oa Hoa), <- (si_path _ Hinv b ob Hob).
  rewrite <- Hpa, <- Hpb. by rewrite Heq.
Qed.

Lemma tieFree_store localeCompare k o :
  forestTieFree localeCompare forest -> m !! k = Some o ->
  tieFree localeCompare (nameAt m) (o_children o) /\
  tieFree localeCompare v_name (o_videos o) /\
  tieFree localeCompare fi_name (o_allFiles o).
Proof.
  intros [_ Htie] Hk.
  destruct (node_of_key (length k) k (Nat.le_refl _)) as (t & Ht & Hin); [by eauto|].
  destruct (Htie t Hin) as (Hc & Hv & Hf).
  destruct (toFolderNode_children _ m _ t Ht) as (o' & Ho' & Hch).
  assert (o' = o) as -> by congruence.
  destruct (toFolderNode_root _ _ _ _ Ht) as (o' & Ho'' & _ & _ & Hvs & Hfs & _).
  assert (o' = o) as -> by congruence.
  split_and!.
  - by apply (tieFree_refs localeCompare _ (children t)).
  - by rewrite <- Hvs.
  - rewrite Hfs in Hf. exact Hf.
Qed.

End NodeOfKey.

Lemma tieFree_Permutation localeCompare {A : Type} (nameOf nameOf' : A -> list N) l l' :
  (forall a, nameOf' a = nameOf a) -> Permutation l' l ->
  tieFree localeCompare nameOf l -> tieFree localeCompare nameOf' l'.
Proof.
  intros Hn Hp Htie a b Ha Hb Hab. apply Htie.
  - by eapply Permutation_in.
  - by eapply Permutation_in.
  - unfold compareByNumber in *. by rewrite <- !Hn.
Qed.

Lemma nameAt_sortAll localeCompare m x :
  nameAt (sortAll localeCompare m) x = nameAt m x.
Proof.
  unfold nameAt, sortAll. rewrite lookup_fmap. destruct (m !! x); [|done].
  cbn [fmap option_fmap option_map]. by rewrite sortOwnLists_eq.
Qed.

Lemma nameAt_reorder m m' x : StoreReorder m m' -> nameAt m' x = nameAt m x.
Proof.
  intros Hre. specialize (Hre x). unfold nameAt.
  destruct (m !! x), (m' !! x); inversion Hre as [? ? Ho|]; subst; [|done].
  by destruct Ho as [-> _].
Qed.

(** C6 (as the code has it).  For a batch of relative paths and a
    consistent [localeCompare], if no two different entries of the same
    sibling list of the built forest tie under the comparator, then every
    permutation of the batch builds the same forest.  Entries that tie keep
    their input order, so without that condition the forest can depend on
    the order of the batch. *)
Theorem build_independent_of_input_order toLowerCase localeCompare
    (files files' : list File) (forest : list FolderNode) :
  Consistent localeCompare ->
  Forall (fun file => relativePath (descriptorPath file)) files ->
  Permutation files files' ->
  buildCompleteFolderTree toLowerCase localeCompare files = Some forest ->
  forestTieFree localeCompare forest ->
  buildCompleteFolderTree toLowerCase localeCompare files' = Some forest.
Proof.
  intros Hlc Hrel Hperm Hbuild Htie.
  destruct (buildStore_Permutation toLowerCase files files' Hrel Hperm) as [Hre Hroots].
  pose proof (StoreInv_buildStore toLowerCase files) as Hinv1.
  pose proof (StoreInv_buildStore toLowerCase files') as Hinv2.
  destruct (sortedStore_total localeCompare toLowerCase files) as (m1 & Hrun1 & Hs1 & _).
  destruct (sortedStore_total localeCompare toLowerCase files') as (m2 & Hrun2 & Hs2 & _).
  set (b1 := buildStore toLowerCase files) in *.
  set (b2 := buildStore toLowerCase files') in *.
  destruct b1 as [s1 r1] eqn:Hb1. destruct b2 as [s2 r2] eqn:Hb2.
  cbn [folderMap rootFolders] in *.
  apply (sort_pass_sortAll localeCompare Hlc s1 r1 Hinv1) in Hrun1. subst m1.
  apply (sort_pass_sortAll localeCompare Hlc s2 r2 Hinv2) in Hrun2. subst m2.
  destruct (buildCompleteFolderTree_total localeCompare toLowerCase files)
    as (m' & roots' & forest0 & Hsorted & _ & _ & Hinv' & Hbuild0 & Hforest).
  assert (forest0 = forest) as -> by congruence.
  rewrite Hs1 in Hsorted. injection Hsorted as <- <-.
  (* the sibling lists of the first store have no ties *)
  assert (Hties : forall k o, s1 !! k = Some o ->
            tieFree localeCompare (nameAt s1) (o_children o) /\
            tieFree localeCompare v_name (o_videos o) /\
            tieFree localeCompare fi_name (o_allFiles o)).
  { intros k o Hk.
    destruct (tieFree_store _ _ Hinv' forest Hforest localeCompare k
                (sortOwnLists localeCompare s1 o) Htie) as (Hc & Hv & Hf).
    { unfold sortAll. by rewrite lookup_fmap, Hk. }
    destruct (sortOwnLists_sameUpToOrder localeCompare s1 o) as (_ & _ & _ & Pc & Pv & Pf).
    split_and!.
    - eapply tieFree_Permutation; [|symmetry; exact Pc|exact Hc].
      intros a. symmetry. apply nameAt_sortAll.
    - eapply tieFree_Permutation; [done|symmetry; exact Pv|exact Hv].
    - eapply tieFree_Permutation; [done|symmetry; exact Pf|exact Hf]. }
  assert (Htie_roots : tieFree localeCompare (nameAt (sortAll localeCompare s1)) r1).
  { eapply tieFree_Permutation;
      [done| |exact (tieFree_refs _ _ Hinv' localeCompare _ _ Hforest (proj1 Htie))].
    symmetry. apply arraySort_Permutation. }
  (* hence the sorted stores agree *)
  assert (Hnames : forall x, nameAt s2 x = nameAt s1 x).
  { intros x. by apply nameAt_reorder. }
  assert (Hstores : sortAll localeCompare s2 = sortAll localeCompare s1).
  { apply map_eq. intros k. unfold sortAll. rewrite !lookup_fmap.
    specialize (Hre k). destruct (s1 !! k) as [o1|] eqn:H1, (s2 !! k) as [o2|] eqn:H2;
      inversion Hre as [? ? Ho|]; subst; [|done].
    destruct Ho as (Hn & Hp & He & Pc & Pv & Pf).
    destruct (Hties k o1 H1) as (Tc & Tv & Tf).
    simpl. f_equal.
    rewrite (sortOwnLists_ext localeCompare s2 s1) by done.
    rewrite !sortOwnLists_eq. unfold sortFilesByNumber.
    rewrite Hn, Hp, He. f_equal.
    - apply arraySort_Permutation_eq; [by apply compareByNumber_Consistent|done|done].
    - apply arraySort_Permutation_eq; [by apply compareByNumber_Consistent|done|done].
    - apply arraySort_Permutation_eq; [by apply compareByNumber_Consistent|done|done]. }
  unfold buildCompleteFolderTree in *. rewrite Hs2. rewrite Hs1 in Hbuild.
  cbn [folderMap rootFolders] in *. rewrite Hstores.
  assert (Hr : sortFilesByNumber localeCompare (nameAt (sortAll localeCompare s1)) r2 =
               sortFilesByNumber localeCompare (nameAt (sortAll localeCompare s1)) r1).
  { apply arraySort_Permutation_eq; [by apply compareByNumber_Consistent|done|done]. }
  by rewrite Hr.
Qed.

Ltac solve_tieFree :=
  let a := fresh "a" in
  let b := fresh "b" in
  let Ha := fresh "Ha" in
  let Hb := fresh "Hb" in
  let Hab := fresh "Hab" in
  intros a b Ha Hb Hab; simpl in Ha, Hb;
  repeat match goal with
         | H : _ \/ _ |- _ => destruct H
         | H : False |- _ => destruct H
         end;
  subst; first [reflexivity | vm_compute in Hab; discriminate].

Lemma build_independent_of_input_order_witness :
  exists forest,
    buildCompleteFolderTree JSString.asciiLower JSString.codeUnitCompare sampleBatch
      = Some forest /\
    buildCompleteFolderTree JSString.asciiLower JSString.codeUnitCompare
      (rev sampleBatch) = Some forest.
Proof.
  eexists. split; [vm_compute; reflexivity|].
  eapply (build_independent_of_input_order JSString.asciiLower JSString.codeUnitCompare
            sampleBatch (rev sampleBatch)).
  - exact codeUnitCompare_Consistent.
  - repeat constructor; discriminate.
  - apply Permutation_rev.
  - vm_compute. reflexivity.
  - split; [solve_tieFree|].
    intros folder Hin. simpl in Hin.
    repeat match goal with
           | H : _ \/ _ |- _ => destruct H
           | H : False |- _ => destruct H
           end; subst; cbn [children videos allFiles orEmpty];
      (split; [solve_tieFree|split; solve_tieFree]).
Defined.

(** C6 as stated fails: two files of one folder with the same number tie,
    the stable sort keeps them in input order, and the two orders of the
    batch give different forests. *)
Lemma build_order_counterexample :
  Permutation
    [sampleFile "A/a1.txt" "a1.txt"; sampleFile "A/b1.txt" "b1.txt"]
    [sampleFile "A/b1.txt" "b1.txt"; sampleFile "A/a1.txt" "a1.txt"] /\
  buildCompleteFolderTree JSString.asciiLower JSString.codeUnitCompare
    [sampleFile "A/a1.txt" "a1.txt"; sampleFile "A/b1.txt" "b1.txt"] <>
  buildCompleteFolderTree JSString.asciiLower JSString.codeUnitCompare
    [sampleFile "A/b1.txt" "b1.txt"; sampleFile "A/a1.txt" "a1.txt"].
Proof. split; [apply perm_swap|]. vm_compute. discriminate. Qed.

(** ** findIndex *)

Lemma findIndex_from_range {A : Type} (p : A -> bool) (l : list A) : forall i,
  findIndex_from p l i = -1 \/
  i <= findIndex_from p l i < i + Z.of_nat (length l).
Proof.
  induction l as [|x l IH]; intros i; simpl; [by left|].
  destruct (p x); [right; lia|].
  destruct (IH (i + 1)) as [->|H]; [by left|right; lia].
Qed.

Lemma findIndex_from_none {A : Type} (p : A -> bool) (l : list A) : forall i,
  0 <= i -> (findIndex_from p l i = -1 <-> Forall (fun x => p x = false) l).
Proof.
  induction l as [|x l IH]; intros i Hi; simpl; [by split|].
  destruct (p x) eqn:Hx.
  - split; [lia|]. intros H. apply Forall_cons in H as [H _]. congruence.
  - rewrite IH by lia. split; [by constructor|]. intros H. by apply Forall_cons in H as [_ H].
Qed.

Lemma findIndex_from_found {A : Type} (p : A -> bool) (l : list A) : forall i r,
  0 <= i -> findIndex_from p l i = r -> r <> -1 ->
  exists x, l !! Z.to_nat (r - i) = Some x /\ p x = true /\
    Forall (fun y => p y = false) (take (Z.to_nat (r - i)) l).
Proof.
  induction l as [|x l IH]; intros i r Hi Hr Hne; simpl in Hr; [lia|].
  destruct (p x) eqn:Hx.
  - subst r. replace (i - i) with 0 by lia. exists x. by repeat split.
  - destruct (findIndex_from_range p l (i + 1)) as [H|H]; [lia|].
    destruct (IH (i + 1) r ltac:(lia) Hr Hne) as (y & Hy & Hpy & Hall).
    exists y. replace (Z.to_nat (r - i)) with (S (Z.to_nat (r - (i + 1)))) by lia.
    simpl. split; [done|]. split; [done|]. by constructor.
Qed.

Lemma findIndex_from_app_new {A : Type} (p : A -> bool) (l : list A) (x : A) : forall i,
  Forall (fun y => p y = false) l -> p x = true ->
  findIndex_from p (l ++ [x]) i = i + Z.of_nat (length l).
Proof.
  induction l as [|y l IH]; intros i Hall Hx; simpl.
  - rewrite Hx. lia.
  - apply Forall_cons in Hall as [-> Hall]. rewrite IH by done. lia.
Qed.

Lemma findIndex_from_first {A : Type} (p : A -> bool) (l : list A) (n : nat) x : forall i,
  l !! n = Some x -> p x = true -> Forall (fun y => p y = false) (take n l) ->
  findIndex_from p l i = i + Z.of_nat n.
Proof.
  revert n. induction l as [|y l IH]; intros n i Hn Hx Hall; [by rewrite lookup_nil in Hn|].
  destruct n as [|n]; simpl in *.
  - injection Hn as ->. rewrite Hx. lia.
  - apply Forall_cons in Hall as [-> Hall]. rewrite (IH n) by done. lia.
Qed.

Lemma at_index_lookup {A : Type} (l : list A) (i : Z) :
  0 <= i -> at_index l i = l !! Z.to_nat i.
Proof. intros H. unfold at_index. by destruct (Z.ltb_spec i 0); [lia|]. Qed.

Lemma map_alter_same {A B : Type} (f : A -> B) (g : A -> A) (l : list A) : forall n,
  (forall x, f (g x) = f x) -> map f (alter g n l) = map f l.
Proof.
  induction l as [|x l IH]; intros [|n] Hf; try done.
  - cbn. by rewrite Hf.
  - cbn. f_equal. by apply IH.
Qed.

(** ** App.tsx *)

Lemma samePathAndName_spec video item :
  App.samePathAndName video item = true <->
  App.identity item = (v_path video, v_name video).
Proof.
  unfold App.samePathAndName, App.identity, JSString.eqb.
  rewrite andb_true_iff, !bool_decide_eq_true. split; [by intros [-> ->]|].
  by intros [= -> ->].
Qed.

Lemma wellFormed_handleVideoSelect newId video st :
  App.wellFormed st -> App.wellFormed (App.handleVideoSelect newId video st).
Proof.
  intros (Hrange & Hempty & Hcur & Hnd). unfold App.handleVideoSelect.
  destruct (Z.eqb_spec (findIndex (App.samePathAndName video) (App.playlist st)) (-1))
    as [Hnone|Hsome]; simpl.
  - apply findIndex_from_none in Hnone; [|lia].
    unfold App.wellFormed. cbn [App.currentIndex App.playlist App.currentVideo].
    rewrite length_app. simpl. split; [lia|]. split; [lia|]. split.
    + intros _. eexists _, video. rewrite at_index_lookup by lia.
      replace (Z.to_nat _) with (length (App.playlist st)) by lia.
      rewrite lookup_app_r, Nat.sub_diag by lia. by repeat split.
    + rewrite map_app. simpl. apply NoDup_app. split; [done|]. split; [|apply NoDup_singleton].
      intros x Hx Hx'. apply list_elem_of_singleton in Hx'. subst x.
      apply list_elem_of_fmap in Hx as (item & Hid & Hin).
      rewrite Forall_forall in Hnone. specialize (Hnone item Hin).
      assert (App.samePathAndName video item = true); [|congruence].
      apply samePathAndName_spec. by rewrite <- Hid.
  - destruct (findIndex_from_range (App.samePathAndName video) (App.playlist st) 0)
      as [H|H]; [done|].
    destruct (findIndex_from_found _ _ 0 _ ltac:(lia) eq_refl Hsome) as (item & Hitem & Hp & _).
    fold (findIndex (App.samePathAndName video) (App.playlist st)) in *.
    rewrite Z.sub_0_r in Hitem.
    unfold App.wellFormed. cbn [App.currentIndex App.playlist App.currentVideo].
    split; [lia|]. split; [lia|]. split; [|done].
    intros _. exists item, video. rewrite at_index_lookup by lia.
    apply samePathAndName_spec in Hp. injection Hp as Hp1 Hp2. by repeat split.
Qed.

Lemma wellFormed_handleVideoEnd st :
  App.wellFormed st -> exists st', App.handleVideoEnd st = Some st' /\ App.wellFormed st'.
Proof.
  intros (Hrange & Hempty & Hcur & Hnd). unfold App.handleVideoEnd.
  destruct (Z.ltb_spec (App.currentIndex st) (Z.of_nat (length (App.playlist st)) - 1));
    [|by eexists].
  rewrite at_index_lookup by lia.
  destruct (lookup_lt_is_Some_2 (App.playlist st) (Z.to_nat (App.currentIndex st + 1)))
    as [item Hitem]; [lia|].
  rewrite Hitem. eexists. split; [done|].
  unfold App.wellFormed. cbn [App.currentIndex App.playlist App.currentVideo].
  split; [lia|]. split; [lia|]. split; [|done].
  intros _. exists item, (item_video item). rewrite at_index_lookup by lia. by repeat split.
Qed.

Lemma wellFormed_handleTimeUpdate currentTime st :
  App.wellFormed st -> App.wellFormed (App.handleTimeUpdate currentTime st).
Proof.
  intros (Hrange & Hempty & Hcur & Hnd). unfold App.handleTimeUpdate.
  destruct (Z.leb_spec 0 (App.currentIndex st)); simpl; [|done].
  destruct (Z.ltb_spec (App.currentIndex st) (Z.of_nat (length (App.playlist st))));
    simpl; [|done].
  unfold App.wellFormed. cbn [App.currentIndex App.playlist App.currentVideo].
  rewrite length_alter. split; [lia|]. split; [lia|]. split.
  - intros _. destruct (Hcur ltac:(lia)) as (item & video & Hitem & Hv & Hp & Hn).
    rewrite at_index_lookup in Hitem by lia.
    exists (App.withPlayedTime currentTime item), video.
    rewrite at_index_lookup by lia. rewrite list_lookup_alter_eq, Hitem. simpl. by repeat split.
  - by rewrite map_alter_same.
Qed.

Lemma wellFormed_step st event :
  App.wellFormed st -> exists st', App.step st event = Some st' /\ App.wellFormed st'.
Proof.
  intros Hst. destruct event as [newId video| |currentTime]; simpl.
  - eexists. split; [done|]. by apply wellFormed_handleVideoSelect.
  - by apply wellFormed_handleVideoEnd.
  - eexists. split; [done|]. by apply wellFormed_handleTimeUpdate.
Qed.

Lemma wellFormed_initial : App.wellFormed App.initial.
Proof.
  unfold App.wellFormed, App.initial. simpl. split; [lia|]. split; [done|].
  split; [lia|constructor].
Qed.

(** X20.  Whatever calls the child components make, in whatever order, no
    handler of [App] throws, and afterwards the index is [-1] with an empty
    playlist and nothing playing, or it points at the playlist item that has
    the path and the name of the current video; no two items of the
    playlist have the same path and name. *)
Theorem app_state_stays_well_formed (events : list App.Event) :
  exists st, App.run events = Some st /\ App.wellFormed st.
Proof.
  unfold App.run. generalize wellFormed_initial. generalize App.initial as st.
  induction events as [|event events IH]; intros st Hst; simpl; [by eexists|].
  destruct (wellFormed_step st event Hst) as (st' & -> & Hst'). by apply IH.
Qed.

(** X21.  Selecting the video that was selected last changes nothing: it is
    found again, at the same index, whether the first call had found it or
    had appended it. *)
Theorem handleVideoSelect_again (newId newId' : list N) (video : VideoFile) (st : App.State) :
  App.handleVideoSelect newId' video (App.handleVideoSelect newId video st) =
  App.handleVideoSelect newId video st.
Proof.
  unfold App.handleVideoSelect at 2 3.
  destruct (Z.eqb_spec (findIndex (App.samePathAndName video) (App.playlist st)) (-1))
    as [Hnone|Hsome]; simpl.
  - apply findIndex_from_none in Hnone; [|lia].
    unfold App.handleVideoSelect. simpl. unfold findIndex.
    rewrite findIndex_from_app_new;
      [|done|by apply samePathAndName_spec].
    destruct (Z.eqb_spec (0 + Z.of_nat (length (App.playlist st))) (-1)); [lia|].
    simpl. f_equal. rewrite length_app. simpl. lia.
  - unfold App.handleVideoSelect. simpl.
    destruct (Z.eqb_spec (findIndex (App.samePathAndName video) (App.playlist st)) (-1));
      [done|reflexivity].
Qed.

(** X22.  [handleVideoEnd] walks the playlist forward one item at a time and
    stops at the last one: after [n] calls the index is the smaller of
    [currentIndex + n] and the last index, the playlist is as it was, and
    the video playing is the one at the index. *)
Theorem handleVideoEnd_repeated (n : nat) (st : App.State) :
  -1 <= App.currentIndex st <= Z.of_nat (length (App.playlist st)) - 1 ->
  exists st',
    foldlM App.step st (replicate n App.VideoEnd) = Some st' /\
    App.playlist st' = App.playlist st /\
    App.currentIndex st' =
      Z.min (App.currentIndex st + Z.of_nat n) (Z.of_nat (length (App.playlist st)) - 1) /\
    (App.currentIndex st' = App.currentIndex st -> st' = st) /\
    (App.currentIndex st' <> App.currentIndex st ->
     App.currentVideo st' = item_video <$> at_index (App.playlist st) (App.currentIndex st')).
Proof.
  revert st. induction n as [|n IH]; intros st Hrange; simpl.
  - exists st. split; [done|]. split; [done|]. split; [lia|]. split; [done|]. lia.
  - unfold App.handleVideoEnd.
    destruct (Z.ltb_spec (App.currentIndex st) (Z.of_nat (length (App.playlist st)) - 1))
      as [Hlt|Hge].
    + rewrite at_index_lookup by lia.
      destruct (lookup_lt_is_Some_2 (App.playlist st) (Z.to_nat (App.currentIndex st + 1)))
        as [item Hitem]; [lia|].
      rewrite Hitem.
      set (st1 := App.mkState (Some (item_video item)) (App.playlist st)
                    (App.currentIndex st + 1)).
      destruct (IH st1) as (st' & Hrun & Hpl & Hidx & Hsame & Hmoved); [simpl; lia|].
      exists st'. simpl in *. split; [done|]. split; [done|]. split; [lia|].
      split; [lia|]. intros _.
      destruct (decide (App.currentIndex st' = App.currentIndex st + 1)) as [Heq|Hne].
      * rewrite (Hsame Heq). simpl. rewrite at_index_lookup by lia. by rewrite Hitem.
      * by apply Hmoved.
    + destruct (IH st) as (st' & Hrun & Hpl & Hidx & Hsame & Hmoved); [lia|].
      exists st'. split; [done|]. split; [done|]. split; [lia|]. split; [done|]. done.
Qed.

(** X23.  [handleTimeUpdate] writes the played time of the current item and
    nothing else: ids, videos, flags, the length and order of the playlist,
    the index and the current video stay, every other item is untouched, and
    of two updates in a row only the second one is kept. *)
Theorem handleTimeUpdate_frame (t t' : spec_float) (st : App.State) :
  let st' := App.handleTimeUpdate t st in
  App.currentVideo st' = App.currentVideo st /\
  App.currentIndex st' = App.currentIndex st /\
  map item_id (App.playlist st') = map item_id (App.playlist st) /\
  map item_video (App.playlist st') = map item_video (App.playlist st) /\
  map item_isPlaying (App.playlist st') = map item_isPlaying (App.playlist st) /\
  (forall i, i <> App.currentIndex st ->
     at_index (App.playlist st') i = at_index (App.playlist st) i) /\
  (forall item, at_index (App.playlist st) (App.currentIndex st) = Some item ->
     at_index (App.playlist st') (App.currentIndex st) =
       Some (App.withPlayedTime t item)) /\
  App.handleTimeUpdate t' st' = App.handleTimeUpdate t' st.
Proof.
  intros st'. subst st'. unfold App.handleTimeUpdate.
  destruct (Z.leb_spec 0 (App.currentIndex st)) as [H0|H0]; simpl.
  2:{ destruct (Z.leb_spec 0 (App.currentIndex st)); [lia|]. simpl.
      repeat split; try done. intros item. unfold at_index.
      by destruct (Z.ltb_spec (App.currentIndex st) 0); [|lia]. }
  destruct (Z.ltb_spec (App.currentIndex st) (Z.of_nat (length (App.playlist st))))
    as [H1|H1]; simpl.
  2:{ destruct (Z.leb_spec 0 (App.currentIndex st)); [|lia].
      destruct (Z.ltb_spec (App.currentIndex st) (Z.of_nat (length (App.playlist st))));
        [lia|]. simpl. repeat split; try done.
      intros item. rewrite at_index_lookup by done. intros Hitem.
      apply lookup_lt_Some in Hitem. lia. }
  split; [done|]. split; [done|]. split; [by apply map_alter_same|].
  split; [by apply map_alter_same|]. split; [by apply map_alter_same|]. split; [|split].
  - intros i Hi. unfold at_index.
    destruct (Z.ltb_spec i 0) as [|Hi0]; [done|].
    apply list_lookup_alter_ne. lia.
  - intros item. rewrite !at_index_lookup by done. intros Hitem.
    by rewrite list_lookup_alter_eq, Hitem.
  - rewrite length_alter.
    destruct (Z.leb_spec 0 (App.currentIndex st)); [|lia].
    destruct (Z.ltb_spec (App.currentIndex st) (Z.of_nat (length (App.playlist st))));
      [|lia]. simpl. f_equal.
    rewrite list_alter_alter_eq. by apply list_alter_ext.
Qed.

(** ** The PlayList component *)

Lemma compareItems_Consistent localeCompare c :
  Consistent localeCompare -> Consistent (PlayList.compareItems localeCompare c).
Proof.
  intros [Hswap Htrans]. destruct c as [sb so]. split.
  - intros a b. unfold PlayList.compareItems. cbn [PlayList.sortBy PlayList.sortOrder].
    pose proof (Hswap (v_name (item_video a)) (v_name (item_video b))).
    destruct sb, so; lia.
  - intros a b x. unfold PlayList.compareItems. cbn [PlayList.sortBy PlayList.sortOrder].
    pose proof (Hswap (v_name (item_video a)) (v_name (item_video b))).
    pose proof (Hswap (v_name (item_video b)) (v_name (item_video x))).
    pose proof (Hswap (v_name (item_video a)) (v_name (item_video x))).
    pose proof (Htrans (v_name (item_video x)) (v_name (item_video b))
                  (v_name (item_video a))).
    pose proof (Htrans (v_name (item_video a)) (v_name (item_video b))
                  (v_name (item_video x))).
    destruct sb, so; lia.
Qed.

Lemma compareItems_le localeCompare c a b :
  PlayList.compareItems localeCompare c a b <= 0 <-> PlayList.inOrder localeCompare c a b.
Proof.
  destruct c as [[] []]; unfold PlayList.compareItems, PlayList.inOrder;
    cbn [PlayList.sortBy PlayList.sortOrder]; lia.
Qed.

(** X25.  [getSortedPlaylist] shows every item of the playlist once, in the
    order of the chosen key and direction (a missing duration counts as 0);
    items that tie keep the order they have in the playlist, in both
    directions. *)
Theorem getSortedPlaylist_order (localeCompare : list N -> list N -> Z)
    (c : PlayList.Controls) (playlist : list PlaylistItem) :
  Consistent localeCompare ->
  let sorted := PlayList.getSortedPlaylist localeCompare c playlist in
  Permutation sorted playlist /\
  (forall i j a b, (i < j)%nat -> sorted !! i = Some a -> sorted !! j = Some b ->
     PlayList.inOrder localeCompare c a b) /\
  (forall x,
     List.filter (fun y => PlayList.compareItems localeCompare c x y =? 0) sorted =
     List.filter (fun y => PlayList.compareItems localeCompare c x y =? 0) playlist).
Proof.
  intros Hlc sorted. pose proof (compareItems_Consistent localeCompare c Hlc) as Hok.
  split; [apply arraySort_Permutation|]. split.
  - intros i j a b Hij Hi Hj. apply compareItems_le.
    eapply (StronglySorted_lookup (cmpLe (PlayList.compareItems localeCompare c)));
      [by apply arraySort_sorted|exact Hij|exact Hi|exact Hj].
  - intros x. by apply arraySort_stable.
Qed.

Lemma getSortedPlaylist_order_witness :
  Consistent JSString.codeUnitCompare /\
  Permutation
    (PlayList.getSortedPlaylist JSString.codeUnitCompare
       (PlayList.mkControls PlayList.bySize PlayList.desc) samplePlaylist)
    samplePlaylist.
Proof.
  split; [exact codeUnitCompare_Consistent|].
  exact (proj1 (getSortedPlaylist_order JSString.codeUnitCompare
    (PlayList.mkControls PlayList.bySize PlayList.desc) samplePlaylist
    codeUnitCompare_Consistent)).
Defined.

Lemma StronglySorted_rev {A : Type} (R : A -> A -> Prop) (l : list A) :
  StronglySorted R l -> StronglySorted (fun a b => R b a) (rev l).
Proof.
  induction 1 as [|x l Hl IH Hx]; simpl; [constructor|].
  assert (Happ : forall l1 l2,
             StronglySorted (fun a b => R b a) l1 ->
             StronglySorted (fun a b => R b a) l2 ->
             (forall a b, In a l1 -> In b l2 -> R b a) ->
             StronglySorted (fun a b => R b a) (l1 ++ l2)).
  { intros l1 l2 H1. induction H1 as [|y l1 Hl1 IH1 Hy]; intros H2 Hc; simpl; [done|].
    constructor.
    - apply IH1; [done|]. intros a b Ha Hb. apply Hc; [by right|done].
    - apply Forall_app. split; [done|]. apply Forall_forall. intros b Hb.
      apply Hc; [by left|by apply list_elem_of_In]. }
  apply Happ; [done|repeat constructor|].
  intros a b Ha [<-|[]]. rewrite Forall_forall in Hx. apply Hx.
  apply list_elem_of_In. by apply in_rev.
Qed.

(** X26.  A click on the header of the active column turns the list round:
    when no two items tie on the key, the rows after [handleSort(sortBy)]
    are the rows before it in reverse. *)
Theorem handleSort_reverses_rows (localeCompare : list N -> list N -> Z)
    (c : PlayList.Controls) (playlist : list PlaylistItem) :
  Consistent localeCompare ->
  (forall a b, In a playlist -> In b playlist ->
     PlayList.compareItems localeCompare c a b = 0 -> a = b) ->
  PlayList.getSortedPlaylist localeCompare (PlayList.handleSort (PlayList.sortBy c) c) playlist =
  rev (PlayList.getSortedPlaylist localeCompare c playlist).
Proof.
  intros Hlc Htie. set (c' := PlayList.handleSort (PlayList.sortBy c) c).
  assert (Hneg : forall a b,
             PlayList.compareItems localeCompare c' a b =
             - PlayList.compareItems localeCompare c a b).
  { intros a b. unfold c', PlayList.handleSort.
    rewrite bool_decide_eq_true_2 by done.
    destruct c as [[] []]; unfold PlayList.compareItems;
      cbn [PlayList.sortBy PlayList.sortOrder]; lia. }
  pose proof (compareItems_Consistent localeCompare c Hlc) as Hok.
  pose proof (compareItems_Consistent localeCompare c' Hlc) as Hok'.
  unfold PlayList.getSortedPlaylist.
  apply (sorted_Permutation_eq (PlayList.compareItems localeCompare c') Hok').
  - intros a b Ha Hb Hab. apply Htie.
    + eapply Permutation_in; [apply arraySort_Permutation|done].
    + eapply Permutation_in; [apply arraySort_Permutation|done].
    + rewrite Hneg in Hab. lia.
  - by apply arraySort_sorted.
  - pose proof (StronglySorted_rev _ _ (arraySort_sorted _ Hok playlist)) as Hrev.
    clear -Hrev Hneg Hok. induction Hrev as [|x l Hl IH Hx]; constructor; [done|].
    eapply Forall_impl; [exact Hx|]. intros y Hy. unfold cmpLe in *. simpl in Hy.
    rewrite Hneg. pose proof (cmp_swap _ Hok x y). lia.
  - rewrite arraySort_Permutation, <- Permutation_rev. by rewrite arraySort_Permutation.
Qed.

Lemma originalIndex_at playlist (n : nat) item :
  NoDup (map item_id playlist) -> playlist !! n = Some item ->
  PlayList.originalIndex playlist item = Z.of_nat n.
Proof.
  intros Hnd Hn. unfold PlayList.originalIndex, findIndex.
  rewrite (findIndex_from_first _ playlist n item); [lia|done| |].
  - unfold JSString.eqb. by apply bool_decide_eq_true.
  - apply Forall_forall. intros y Hy. apply list_elem_of_lookup in Hy as [j Hj].
    apply lookup_take_Some in Hj as [Hj Hlt].
    unfold JSString.eqb. apply bool_decide_eq_false. intros Heq.
    assert (j = n); [|lia].
    eapply (NoDup_lookup _ j n (item_id item) Hnd).
    + by rewrite list_lookup_fmap, Hj, <- Heq.
    + by rewrite list_lookup_fmap, Hn.
Qed.

(** X27.  When the ids of the playlist are pairwise different, the index a
    row hands to [onVideoSelect] and [onRemoveVideo] is the index of its own
    item in the playlist, whatever the sort order of the rows, and the row
    shown as current is the row of [playlist[currentIndex]] and no other. *)
Theorem originalIndex_finds_the_row (localeCompare : list N -> list N -> Z)
    (c : PlayList.Controls) (playlist : list PlaylistItem) (currentIndex : Z) :
  NoDup (map item_id playlist) ->
  forall item, In item (PlayList.getSortedPlaylist localeCompare c playlist) ->
    at_index playlist (PlayList.originalIndex playlist item) = Some item /\
    (PlayList.originalIndex playlist item = currentIndex <->
     at_index playlist currentIndex = Some item).
Proof.
  intros Hnd item Hin.
  eapply Permutation_in in Hin; [|apply arraySort_Permutation].
  apply list_elem_of_In, list_elem_of_lookup in Hin as [n Hn].
  pose proof (originalIndex_at playlist n item Hnd Hn) as Hidx.
  assert (Hat : at_index playlist (PlayList.originalIndex playlist item) = Some item).
  { rewrite Hidx, at_index_lookup by lia. by rewrite Nat2Z.id. }
  split; [done|]. split; [by intros <-|].
  intros Hcur. unfold at_index in Hcur.
  destruct (Z.ltb_spec currentIndex 0); [done|].
  rewrite (originalIndex_at playlist _ item Hnd Hcur). lia.
Qed.

Lemma originalIndex_finds_the_row_witness :
  at_index samplePlaylist
    (PlayList.originalIndex samplePlaylist (sampleItem "3-0.75" "c.mp4" 10)) =
  Some (sampleItem "3-0.75" "c.mp4" 10).
Proof.
  refine (proj1 (originalIndex_finds_the_row JSString.codeUnitCompare
    (PlayList.mkControls PlayList.bySize PlayList.asc) samplePlaylist 0 _
    (sampleItem "3-0.75" "c.mp4" 10) _)).
  - vm_compute. repeat constructor; set_solver.
  - vm_compute. auto.
Defined.

Lemma handleSort_reverses_rows_witness :
  PlayList.getSortedPlaylist JSString.codeUnitCompare
    (PlayList.handleSort PlayList.bySize (PlayList.mkControls PlayList.bySize PlayList.asc))
    samplePlaylist =
  rev (PlayList.getSortedPlaylist JSString.codeUnitCompare
         (PlayList.mkControls PlayList.bySize PlayList.asc) samplePlaylist).
Proof.
  refine (handleSort_reverses_rows JSString.codeUnitCompare
    (PlayList.mkControls PlayList.bySize PlayList.asc) samplePlaylist
    codeUnitCompare_Consistent _).
  intros a b Ha Hb. simpl in Ha, Hb.
  destruct Ha as [<-|[<-|[<-|[]]]], Hb as [<-|[<-|[<-|[]]]]; vm_compute; congruence.
Defined.

Lemma handleVideoEnd_repeated_witness :
  exists st',
    foldlM App.step (App.mkState None samplePlaylist 0) (replicate 5 App.VideoEnd) = Some st' /\
    App.currentIndex st' = 2.
Proof.
  destruct (handleVideoEnd_repeated 5 (App.mkState None samplePlaylist 0))
    as (st' & Hrun & _ & Hidx & _); [simpl; lia|].
  exists st'. split; [exact Hrun|]. exact Hidx.
Defined.

(** ** isVideoByExtension *)

Lemma lastIndexOf_from_absent c s : forall i found,
  c ∉ s -> JSString.lastIndexOf_from c s i found = found.
Proof.
  induction s as [|x s IH]; intros i found Hc; simpl; [done|].
  apply not_elem_of_cons in Hc as [Hx Hs]. rewrite IH by done.
  destruct (N.eqb_spec x c); [congruence|done].
Qed.

Lemma lastIndexOf_from_last c stem rest : forall i found,
  c ∉ rest ->
  JSString.lastIndexOf_from c (stem ++ c :: rest) i found = i + Z.of_nat (length stem).
Proof.
  induction stem as [|x stem IH]; intros i found Hc; simpl.
  - rewrite N.eqb_refl, lastIndexOf_from_absent by done. lia.
  - rewrite IH by done. lia.
Qed.

Lemma asciiLower_dot c :
  (if (N.leb 65 c && N.leb c 90)%bool then (c + 32)%N else c) = 46%N <-> c = 46%N.
Proof.
  destruct (N.leb_spec 65 c), (N.leb_spec c 90); simpl; lia.
Qed.

Lemma dotThenNoDot_asciiLower extension :
  dotThenNoDot (JSString.asciiLower extension) = true ->
  exists rest, extension = 46%N :: rest /\ 46%N ∉ rest.
Proof.
  destruct extension as [|c rest]; [done|]. simpl.
  rewrite andb_true_iff. intros [Hc Hrest].
  apply N.eqb_eq in Hc. apply (proj1 (asciiLower_dot c)) in Hc. subst c. exists rest. split; [done|].
  intros Hin. rewrite forallb_forall in Hrest.
  specialize (Hrest 46%N). rewrite N.eqb_refl in Hrest.
  assert (negb true = true); [|done]. apply Hrest.
  apply in_map_iff. exists 46%N. split; [done|]. by apply list_elem_of_In.
Qed.

Lemma videoExtensions_shape :
  forallb dotThenNoDot videoExtensions = true.
Proof. reflexivity. Qed.

(** X7.  [isVideoByExtension] accepts exactly the names that end in one of
    its ten extensions, upper and lower case alike (for a name on which
    [toLowerCase] is the lower-casing of A to Z, as it is for every ASCII
    name): the text from the last dot on decides, a name without a dot is
    never accepted. *)
Theorem isVideoByExtension_suffix (toLowerCase : list N -> list N) (fileName : list N) :
  toLowerCase fileName = JSString.asciiLower fileName ->
  isVideoByExtension toLowerCase fileName = true <->
  exists stem extension,
    fileName = stem ++ extension /\
    In (JSString.asciiLower extension) videoExtensions.
Proof.
  intros Hlow. unfold isVideoByExtension. fold videoExtensions. rewrite Hlow.
  unfold JSString.substring, JSString.asciiLower. rewrite existsb_exists. split.
  - intros (e & He & Heq). unfold JSString.eqb in Heq. apply bool_decide_eq_true in Heq.
    set (n := Z.to_nat (JSString.lastIndexOf 46 fileName)) in *.
    exists (take n fileName), (drop n fileName). split; [by rewrite take_drop|].
    unfold JSString.asciiLower. rewrite <- Heq in He.
    by rewrite <- fmap_drop in He.
  - intros (stem & extension & -> & Hin). eexists. split; [exact Hin|].
    pose proof videoExtensions_shape as Hshape. rewrite forallb_forall in Hshape.
    destruct (dotThenNoDot_asciiLower extension (Hshape _ Hin)) as (rest & -> & Hrest).
    unfold JSString.lastIndexOf. rewrite lastIndexOf_from_last by done.
    unfold JSString.eqb. apply bool_decide_eq_true.
    replace (Z.to_nat (0 + Z.of_nat (length stem))) with (length stem) by lia.
    change (drop (length stem) (JSString.asciiLower (stem ++ 46%N :: rest)) =
            JSString.asciiLower (46%N :: rest)).
    unfold JSString.asciiLower. rewrite map_app.
    replace (length stem) with (length (map (fun c : N =>
      if (N.leb 65 c && N.leb c 90)%bool then (c + 32)%N else c) stem))
      by apply length_map.
    by rewrite drop_app_length.
Qed.

Lemma isVideoByExtension_suffix_witness :
  isVideoByExtension JSString.asciiLower (JSString.lit "Lesson.1.MP4") = true <->
  exists stem extension,
    JSString.lit "Lesson.1.MP4" = stem ++ extension /\
    In (JSString.asciiLower extension) videoExtensions.
Proof.
  exact (isVideoByExtension_suffix JSString.asciiLower (JSString.lit "Lesson.1.MP4") eq_refl).
Defined.

(** ** searchVideos *)

Lemma startsWith_spec s t :
  JSString.startsWith s t = true <-> exists post, s = t ++ post.
Proof.
  revert s. induction t as [|y t IH]; intros s.
  - destruct s; simpl; (split; [by eexists|by intros _]).
  - destruct s as [|x s]; simpl; [split; [done|by intros [? ?]]|].
    rewrite andb_true_iff, N.eqb_eq, IH. split.
    + intros [-> [post ->]]. by exists post.
    + intros [post [= -> ->]]. split; [done|by exists post].
Qed.

Lemma includes_spec s t :
  JSString.includes s t = true <-> exists pre post, s = pre ++ t ++ post.
Proof.
  induction s as [|x s IH].
  - change (JSString.includes [] t) with (JSString.startsWith [] t || false).
    rewrite orb_false_r, startsWith_spec. split.
    + intros [post H]. by exists [], post.
    + intros (pre & post & H). symmetry in H. apply app_eq_nil in H as [-> H].
      apply app_eq_nil in H as [-> ->]. by exists [].
  - change (JSString.includes (x :: s) t)
      with (JSString.startsWith (x :: s) t || JSString.includes s t).
    rewrite orb_true_iff, startsWith_spec, IH. split.
    + intros [[post H]|(pre & post & ->)]; [by exists [], post|by exists (x :: pre), post].
    + intros (pre & post & H). destruct pre as [|y pre].
      * left. by exists post.
      * right. injection H as -> ->. by exists pre, post.
Qed.

Lemma includes_trans a b c :
  JSString.includes a b = true -> JSString.includes b c = true ->
  JSString.includes a c = true.
Proof.
  rewrite !includes_spec. intros (p1 & q1 & ->) (p2 & q2 & ->).
  exists (p1 ++ p2), (q2 ++ q1). by rewrite <- !app_assoc.
Qed.

Lemma sublist_List_filter {A : Type} (p q : A -> bool) (l : list A) :
  (forall x, p x = true -> q x = true) -> sublist (List.filter p l) (List.filter q l).
Proof.
  intros Hpq. induction l as [|x l IH]; simpl; [done|].
  destruct (p x) eqn:Hp.
  - rewrite (Hpq x Hp). by constructor.
  - destruct (q x); [by constructor|done].
Qed.

(** X8.  [searchVideos] selects from what [getAllVideosFromFolder] lists, in
    the same order, and a longer term narrows the result: when the
    lower-cased term occurs in the lower-cased [term'], the videos found
    for [term'] are among those found for [term], in the same order. *)
Theorem searchVideos_narrows (toLowerCase : list N -> list N)
    (folders : list FolderNode) (term term' : list N) :
  sublist (searchVideos toLowerCase folders term)
    (flat_map getAllVideosFromFolder folders) /\
  (JSString.includes (toLowerCase term') (toLowerCase term) = true ->
   sublist (searchVideos toLowerCase folders term')
     (searchVideos toLowerCase folders term)).
Proof.
  rewrite !searchVideos_collects. split.
  - induction (flat_map getAllVideosFromFolder folders) as [|v vs IH]; simpl; [done|].
    destruct (nameMatches toLowerCase (toLowerCase term) v); by constructor.
  - intros Hinc. apply sublist_List_filter. intros v. unfold nameMatches.
    intros Hv. by eapply includes_trans.
Qed.

(** ** Search and sort on a restored forest *)

Lemma getAllVideosFromFolder_restored folder :
  getAllVideosFromFolder (restoreFolder (simplifyFolder folder)) =
  map withoutFile (getAllVideosFromFolder folder).
Proof.
  induction folder as [n p ch vs af ex IH] using FolderNode_deep_ind.
  cbn [simplifyFolder restoreFolder getAllVideosFromFolder videos children
       s_children s_videos orEmpty name path allFiles isExpanded].
  rewrite map_app, !map_map. f_equal.
  induction IH as [|c ch Hc _ IHch]; simpl; [done|].
  by rewrite Hc, IHch, map_app.
Qed.

Lemma forest_videos_restored folders :
  flat_map getAllVideosFromFolder (restoreFolderTree (simplifyFolderTree folders)) =
  map withoutFile (flat_map getAllVideosFromFolder folders).
Proof.
  unfold restoreFolderTree, simplifyFolderTree.
  induction folders as [|f folders IH]; simpl; [done|].
  by rewrite IH, getAllVideosFromFolder_restored, map_app.
Qed.

Lemma filter_map_same {A B : Type} (f : A -> B) (p : B -> bool) (q : A -> bool) (l : list A) :
  (forall x, p (f x) = q x) -> List.filter p (map f l) = map f (List.filter q l).
Proof.
  intros Hpq. induction l as [|x l IH]; simpl; [done|].
  rewrite Hpq, IH. by destruct (q x).
Qed.

(** X12.  Searching a forest that was saved and restored finds the same
    entries in the same order as searching the forest itself; the entries
    found keep their name, path and size and have lost their [File]. *)
Theorem handleSearch_on_restored_forest (toLowerCase : list N -> list N)
    (localeCompare : list N -> list N -> Z) (folders : list FolderNode) (term : list N) :
  handleSearch toLowerCase localeCompare
    (restoreFolderTree (simplifyFolderTree folders)) term =
  map withoutFile (handleSearch toLowerCase localeCompare folders term).
Proof.
  unfold handleSearch. destruct (JSString.eqb (JSString.trim term) []); [done|].
  rewrite !searchVideos_collects, forest_videos_restored.
  rewrite (filter_map_same withoutFile _ (nameMatches toLowerCase (toLowerCase term)))
    by done.
  unfold sortFilesByNumber. by apply arraySort_map.
Qed.

(** X6.  Sorting a sorted list again changes nothing: [sortFilesByNumber] is
    idempotent on a consistent [localeCompare]. *)
Theorem sortFilesByNumber_idempotent (localeCompare : list N -> list N -> Z)
    {A : Type} (nameOf : A -> list N) (files : list A) :
  Consistent localeCompare ->
  sortFilesByNumber localeCompare nameOf (sortFilesByNumber localeCompare nameOf files) =
  sortFilesByNumber localeCompare nameOf files.
Proof.
  intros Hlc. unfold sortFilesByNumber.
  pose proof (compareByNumber_Consistent localeCompare nameOf Hlc) as Hok.
  by apply arraySort_id, arraySort_sorted.
Qed.

Lemma sortFilesByNumber_idempotent_witness :
  sortFilesByNumber JSString.codeUnitCompare id
    (sortFilesByNumber JSString.codeUnitCompare id
       (map JSString.lit ["b.txt"; "10.txt"; "a.txt"; "9.txt"]%string)) =
  sortFilesByNumber JSString.codeUnitCompare id
    (map JSString.lit ["b.txt"; "10.txt"; "a.txt"; "9.txt"]%string).
Proof.
  exact (sortFilesByNumber_idempotent JSString.codeUnitCompare id
    (map JSString.lit ["b.txt"; "10.txt"; "a.txt"; "9.txt"]%string)
    codeUnitCompare_Consistent).
Defined.

(** ** The forest holds every file once *)

Section ForestPaths.
Variable m : gmap (list N) FolderObj.
Variable roots : list (list N).
Hypothesis Hinv : StoreInv (mkBuilder m roots).

Lemma childOf_length p c : childOf m p c -> (length p < length c)%nat.
Proof.
  intros (o & Ho & Hc). by destruct (si_child _ Hinv p o c Ho Hc) as (_ & ? & _).
Qed.

Lemma rtc_childOf_length a b : rtc (childOf m) a b -> (length a <= length b)%nat.
Proof.
  induction 1 as [|a b c Hab _ IH]; [done|]. apply childOf_length in Hab. lia.
Qed.

(** The ancestors of an object form a chain. *)
Lemma ancestors_chain a b x :
  rtc (childOf m) a x -> rtc (childOf m) b x ->
  rtc (childOf m) a b \/ rtc (childOf m) b a.
Proof.
  intros Ha. revert b.
  refine (rtc_ind_r (fun x => forall b, rtc (childOf m) b x ->
            rtc (childOf m) a b \/ rtc (childOf m) b a) a _ _ x Ha).
  - intros b Hb. by right.
  - intros y z Hay Hyz IH b Hb. apply rtc_inv_r in Hb as [->|(y' & Hb & Hy')].
    + left. by eapply rtc_r.
    + rewrite (childOf_parent m roots Hinv _ _ Hy') in Hb.
      rewrite <- (childOf_parent m roots Hinv _ _ Hyz) in Hb. by apply IH.
Qed.

Lemma siblings_incomparable k o c c' :
  m !! k = Some o -> c ∈ o_children o -> c' ∈ o_children o ->
  rtc (childOf m) c c' -> c = c'.
Proof.
  intros Hk Hc Hc' Hrtc. apply rtc_inv_r in Hrtc as [->|(p & Hcp & Hp)]; [done|].
  rewrite (childOf_parent m roots Hinv _ _ Hp) in Hcp.
  destruct (si_child _ Hinv k o c' Hk Hc') as (_ & _ & Hd). rewrite Hd in Hcp.
  apply rtc_childOf_length in Hcp.
  destruct (si_child _ Hinv k o c Hk Hc) as (_ & Hlen & _). lia.
Qed.

Lemma roots_incomparable r r' :
  r ∈ roots -> r' ∈ roots -> rtc (childOf m) r r' -> r = r'.
Proof.
  intros Hr Hr' Hrtc. apply rtc_inv_r in Hrtc as [->|(p & _ & o & Ho & Hc)]; [done|].
  by destruct (si_root_not_child _ Hinv r' p o Hr' Ho).
Qed.

Lemma paths_below fuel : forall k t,
  toFolderNode fuel m k = Some t ->
  forall x, x ∈ map path (folderNodes t) -> rtc (childOf m) k x.
Proof.
  induction fuel as [|fuel IH]; intros k t Ht x Hx; [done|].
  cbn [toFolderNode] in Ht. destruct (m !! k) as [o|] eqn:Hk; [|done].
  destruct (mapM (toFolderNode fuel m) (o_children o)) as [ch|] eqn:Hch; [|done].
  injection Ht as <-. cbn [folderNodes children map path] in Hx.
  apply elem_of_cons in Hx as [->|Hx].
  - by rewrite (si_path _ Hinv k o Hk).
  - apply list_elem_of_fmap in Hx as (node & -> & Hnode).
    apply list_elem_of_In, in_flat_map in Hnode as (tc & Htc & Hnode).
    apply mapM_Some in Hch. apply list_elem_of_In, list_elem_of_lookup in Htc as [i Hi].
    destruct (Forall2_lookup_r _ _ _ _ _ Hch Hi) as (c & Hc & Hct).
    eapply rtc_l.
    + exists o. split; [done|]. by eapply list_elem_of_lookup_2.
    + apply (IH c tc Hct). apply list_elem_of_fmap. exists node. split; [done|].
      by apply list_elem_of_In.
Qed.

Lemma forest_paths_NoDup fuel ks : forall trees,
  NoDup ks ->
  (forall c c', c ∈ ks -> c' ∈ ks -> rtc (childOf m) c c' -> c = c') ->
  Forall2 (fun k t => toFolderNode fuel m k = Some t) ks trees ->
  (forall k t, k ∈ ks -> toFolderNode fuel m k = Some t ->
     NoDup (map path (folderNodes t))) ->
  NoDup (map path (flat_map folderNodes trees)).
Proof.
  induction ks as [|k ks IH]; intros trees Hnd Hinc Hall Hsub.
  - apply Forall2_nil_inv_l in Hall as ->. constructor.
  - apply Forall2_cons_inv_l in Hall as (t & trees' & Ht & Hall & ->).
    apply NoDup_cons in Hnd as [Hk Hnd].
    cbn [flat_map]. rewrite map_app. apply NoDup_app. split; [|split].
    + apply (Hsub k t); [by left|done].
    + intros x Hx Hx'. apply list_elem_of_fmap in Hx' as (node & -> & Hnode).
      apply list_elem_of_In, in_flat_map in Hnode as (t' & Ht' & Hnode).
      apply list_elem_of_In, list_elem_of_lookup in Ht' as [i Hi].
      destruct (Forall2_lookup_r _ _ _ _ _ Hall Hi) as (k' & Hk' & Hkt').
      assert (Hin' : k' ∈ ks) by (by eapply list_elem_of_lookup_2).
      pose proof (paths_below fuel k t Ht _ Hx) as H1.
      assert (H2 : rtc (childOf m) k' (path node)).
      { apply (paths_below fuel k' t' Hkt'). apply list_elem_of_fmap.
        exists node. split; [done|]. by apply list_elem_of_In. }
      destruct (ancestors_chain _ _ _ H1 H2) as [H|H].
      * apply Hinc in H; [|by left|by right]. by subst k'.
      * apply Hinc in H; [|by right|by left]. by subst k'.
    + apply IH; [done| |done|].
      * intros c c' Hc Hc'. apply Hinc; by right.
      * intros k' t' Hk'. apply Hsub. by right.
Qed.

Lemma subtree_paths_NoDup fuel : forall k t,
  toFolderNode fuel m k = Some t -> NoDup (map path (folderNodes t)).
Proof.
  induction fuel as [|fuel IH]; intros k t Ht; [done|].
  pose proof Ht as Ht0.
  cbn [toFolderNode] in Ht. destruct (m !! k) as [o|] eqn:Hk; [|done].
  destruct (mapM (toFolderNode fuel m) (o_children o)) as [ch|] eqn:Hch; [|done].
  injection Ht as <-. cbn [folderNodes children map path].
  apply mapM_Some in Hch. apply NoDup_cons. split.
  - intros Hx. apply list_elem_of_fmap in Hx as (node & Hpath & Hnode).
    apply list_elem_of_In, in_flat_map in Hnode as (tc & Htc & Hnode).
    apply list_elem_of_In, list_elem_of_lookup in Htc as [i Hi].
    destruct (Forall2_lookup_r _ _ _ _ _ Hch Hi) as (c & Hc & Hct).
    assert (Hrtc : rtc (childOf m) c (path node)).
    { apply (paths_below fuel c tc Hct). apply list_elem_of_fmap.
      exists node. split; [done|]. by apply list_elem_of_In. }
    apply rtc_childOf_length in Hrtc. rewrite <- Hpath in Hrtc.
    rewrite (si_path _ Hinv k o Hk) in Hrtc.
    apply list_elem_of_lookup_2 in Hc.
    destruct (si_child _ Hinv k o c Hk Hc) as (_ & Hlen & _). lia.
  - apply (forest_paths_NoDup fuel (o_children o));
      [|intros c c'; by apply (siblings_incomparable k o)|done|].
    + by apply (si_nodup_children _ Hinv k o).
    + intros c tc _. apply IH.
Qed.

Variable forest : list FolderNode.
Hypothesis Hforest :
  Forall2 (fun r t => toFolderNode (S (size m)) m r = Some t) roots forest.

(** No two folders of the forest have the same path. *)
Lemma forestNodes_paths_NoDup : NoDup (map path (forestNodes forest)).
Proof.
  apply (forest_paths_NoDup (S (size m)) roots); [|by apply roots_incomparable|done|].
  - apply (si_nodup_roots _ Hinv).
  - intros k t _. apply subtree_paths_NoDup.
Qed.

(** A folder of the forest shows the object registered under its path. *)
Lemma forest_node_object folder :
  In folder (forestNodes forest) ->
  exists o, m !! path folder = Some o /\ shows o folder.
Proof.
  intros Hin. destruct (forest_shows m roots forest _ Hforest folder Hin) as (k & o & Hk & Hs).
  exists o. split; [|done]. destruct Hs as (_ & -> & _).
  by rewrite (si_path _ Hinv k o Hk).
Qed.

(** The paths of the folders of the forest are the keys of the store. *)
Lemma forestNodes_paths : map path (forestNodes forest) ≡ₚ elements (dom m).
Proof.
  apply NoDup_Permutation; [apply forestNodes_paths_NoDup|apply NoDup_elements|].
  intros x. rewrite elem_of_elements, elem_of_dom. split.
  - intros Hx. apply list_elem_of_fmap in Hx as (folder & -> & Hin).
    apply list_elem_of_In in Hin. destruct (forest_node_object folder Hin) as (o & Ho & _).
    by exists o.
  - intros Hx.
    destruct (node_of_key m roots Hinv forest Hforest (length x) x (Nat.le_refl _) Hx)
      as (t & Ht & Hin).
    apply list_elem_of_fmap. exists t. split; [|by apply list_elem_of_In].
    destruct (toFolderNode_root _ _ _ _ Ht) as (o & Ho & _ & -> & _).
    by rewrite (si_path _ Hinv x o Ho).
Qed.

Lemma forestFiles_store : forestFiles forest ≡ₚ flat_map (filesAt m) (elements (dom m)).
Proof.
  rewrite <- forestNodes_paths. unfold forestFiles.
  assert (Heq : forall nodes, (forall folder, In folder nodes -> In folder (forestNodes forest)) ->
            flat_map (fun folder => orEmpty (allFiles folder)) nodes =
            flat_map (filesAt m) (map path nodes)).
  { induction nodes as [|folder nodes IH]; intros Hsub; simpl; [done|].
    rewrite IH by (intros; apply Hsub; by right). f_equal.
    destruct (forest_node_object folder (Hsub folder (or_introl eq_refl)))
      as (o & Ho & _ & _ & _ & Hfiles & _).
    unfold filesAt. by rewrite Ho, Hfiles. }
  by rewrite Heq.
Qed.

Lemma forestVideos_store :
  flat_map getAllVideosFromFolder forest ≡ₚ flat_map (videosAt m) (elements (dom m)).
Proof.
  rewrite forest_videos_nodes, <- forestNodes_paths.
  assert (Heq : forall nodes, (forall folder, In folder nodes -> In folder (forestNodes forest)) ->
            flat_map videos nodes = flat_map (videosAt m) (map path nodes)).
  { induction nodes as [|folder nodes IH]; intros Hsub; simpl; [done|].
    rewrite IH by (intros; apply Hsub; by right). f_equal.
    destruct (forest_node_object folder (Hsub folder (or_introl eq_refl)))
      as (o & Ho & _ & _ & Hvideos & _).
    unfold videosAt. by rewrite Ho, Hvideos. }
  by rewrite Heq.
Qed.

End ForestPaths.

Lemma flat_map_Permutation_pointwise {A B : Type} (f g : A -> list B) (l : list A) :
  (forall x, In x l -> f x ≡ₚ g x) -> flat_map f l ≡ₚ flat_map g l.
Proof.
  induction l as [|x l IH]; intros Hfg; simpl; [done|].
  rewrite (Hfg x (or_introl eq_refl)), IH; [done|]. intros y Hy. apply Hfg. by right.
Qed.

(** Sorting a list into classes by a key loses and repeats nothing. *)
Lemma flat_map_partition {A : Type} (key : A -> list N) (ks : list (list N)) (l : list A) :
  NoDup ks -> (forall a, In a l -> key a ∈ ks) ->
  flat_map (fun k => List.filter (fun a => bool_decide (key a = k)) l) ks ≡ₚ l.
Proof.
  intros Hnd. induction l as [|a l IH]; intros Hkeys.
  - clear. induction ks as [|k ks IH]; simpl; [done|exact IH].
  - specialize (IH (fun b Hb => Hkeys b (or_intror Hb))).
    transitivity (a :: flat_map (fun k => List.filter (fun a => bool_decide (key a = k)) l) ks);
      [|by constructor].
    clear IH.
    pose proof (Hkeys a (or_introl eq_refl)) as Hin. clear Hkeys.
    induction ks as [|k ks IHks]; [by apply elem_of_nil in Hin|].
    apply NoDup_cons in Hnd as [Hk Hnd]. cbn [flat_map List.filter].
    destruct (decide (key a = k)) as [Heq|Hne].
    + rewrite bool_decide_eq_true_2 by done. simpl. constructor. f_equiv.
      apply flat_map_Permutation_pointwise. intros k' Hk'. apply list_elem_of_In in Hk'.
      rewrite bool_decide_eq_false_2; [done|]. intros Heq'. congruence.
    + rewrite bool_decide_eq_false_2 by done.
      apply elem_of_cons in Hin as [?|Hin]; [done|].
      rewrite (IHks Hnd Hin). by rewrite Permutation_middle.
Qed.

Lemma convertFilesToVideoFiles_eq toLowerCase files :
  convertFilesToVideoFiles toLowerCase files =
  map toVideoFile (List.filter fi_isVideo (map (toFileItem toLowerCase) files)).
Proof.
  unfold convertFilesToVideoFiles.
  set (push := fun (videoFiles : list VideoFile) (file : File) => _).
  assert (Hgen : forall acc,
             fold_left push files acc =
             acc ++ map toVideoFile
                      (List.filter fi_isVideo (map (toFileItem toLowerCase) files))).
  { induction files as [|file files IH]; intros acc; simpl; [by rewrite app_nil_r|].
    rewrite IH. unfold push. destruct (isVideoFile toLowerCase file); simpl; [|done].
    by rewrite <- app_assoc. }
  apply Hgen.
Qed.

(** The forest of a batch, with what relates it to the store of the main
    loop. *)
Lemma built_forest_store toLowerCase localeCompare files :
  exists forest,
    buildCompleteFolderTree toLowerCase localeCompare files = Some forest /\
    NoDup (map path (forestNodes forest)) /\
    forestFiles forest ≡ₚ map (toFileItem toLowerCase) files /\
    flat_map getAllVideosFromFolder forest ≡ₚ convertFilesToVideoFiles toLowerCase files.
Proof.
  destruct (buildCompleteFolderTree_total localeCompare toLowerCase files)
    as (m' & roots' & forest & _ & Hre & _ & Hinv & Hbuild & Hforest).
  exists forest. split; [done|].
  split; [by apply (forestNodes_paths_NoDup m' roots' Hinv forest)|].
  set (b := buildStore toLowerCase files) in *.
  set (items := map (toFileItem toLowerCase) files).
  pose proof (filesExact_fold items [] _ filesExact_empty) as [Hkeys Hfiles].
  fold (buildStore toLowerCase files) in Hkeys, Hfiles. fold b in Hkeys, Hfiles.
  cbn [app] in Hkeys, Hfiles.
  assert (Hparts : flat_map (filesAt (folderMap b)) (elements (dom (folderMap b))) ≡ₚ items).
  { etransitivity;
      [|apply (flat_map_partition pushKey (elements (dom (folderMap b))) items)].
    - apply flat_map_Permutation_pointwise. intros k Hk.
      apply list_elem_of_In, elem_of_elements, elem_of_dom in Hk as [o Ho].
      unfold filesAt. rewrite Ho. by rewrite (Hfiles k o Ho).
    - apply NoDup_elements.
    - intros f Hf. apply elem_of_elements, elem_of_dom, Hkeys. by apply list_elem_of_In. }
  split.
  - rewrite (forestFiles_store m' roots' Hinv forest Hforest).
    rewrite (StoreReorder_dom _ _ Hre), <- Hparts.
    apply flat_map_Permutation_pointwise. intros k _. unfold filesAt.
    specialize (Hre k). destruct Hre as [o o' Ho|]; [|done]. by destruct Ho as (_ & _ & _ & _ & _ & ?).
  - rewrite (forestVideos_store m' roots' Hinv forest Hforest).
    rewrite (StoreReorder_dom _ _ Hre), convertFilesToVideoFiles_eq. fold items.
    transitivity (flat_map (videosAt (folderMap b)) (elements (dom (folderMap b)))).
    { apply flat_map_Permutation_pointwise. intros k _. unfold videosAt.
      specialize (Hre k). destruct Hre as [o o' Ho|]; [|done].
      by destruct Ho as (_ & _ & _ & _ & ? & _). }
    transitivity (map toVideoFile (List.filter fi_isVideo
                    (flat_map (filesAt (folderMap b)) (elements (dom (folderMap b)))))).
    2:{ apply Permutation_map. by apply Permutation_List_filter. }
    generalize (elements (dom (folderMap b))) as ks.
    induction ks as [|k ks IH]; simpl; [done|].
    rewrite List.filter_app, map_app, IH. f_equiv.
    unfold videosAt, filesAt. destruct (folderMap b !! k) as [o|] eqn:Ho; [|done].
    by rewrite (videosOfFiles_buildStore toLowerCase files k o Ho).
Qed.

(** X1.  [buildCompleteFolderTree] loses no file and repeats none: it comes
    back with a forest for every batch, the [allFiles] lists of its folders
    hold, taken together, exactly the entries made of the files of the
    batch, each once, and no two folders of the forest have the same
    path. *)
Theorem forest_holds_every_file_once (toLowerCase : list N -> list N)
    (localeCompare : list N -> list N -> Z) (files : list File) :
  exists forest,
    buildCompleteFolderTree toLowerCase localeCompare files = Some forest /\
    forestFiles forest ≡ₚ map (toFileItem toLowerCase) files /\
    NoDup (map path (forestNodes forest)).
Proof.
  destruct (built_forest_store toLowerCase localeCompare files)
    as (forest & Hbuild & Hnd & Hfiles & _).
  by exists forest.
Qed.

(** X2.  The videos [getAllVideosFromFolder] collects from the folders of
    the forest are the entries [convertFilesToVideoFiles] makes of the same
    batch, each once: both see the same videos. *)
Theorem forest_videos_are_the_converted_files (toLowerCase : list N -> list N)
    (localeCompare : list N -> list N -> Z) (files : list File) :
  exists forest,
    buildCompleteFolderTree toLowerCase localeCompare files = Some forest /\
    flat_map getAllVideosFromFolder forest ≡ₚ convertFilesToVideoFiles toLowerCase files /\
    (convertFilesToVideoFiles toLowerCase files = [] <->
     forall folder, In folder (forestNodes forest) -> videos folder = []).
Proof.
  destruct (built_forest_store toLowerCase localeCompare files)
    as (forest & Hbuild & _ & _ & Hvideos).
  exists forest. split; [done|]. split; [done|]. split.
  - intros Hnone. rewrite Hnone in Hvideos. apply Permutation_nil_r in Hvideos.
    rewrite forest_videos_nodes in Hvideos. intros folder Hin.
    destruct (videos folder) as [|v vs] eqn:Hv; [done|].
    assert (Hv' : In v (flat_map videos (forestNodes forest))).
    { apply in_flat_map. exists folder. split; [done|]. rewrite Hv. by left. }
    by rewrite Hvideos in Hv'.
  - intros Hall. apply Permutation_nil_r. rewrite <- Hvideos, forest_videos_nodes.
    induction (forestNodes forest) as [|folder nodes IH]; simpl; [done|].
    rewrite (Hall folder (or_introl eq_refl)), IH; [done|].
    intros f Hf. apply Hall. by right.
Qed.

(** ** convertToTreeData *)

Lemma uintDigits_inj d d' : uintDigits d = uintDigits d' -> d = d'.
Proof.
  revert d'. induction d; intros []; simpl; intros H; try done;
    injection H as H; f_equal; by apply IHd.
Qed.

Lemma numberToString_inj i j : numberToString i = numberToString j -> i = j.
Proof.
  unfold numberToString. intros H. apply uintDigits_inj in H.
  by rewrite <- (Unsigned.of_to i), <- (Unsigned.of_to j), H.
Qed.

Lemma uintDigits_no_dash d : 45%N ∉ uintDigits d.
Proof.
  induction d; simpl; [apply not_elem_of_nil|..];
    (apply not_elem_of_cons; split; [lia|done]).
Qed.

(** A text is cut in one way at its last separator. *)
Lemma app_separator_inj {A : Type} (s : A) (a a' d d' : list A) :
  a ++ s :: d = a' ++ s :: d' -> s ∉ d -> s ∉ d' -> a = a' /\ d = d'.
Proof.
  revert a'. induction a as [|x a IH]; intros [|x' a'] H Hd Hd'; simpl in H.
  - by injection H.
  - injection H as <- ->. destruct Hd. apply elem_of_app. right. by left.
  - injection H as -> <-. destruct Hd'. apply elem_of_app. right. by left.
  - injection H as -> H. destruct (IH a' H Hd Hd') as [-> ->]. done.
Qed.

Lemma fileKey_inj p i p' i' : fileKey p i = fileKey p' i' -> p = p' /\ i = i'.
Proof.
  unfold fileKey. intros H. apply app_inv_head in H.
  change (JSString.lit "-" ++ ?x) with (45%N :: x) in H.
  apply app_separator_inj in H as [-> H]; [|apply uintDigits_no_dash..].
  split; [done|]. by apply numberToString_inj.
Qed.

Lemma folderKey_inj p p' : folderKey p = folderKey p' -> p = p'.
Proof. unfold folderKey. apply app_inv_head. Qed.

Lemma fileKey_selectable p i :
  negb (JSString.eqb (fileKey p i) []) &&
  JSString.startsWith (fileKey p i) (JSString.lit "file-") = true.
Proof.
  apply andb_true_intro. split.
  - apply negb_true_iff, bool_decide_eq_false. unfold fileKey. simpl. discriminate.
  - apply startsWith_spec. by eexists.
Qed.

Lemma fileKey_folderKey p i p' : fileKey p i <> folderKey p'.
Proof. unfold fileKey, folderKey. simpl. discriminate. Qed.

Lemma treeNodes_leaves rows :
  Forall (fun row => isFileLeaf row = true) rows -> flat_map treeNodes rows = rows.
Proof.
  induction 1 as [|row rows Hrow _ IH]; simpl; [done|].
  rewrite IH. by destruct row.
Qed.

Section TreeDataFacts.
Variable formatFileSize : N -> list N.

Lemma convertNode_rows node :
  treeNodes (convertNode formatFileSize node) =
  ownRows formatFileSize node ++
  flat_map (fun child => treeNodes (convertNode formatFileSize child)) (children node).
Proof.
  destruct node as [n p ch vs af ex].
  unfold ownRows. cbn [convertNode treeNodes allFiles children path name app].
  f_equal.
  set (leaves := match af with
                 | Some (fileItem :: rest) => imap _ (fileItem :: rest)
                 | _ => []
                 end).
  assert (Hleaves : leaves =
            imap (fileLeaf formatFileSize (mkFolderNode n p ch vs af ex)) (orEmpty af)).
  { unfold leaves. by destruct af as [[|f fs]|]. }
  assert (Hflat : flat_map treeNodes
                    (leaves ++ map (convertNode formatFileSize) ch) =
                  leaves ++ flat_map (fun child => treeNodes (convertNode formatFileSize child)) ch).
  { rewrite flat_map_app. f_equal.
    - apply treeNodes_leaves. rewrite Hleaves. apply Forall_forall. intros row Hrow.
      by apply elem_of_lookup_imap in Hrow as (i & fileItem & -> & _).
    - by rewrite flat_map_concat_map, map_map, <- flat_map_concat_map. }
  rewrite <- Hleaves.
  destruct (leaves ++ map (convertNode formatFileSize) ch) eqn:Hrows.
  - apply app_eq_nil in Hrows as [-> Hch]. apply map_eq_nil in Hch. by subst ch.
  - by rewrite <- Hflat.
Qed.

Lemma convertNode_ownRows folder :
  treeNodes (convertNode formatFileSize folder) =
  flat_map (ownRows formatFileSize) (folderNodes folder).
Proof.
  induction folder as [n p ch vs af ex IHch] using FolderNode_deep_ind.
  rewrite convertNode_rows. cbn [folderNodes flat_map children]. f_equal.
  induction IHch as [|c ch Hc _ IH]; simpl; [done|].
  by rewrite flat_map_app, Hc, IH.
Qed.

Lemma convertToTreeData_rows forest :
  treeRows (convertToTreeData formatFileSize forest) =
  flat_map (ownRows formatFileSize) (forestNodes forest).
Proof.
  unfold treeRows, convertToTreeData, forestNodes.
  induction forest as [|folder forest IH]; simpl; [done|].
  by rewrite flat_map_app, <- IH, convertNode_ownRows.
Qed.

Lemma ownRows_keys node :
  map nodeKey (ownRows formatFileSize node) =
  folderKey (path node) ::
  map (fileKey (path node)) (seq 0 (length (orEmpty (allFiles node)))).
Proof.
  unfold ownRows. cbn [map]. f_equal; [by destruct node|].
  change (map nodeKey (imap (fileLeaf formatFileSize node) (orEmpty (allFiles node))))
    with (nodeKey <$> imap (fileLeaf formatFileSize node) (orEmpty (allFiles node))).
  rewrite fmap_imap.
  rewrite (imap_ext _ (fun j _ => fileKey (path node) j)) by done.
  apply imap_seq_0.
Qed.

Lemma NoDup_flat_map_by {A B C : Type} (f : A -> list B) (g : A -> C) (l : list A) :
  NoDup (map g l) ->
  (forall a, a ∈ l -> NoDup (f a)) ->
  (forall a a' x, a ∈ l -> a' ∈ l -> x ∈ f a -> x ∈ f a' -> g a = g a') ->
  NoDup (flat_map f l).
Proof.
  induction l as [|a l IH]; intros Hnd Hf Hg; simpl; [constructor|].
  cbn [map] in Hnd. apply NoDup_cons in Hnd as [Ha Hnd].
  apply NoDup_app. split; [apply Hf; by left|]. split.
  - intros x Hx Hx'. apply list_elem_of_In, in_flat_map in Hx' as (a' & Ha' & Hx').
    apply list_elem_of_In in Ha', Hx'. apply Ha.
    rewrite (Hg a a' x); [|by left|by right|done|done].
    apply list_elem_of_fmap. by exists a'.
  - apply IH; [done|intros; apply Hf; by right|].
    intros a1 a2 x H1 H2. apply Hg; by right.
Qed.

Lemma treeKeys_NoDup forest :
  NoDup (map path (forestNodes forest)) ->
  NoDup (map nodeKey (treeRows (convertToTreeData formatFileSize forest))).
Proof.
  intros Hnd. rewrite convertToTreeData_rows.
  rewrite flat_map_concat_map, concat_map, map_map, <- flat_map_concat_map.
  apply (NoDup_flat_map_by _ path); [done| |].
  - intros node _. rewrite ownRows_keys. apply NoDup_cons. split.
    + intros Hin. apply list_elem_of_fmap in Hin as (i & Hi & _).
      symmetry in Hi. by apply fileKey_folderKey in Hi.
    + apply NoDup_fmap_2; [|apply NoDup_seq].
      intros i j Hij. by apply fileKey_inj in Hij as [_ ?].
  - intros a a' x _ _. rewrite !ownRows_keys. intros Hx Hx'.
    apply elem_of_cons in Hx as [->|Hx], Hx' as [Hx'|Hx'].
    + by apply folderKey_inj.
    + apply list_elem_of_fmap in Hx' as (i & Hi & _). symmetry in Hi.
      by apply fileKey_folderKey in Hi.
    + subst x. apply list_elem_of_fmap in Hx as (i & Hi & _). symmetry in Hi.
      by apply fileKey_folderKey in Hi.
    + apply list_elem_of_fmap in Hx as (i & -> & _).
      apply list_elem_of_fmap in Hx' as (j & Hj & _).
      by apply fileKey_inj in Hj as [? _].
Qed.

End TreeDataFacts.

(** ** The rows of a built and of a reloaded forest *)

Lemma folderNodes_restoreFolder (s : Snapshot) :
  Forall withoutFiles (folderNodes (restoreFolder s)).
Proof.
  induction s as [n p ch vs af ex IH] using Snapshot_deep_ind.
  cbn [restoreFolder folderNodes children]. constructor.
  - unfold withoutFiles. cbn [allFiles orEmpty]. apply Forall_forall. intros entry Hentry.
    by apply list_elem_of_fmap in Hentry as (sf & -> & _).
  - destruct ch as [cs|]; [|constructor]. specialize (IH cs eq_refl).
    induction IH as [|c cs Hc _ IHcs]; simpl; [constructor|].
    apply Forall_app. by split.
Qed.

Lemma forestNodes_restoreFolderTree (snapshot : list Snapshot) :
  Forall withoutFiles (forestNodes (restoreFolderTree snapshot)).
Proof.
  unfold forestNodes, restoreFolderTree.
  induction snapshot as [|s snapshot IH]; simpl; [constructor|].
  apply Forall_app. split; [apply folderNodes_restoreFolder|done].
Qed.

Lemma folderNodes_reloaded folder :
  folderNodes (restoreFolder (simplifyFolder folder)) =
  map (fun f => restoreFolder (simplifyFolder f)) (folderNodes folder).
Proof.
  induction folder as [n p ch vs af ex IH] using FolderNode_deep_ind.
  cbn [simplifyFolder restoreFolder folderNodes children s_children map]. f_equal.
  induction IH as [|c ch Hc _ IHch]; simpl; [done|].
  by rewrite map_app, Hc, IHch.
Qed.

Lemma forestNodes_reloaded forest :
  forestNodes (reloaded forest) =
  map (fun f => restoreFolder (simplifyFolder f)) (forestNodes forest).
Proof.
  unfold forestNodes, reloaded, restoreFolderTree, simplifyFolderTree.
  induction forest as [|f forest IH]; simpl; [done|].
  by rewrite map_app, folderNodes_reloaded, IH.
Qed.

Lemma reloaded_path folder : path (restoreFolder (simplifyFolder folder)) = path folder.
Proof. by destruct folder. Qed.

Lemma reloaded_allFiles folder :
  orEmpty (allFiles (restoreFolder (simplifyFolder folder))) =
  map (fun entry => restoreFile (simplifyFile entry)) (orEmpty (allFiles folder)).
Proof. destruct folder as [n p ch vs [fs|] ex]; simpl; [|done]. by rewrite map_map. Qed.

Lemma reloaded_videos folder :
  videos (restoreFolder (simplifyFolder folder)) = map withoutFile (videos folder).
Proof. destruct folder. simpl. by rewrite map_map. Qed.

Lemma videosCounted_reloaded folder :
  videosCounted folder -> videosCounted (restoreFolder (simplifyFolder folder)).
Proof.
  unfold videosCounted. rewrite reloaded_allFiles, reloaded_videos, length_map. intros ->.
  rewrite (filter_map_same (fun entry => restoreFile (simplifyFile entry)) _ fi_isVideo)
    by done.
  by rewrite length_map.
Qed.

(** What the main loop and the sorting pass leave in a folder of the
    forest. *)
Lemma built_forest_entries toLowerCase localeCompare files forest :
  buildCompleteFolderTree toLowerCase localeCompare files = Some forest ->
  forall folder, In folder (forestNodes forest) ->
    exists entries,
      allFiles folder = Some entries /\
      (videos folder ≡ₚ map toVideoFile (List.filter fi_isVideo entries)) /\
      forall entry, In entry entries ->
        exists file, In file files /\ entry = toFileItem toLowerCase file.
Proof.
  intros Hforest0 folder Hin.
  destruct (buildCompleteFolderTree_total localeCompare toLowerCase files)
    as (m' & roots' & forest' & _ & Hre & _ & Hinv & Hbuild & Hforest).
  assert (forest' = forest) as -> by congruence.
  destruct (forest_shows m' roots' forest _ Hforest folder Hin)
    as (k & o' & Hk & _ & _ & Hv & Hf & _).
  exists (o_allFiles o'). split; [done|].
  destruct (StoreReorder_lookup _ _ k o' Hre Hk) as (o & Ho & _ & _ & _ & _ & Hpv & Hpf).
  split.
  - rewrite Hv, Hpv, (videosOfFiles_buildStore toLowerCase files k o Ho).
    by apply Permutation_map, Permutation_List_filter.
  - intros entry Hentry. eapply Permutation_in in Hentry; [|exact Hpf].
    pose proof (filesExact_fold (map (toFileItem toLowerCase) files) [] _ filesExact_empty)
      as [_ Hfiles].
    fold (buildStore toLowerCase files) in Hfiles. rewrite (Hfiles k o Ho) in Hentry.
    apply filter_In in Hentry as [Hentry _]. cbn [app] in Hentry.
    apply in_map_iff in Hentry as (file & <- & Hfile). by exists file.
Qed.

Lemma built_forest_videosCounted toLowerCase localeCompare files forest :
  buildCompleteFolderTree toLowerCase localeCompare files = Some forest ->
  forall folder, In folder (forestNodes forest) -> videosCounted folder.
Proof.
  intros Hbuild folder Hin.
  destruct (built_forest_entries _ _ _ _ Hbuild folder Hin) as (entries & Hf & Hv & _).
  unfold videosCounted. by rewrite Hf, (Permutation_length Hv), length_map.
Qed.

Section TreeRows.
Variable formatFileSize : N -> list N.

Lemma treeRows_inv forest row :
  In row (treeRows (convertToTreeData formatFileSize forest)) ->
  exists folder, In folder (forestNodes forest) /\
    (row = convertNode formatFileSize folder \/
     exists index entry,
       orEmpty (allFiles folder) !! index = Some entry /\
       row = fileLeaf formatFileSize folder index entry).
Proof.
  rewrite convertToTreeData_rows. intros Hrow.
  apply in_flat_map in Hrow as (folder & Hfolder & Hrow). exists folder. split; [done|].
  destruct Hrow as [<-|Hrow]; [by left|right].
  apply list_elem_of_In, elem_of_lookup_imap in Hrow as (index & entry & -> & Hentry).
  by exists index, entry.
Qed.

Lemma filter_isVideoLeaf_imap (f : nat -> FileItem -> TreeDataNode) (l : list FileItem) :
  (forall i entry, isVideoLeaf (f i entry) = fi_isVideo entry) ->
  length (List.filter isVideoLeaf (imap f l)) = length (List.filter fi_isVideo l).
Proof.
  revert f. induction l as [|entry l IH]; intros f Hf; [done|].
  rewrite imap_cons. cbn [List.filter]. rewrite Hf.
  destruct (fi_isVideo entry); simpl; rewrite IH; try done; intros i e; apply Hf.
Qed.

Lemma filter_isFileLeaf_imap (f : nat -> FileItem -> TreeDataNode) (l : list FileItem) :
  (forall i entry, isFileLeaf (f i entry) = true) ->
  List.filter isFileLeaf (imap f l) = imap f l.
Proof.
  revert f. induction l as [|entry l IH]; intros f Hf; [done|].
  rewrite imap_cons. cbn [List.filter]. rewrite Hf, IH; [done|]. intros i e. apply Hf.
Qed.

Lemma videoLeaves_ownRows folder :
  length (List.filter isVideoLeaf (ownRows formatFileSize folder)) =
  length (List.filter fi_isVideo (orEmpty (allFiles folder))).
Proof.
  unfold ownRows. cbn [List.filter].
  replace (isVideoLeaf (convertNode formatFileSize folder)) with false by (by destruct folder).
  by apply filter_isVideoLeaf_imap.
Qed.

Lemma videoLeaves_folderNodes nodes :
  Forall videosCounted nodes ->
  length (List.filter isVideoLeaf (flat_map (ownRows formatFileSize) nodes)) =
  length (flat_map videos nodes).
Proof.
  induction 1 as [|folder nodes Hfolder _ IH]; cbn [flat_map]; [done|].
  rewrite List.filter_app, !length_app, IH, videoLeaves_ownRows. by rewrite Hfolder.
Qed.

Lemma countsMatch_convertNode folder :
  Forall videosCounted (folderNodes folder) ->
  countsMatch (convertNode formatFileSize folder).
Proof.
  intros Hall. unfold countsMatch.
  pose proof (convertNode_ownRows formatFileSize folder) as Hrows.
  pose proof (videoLeaves_folderNodes _ Hall) as Hcount.
  rewrite <- Hrows, <- getAllVideosFromFolder_nodes in Hcount.
  destruct folder as [n p ch vs af ex].
  cbn [convertNode allFiles children path name] in *.
  split; [|by rewrite Hcount].
  set (leaves := match af with
                 | Some (fileItem :: rest) => imap _ (fileItem :: rest)
                 | _ => []
                 end).
  assert (Hleaves : List.filter isFileLeaf leaves = leaves /\
                    length leaves = match af with Some fs => length fs | None => 0%nat end).
  { unfold leaves. destruct af as [[|f fs]|]; try done.
    split; [by apply filter_isFileLeaf_imap|by rewrite length_imap]. }
  destruct Hleaves as [Hfilter Hlen].
  assert (Hch : List.filter isFileLeaf (map (convertNode formatFileSize) ch) = []).
  { clear. induction ch as [|c ch IH]; [done|]. simpl. by destruct c. }
  assert (Hall' : length (List.filter isFileLeaf
                    (leaves ++ map (convertNode formatFileSize) ch)) =
                  match af with Some fs => length fs | None => 0%nat end).
  { by rewrite List.filter_app, Hfilter, Hch, app_nil_r. }
  by destruct (leaves ++ map (convertNode formatFileSize) ch).
Qed.

End TreeRows.

Lemma folderNodes_trans T : forall f g,
  In f (folderNodes T) -> In g (folderNodes f) -> In g (folderNodes T).
Proof.
  intros f. induction f as [n p ch vs af ex IH] using FolderNode_deep_ind.
  intros g Hf Hg. cbn [folderNodes children] in Hg. destruct Hg as [<-|Hg]; [done|].
  apply in_flat_map in Hg as (c & Hc & Hg).
  rewrite Forall_forall in IH. apply (IH c); [by apply list_elem_of_In| |done].
  by apply (folderNodes_children T (mkFolderNode n p ch vs af ex)).
Qed.

Lemma forestNodes_trans forest f g :
  In f (forestNodes forest) -> In g (folderNodes f) -> In g (forestNodes forest).
Proof.
  unfold forestNodes. intros Hf Hg. apply in_flat_map in Hf as (T & HT & Hf).
  apply in_flat_map. exists T. split; [done|]. by apply (folderNodes_trans T f).
Qed.

Lemma countsMatch_rows formatFileSize forest :
  Forall videosCounted (forestNodes forest) ->
  forall row, In row (treeRows (convertToTreeData formatFileSize forest)) -> countsMatch row.
Proof.
  intros Hall row Hrow.
  apply treeRows_inv in Hrow as (folder & Hfolder & [->|(index & entry & _ & ->)]); [|done].
  apply countsMatch_convertNode. apply Forall_forall. intros g Hg.
  rewrite Forall_forall in Hall. apply Hall. apply list_elem_of_In.
  apply (forestNodes_trans forest folder); [done|by apply list_elem_of_In].
Qed.


(** X13.  The keys of the rows [convertToTreeData] makes of a built forest
    are pairwise different, file rows and folder rows together, and the
    forest keeps the same keys when it is saved and restored. *)
Theorem tree_keys_are_unique (formatFileSize : N -> list N)
    (toLowerCase : list N -> list N) (localeCompare : list N -> list N -> Z)
    (files : list File) :
  exists forest,
    buildCompleteFolderTree toLowerCase localeCompare files = Some forest /\
    NoDup (map nodeKey (treeRows (convertToTreeData formatFileSize forest))) /\
    map nodeKey (treeRows (convertToTreeData formatFileSize (reloaded forest))) =
    map nodeKey (treeRows (convertToTreeData formatFileSize forest)).
Proof.
  destruct (built_forest_store toLowerCase localeCompare files)
    as (forest & Hbuild & Hnd & _).
  exists forest. split; [done|]. split; [by apply treeKeys_NoDup|].
  rewrite !convertToTreeData_rows, forestNodes_reloaded. clear Hnd.
  induction (forestNodes forest) as [|folder nodes IH]; [done|].
  cbn [map flat_map]. rewrite !map_app, IH, !ownRows_keys. f_equal.
  by rewrite reloaded_path, reloaded_allFiles, length_map.
Qed.

(** X14.  In the tree of a built forest, and of the same forest saved and
    restored, the two counts in the title of every folder row are the
    counts of the rows under it: the file count is the number of its file
    rows, the video count the number of file rows with the video badge in
    the folder and all its sub-folders. *)
Theorem tree_counts_match_rows (formatFileSize : N -> list N)
    (toLowerCase : list N -> list N) (localeCompare : list N -> list N -> Z)
    (files : list File) :
  exists forest,
    buildCompleteFolderTree toLowerCase localeCompare files = Some forest /\
    (forall row, In row (treeRows (convertToTreeData formatFileSize forest)) ->
       countsMatch row) /\
    (forall row, In row (treeRows (convertToTreeData formatFileSize (reloaded forest))) ->
       countsMatch row).
Proof.
  destruct (built_forest_store toLowerCase localeCompare files)
    as (forest & Hbuild & _).
  exists forest. split; [done|].
  assert (Hall : Forall videosCounted (forestNodes forest)).
  { apply Forall_forall. intros folder Hfolder.
    eapply built_forest_videosCounted; [exact Hbuild|by apply list_elem_of_In]. }
  split; apply countsMatch_rows; [done|].
  rewrite forestNodes_reloaded. apply Forall_forall. intros folder Hfolder.
  apply list_elem_of_fmap in Hfolder as (f & -> & Hf).
  apply videosCounted_reloaded. rewrite Forall_forall in Hall. by apply Hall.
Qed.

(** X15.  A tree restored from the cache never starts a video: whatever row
    of it is selected, [handleTreeSelect] does nothing (a folder row) or
    shows the notice that the folder has to be chosen again. *)
Theorem restored_rows_never_play (formatFileSize : N -> list N)
    (snapshot : list Snapshot) (selectedKeys : list (list N))
    (selectedNodes : list TreeDataNode) :
  (forall row, In row selectedNodes ->
     In row (treeRows (convertToTreeData formatFileSize (restoreFolderTree snapshot)))) ->
  handleTreeSelect selectedKeys selectedNodes = [] \/
  handleTreeSelect selectedKeys selectedNodes = [Alert MSG_FROM_CACHE].
Proof.
  intros Hrows. unfold handleTreeSelect.
  destruct selectedKeys as [|selectedKey ?]; [by left|].
  destruct (_ && _); [|by left].
  destruct selectedNodes as [|[title key fileData|] ?]; [by left| |by left].
  destruct (treeRows_inv formatFileSize _ _ (Hrows _ (or_introl eq_refl)))
    as (folder & Hfolder & [Hrow|(index & entry & Hentry & Hrow)]);
    [by destruct folder|].
  injection Hrow as _ _ ->.
  pose proof (forestNodes_restoreFolderTree snapshot) as Hall.
  rewrite Forall_forall in Hall. specialize (Hall folder (proj2 (list_elem_of_In _ _) Hfolder)).
  unfold withoutFiles in Hall. rewrite Forall_forall in Hall.
  rewrite (Hall entry) by (by eapply list_elem_of_lookup_2). by right.
Qed.

(** X16.  In the tree of a freshly built forest a click on the row of a
    video hands [onVideoSelect] the entry of that file, which is one of the
    [videos] of the folder the row belongs to; a click on the row of any
    other file only shows the notice that it is no video, and a click on a
    folder row does nothing. *)
Theorem built_rows_play_their_video (formatFileSize : N -> list N)
    (toLowerCase : list N -> list N) (localeCompare : list N -> list N -> Z)
    (files : list File) :
  exists forest,
    buildCompleteFolderTree toLowerCase localeCompare files = Some forest /\
    forall folder, In folder (forestNodes forest) ->
      handleTreeSelect [folderKey (path folder)] [convertNode formatFileSize folder] = [] /\
      forall index entry, orEmpty (allFiles folder) !! index = Some entry ->
        let row := fileLeaf formatFileSize folder index entry in
        (fi_isVideo entry = true ->
         handleTreeSelect [nodeKey row] [row] = [VideoSelect (toVideoFile entry)] /\
         In (toVideoFile entry) (videos folder)) /\
        (fi_isVideo entry = false ->
         handleTreeSelect [nodeKey row] [row] = [Alert (MSG_NOT_A_VIDEO (fi_name entry))]).
Proof.
  destruct (built_forest_store toLowerCase localeCompare files)
    as (forest & Hbuild & _).
  exists forest. split; [done|]. intros folder Hfolder. split; [done|].
  intros index entry Hentry row.
  destruct (built_forest_entries _ _ _ _ Hbuild folder Hfolder) as (entries & Hf & Hv & Hfile).
  rewrite Hf in Hentry. cbn [orEmpty] in Hentry.
  assert (Hin : In entry entries) by (by eapply list_elem_of_In, list_elem_of_lookup_2).
  destruct (Hfile entry Hin) as (file & _ & Hfrom).
  assert (Hfi : fi_file entry = Some file) by (by rewrite Hfrom).
  unfold row, fileLeaf. cbn [nodeKey handleTreeSelect].
  rewrite fileKey_selectable.
  rewrite Hfi. split; intros Hvid; rewrite Hvid; [|done].
  split; [by rewrite <- Hfi|].
  eapply Permutation_in; [symmetry; exact Hv|]. apply in_map, filter_In. by split.
Qed.

Lemma restored_rows_never_play_witness :
  let row :=
    fileLeaf (fun _ => []) (restoreFolder (hd (mkSnapshot [] [] None None None None)
                                             sampleSnapshot)) 0
      (mkFileItem None (JSString.lit "a.mp4") (JSString.lit "Course/a.mp4") 1 true) in
  handleTreeSelect [nodeKey row] [row] = [] \/
  handleTreeSelect [nodeKey row] [row] = [Alert MSG_FROM_CACHE].
Proof.
  intros row.
  apply (restored_rows_never_play (fun _ => []) sampleSnapshot [nodeKey row] [row]).
  intros r [<-|[]]. vm_compute. right. left. reflexivity.
Defined.

(** ** The cache, written and read back *)

Section ExplorerFacts.
Variable parseInfo : list N -> option CacheInfo.
Variable parseContent : list N -> option ContentCache.
Variable stringifyInfo : CacheInfo -> list N.
Variable stringifyContent : ContentCache -> list N.

Lemma truthyString_Some s : s <> [] -> truthyString (Some s) = Some s.
Proof. by destruct s. Qed.

Lemma snapshotFresh_expired content now :
  snapshotFresh content now <->
  match cc_timestamp content with
  | Some contentTimestamp => now - contentTimestamp >? RETENTION_MS
  | None => false
  end = false.
Proof.
  unfold snapshotFresh. destruct (cc_timestamp content) as [t|]; [|done].
  destruct (Z.gtb_spec (now - t) RETENTION_MS); split; intros; try done; lia.
Qed.

(** X17.  [loadFolderFromCache] restores the folders exactly when the
    snapshot is usable: both entries are present, not empty and parse, the
    stored tree is present, and the snapshot is at most seven days old (the
    seventh day included) or carries no time stamp.  The folders are then
    the restored tree and the folder name is the stored one. *)
Theorem loadFolderFromCache_restores (storage : Storage) (now : Z)
    (st st' : ExplorerState) (info : CacheInfo) :
  loadFolderFromCache parseInfo parseContent storage now st =
    Return st' (Some (mkCacheReport info true)) <->
  exists folderTree,
    snapshotUsable parseInfo parseContent storage now info folderTree /\
    st' = mkExplorerState (restoreFolderTree folderTree) (ci_folderName info).
Proof.
  unfold loadFolderFromCache, loadBody, snapshotUsable. split.
  - destruct (truthyString (FOLDER_CACHE storage)) as [cached|]; [|done].
    destruct (parseInfo cached) as [info0|] eqn:Hinfo; [|done].
    destruct (truthyString (FOLDER_CONTENT_CACHE storage)) as [contentCached|]; [|done].
    destruct (parseContent contentCached) as [content|] eqn:Hcontent; [|done].
    destruct (match cc_timestamp content with
              | Some contentTimestamp => now - contentTimestamp >? RETENTION_MS
              | None => false
              end) eqn:Hexp; [done|].
    destruct (cc_folderTree content) as [folderTree|] eqn:Htree; [|done].
    simpl. intros [= <- <-]. exists folderTree. split; [|done].
    exists cached, contentCached, content. repeat split; try done.
    by apply snapshotFresh_expired.
  - intros (folderTree & (cached & contentCached & content & -> & -> & -> & -> & Htree & Hfresh) & ->).
    apply snapshotFresh_expired in Hfresh. rewrite Hfresh, Htree. done.
Qed.

(** X18.  What [saveFolderToCache] writes, [loadFolderFromCache] reads back
    (given that [JSON.parse] undoes [JSON.stringify] on the two objects
    written): on the next visit, up to seven days after the save, the
    component shows the saved forest as [restoreFolderTree] rebuilds it,
    under the name of the first path segment of the first file; later than
    that it shows no folders but still the name. *)
Theorem saved_folder_is_restored (now1 now2 now : Z) (firstFile : File)
    (files : list File) (folderTree : list FolderNode) (storage : Storage)
    (st : ExplorerState) :
  let info := savedInfo now1 (firstFile :: files) firstFile in
  let content := savedContent now2 folderTree in
  stringifyInfo info <> [] -> parseInfo (stringifyInfo info) = Some info ->
  stringifyContent content <> [] -> parseContent (stringifyContent content) = Some content ->
  let storage' :=
    fst (saveFolderToCache stringifyInfo stringifyContent now1 now2
           (firstFile :: files) folderTree storage st) in
  loadFolderFromCache parseInfo parseContent storage' now initialState =
    if now - now2 >? RETENTION_MS
    then Return (mkExplorerState [] (folderNameOf firstFile))
           (Some (mkCacheReport info false))
    else Return (mkExplorerState (restoreFolderTree (simplifyFolderTree folderTree))
                   (folderNameOf firstFile))
           (Some (mkCacheReport info true)).
Proof.
  intros info content Hi1 Hi2 Hc1 Hc2 storage'.
  unfold storage', saveFolderToCache, loadFolderFromCache, loadBody.
  cbn [fst FOLDER_CACHE FOLDER_CONTENT_CACHE].
  fold info. fold content.
  rewrite (truthyString_Some _ Hi1), Hi2, (truthyString_Some _ Hc1), Hc2.
  cbn [cc_timestamp cc_folderTree content savedContent].
  by destruct (now - now2 >? RETENTION_MS).
Qed.

End ExplorerFacts.

Lemma saved_folder_is_restored_witness :
  let info := savedInfo 0 sampleBatch (sampleFile "Course/Part 2/b.mp4" "b.mp4") in
  let content := savedContent 0 [sampleFolder] in
  loadFolderFromCache (fun _ => Some info) (fun _ => Some content)
    (fst (saveFolderToCache (fun _ => JSString.lit "i") (fun _ => JSString.lit "c") 0 0
            sampleBatch [sampleFolder] (mkStorage None None) initialState))
    RETENTION_MS initialState =
  Return (mkExplorerState (restoreFolderTree (simplifyFolderTree [sampleFolder]))
            (JSString.lit "Course"))
    (Some (mkCacheReport info true)).
Proof.
  intros info content.
  exact (saved_folder_is_restored (fun _ => Some info) (fun _ => Some content)
           (fun _ => JSString.lit "i") (fun _ => JSString.lit "c") 0 0 RETENTION_MS
           (sampleFile "Course/Part 2/b.mp4" "b.mp4") (tail sampleBatch) [sampleFolder]
           (mkStorage None None) initialState
           ltac:(discriminate) eq_refl ltac:(discriminate) eq_refl).
Defined.

(** ** handleFolderSelect *)


(** ** calculateProgress *)

Lemma SFcompare_swap a b c :
  SFcompare a b = Some c -> SFcompare b a = Some (CompOpp c).
Proof.
  destruct a as [sa|sa| |sa ma ea], b as [sb|sb| |sb mb eb]; simpl; try done;
    try (intros [= <-]; by destruct sa; try destruct sb).
  intros [= <-]. f_equal. destruct sa, sb; try done.
  - rewrite (Z.compare_antisym ea eb). destruct (ea ?= eb); simpl; try done.
    rewrite Pos.compare_cont_antisym. simpl. by rewrite ?CompOpp_involutive.
  - rewrite (Z.compare_antisym ea eb). destruct (ea ?= eb); simpl; try done.
    rewrite Pos.compare_cont_antisym. simpl. by rewrite ?CompOpp_involutive.
Qed.

Lemma percentage_zero : percentage (JSDouble.ofZ 0).
Proof. by split. Qed.

Lemma percentage_hundred : percentage (JSDouble.ofZ 100).
Proof. by split. Qed.

Lemma min_max_clamps x :
  let clamped := JSDouble.min (JSDouble.ofZ 100) (JSDouble.max (JSDouble.ofZ 0) x) in
  (x = S754_nan -> clamped = S754_nan) /\
  (x <> S754_nan -> percentage clamped).
Proof.
  intros clamped. split; [by intros ->|]. intros Hx. unfold clamped, JSDouble.max.
  destruct (SFcompare (JSDouble.ofZ 0) x) as [[]|] eqn:H0.
  - apply percentage_zero.
  - unfold JSDouble.min. destruct (SFcompare (JSDouble.ofZ 100) x) as [[]|] eqn:H100.
    + apply percentage_hundred.
    + apply percentage_hundred.
    + split.
      * unfold SFleb. by rewrite H0.
      * unfold SFleb. by rewrite (SFcompare_swap _ _ _ H100).
    + by destruct x.
  - apply percentage_zero.
  - by destruct x.
Qed.

(** X28.  [calculateProgress] answers 0 for a duration that is 0, -0 or NaN.
    For any other duration its answer lies between 0 and 100, the bounds
    included, unless [(currentTime / duration) * 100] is NaN, and then the
    answer is NaN; this is so for every NaN [currentTime]. *)
Theorem calculateProgress_range (currentTime duration : spec_float) :
  let scaled :=
    JSDouble.mul (JSDouble.div currentTime duration) (JSDouble.ofZ 100) in
  (JSDouble.falsy duration = true -> calculateProgress currentTime duration = JSDouble.ofZ 0) /\
  (JSDouble.falsy duration = false ->
   (scaled <> S754_nan -> percentage (calculateProgress currentTime duration)) /\
   (scaled = S754_nan -> calculateProgress currentTime duration = S754_nan) /\
   (currentTime = S754_nan -> calculateProgress currentTime duration = S754_nan)).
Proof.
  intros scaled. unfold calculateProgress. split; [by intros ->|]. intros Hd. rewrite Hd.
  replace (JSDouble.strictEquals duration (JSDouble.ofZ 0)) with false
    by (destruct duration as [s|s| |s m e]; try done; by destruct s).
  cbn [orb]. fold scaled.
  destruct (min_max_clamps scaled) as [Hnan Hrange].
  split; [exact Hrange|]. split; [exact Hnan|].
  intros ->. apply Hnan. unfold scaled. by destruct duration.
Qed.

(** ** extractNumberFromFileName on a name without a label *)

Lemma search_digits_skip pre rest :
  forallb (fun x => negb (RegExp.isDigit x)) pre = true ->
  RegExp.search [RegExp.Digits] (pre ++ rest) = RegExp.search [RegExp.Digits] rest.
Proof.
  induction pre as [|x pre IH]; intros Hpre; [done|].
  simpl in Hpre. apply andb_true_iff in Hpre as [Hx Hpre]. apply negb_true_iff in Hx.
  cbn [app RegExp.search RegExp.matchHere].
  rewrite matchDigits_no_digit by done. by apply IH.
Qed.

Lemma search_label_absent unit s :
  c_di ∉ s ->
  RegExp.search [RegExp.Lit c_di; RegExp.Digits; RegExp.Lit unit] s = None.
Proof.
  induction s as [|x s IH]; intros Hs; [done|].
  apply not_elem_of_cons in Hs as [Hx Hs].
  cbn [RegExp.search RegExp.matchHere].
  destruct (N.eqb_spec x c_di); [congruence|]. by apply IH.
Qed.

(** X5.  In a name that has no label 第N节, 第N章 or 第N课 (as every name
    without 第), the key is [parseInt] of the first run of digits, wherever
    it stands: at the start, in the middle or in the extension, which is how
    "intro.mp4" comes by the key 4. *)
Theorem extractNumberFromFileName_first_run (fileName pre ds post : list N) :
  fileName = pre ++ ds ++ post ->
  forallb (fun x => negb (RegExp.isDigit x)) pre = true ->
  ds <> [] -> forallb RegExp.isDigit ds = true ->
  match post with [] => True | c :: _ => RegExp.isDigit c = false end ->
  (c_di ∉ fileName \/
   RegExp.exec pat_jie fileName = None /\ RegExp.exec pat_zhang fileName = None /\
   RegExp.exec pat_ke fileName = None) ->
  extractNumberFromFileName fileName = parseInt10 ds.
Proof.
  intros -> Hpre Hne Hds Hpost Hlabels.
  assert (Hnone : RegExp.exec pat_jie (pre ++ ds ++ post) = None /\
                  RegExp.exec pat_zhang (pre ++ ds ++ post) = None /\
                  RegExp.exec pat_ke (pre ++ ds ++ post) = None).
  { destruct Hlabels as [Hdi|H]; [|done].
    unfold RegExp.exec. simpl. repeat split; by apply search_label_absent. }
  destruct Hnone as (H1 & H2 & H3).
  unfold extractNumberFromFileName, patterns. cbn [firstMatch]. rewrite H1, H2, H3.
  assert (Hrun : RegExp.matchHere [RegExp.Digits] [] (ds ++ post) = Some ds).
  { cbn [RegExp.matchHere]. by apply matchDigits_greedy. }
  destruct pre as [|x pre].
  - unfold RegExp.exec at 1. cbn [RegExp.anchored RegExp.atoms pat_leading app].
    by rewrite Hrun.
  - unfold RegExp.exec at 1. cbn [RegExp.anchored RegExp.atoms pat_leading app].
    simpl in Hpre. apply andb_true_iff in Hpre as [Hx Hpre]. apply negb_true_iff in Hx.
    cbn [RegExp.matchHere]. rewrite matchDigits_no_digit by done.
    unfold RegExp.exec. cbn [RegExp.anchored RegExp.atoms pat_any].
    change (x :: pre ++ ds ++ post) with ((x :: pre) ++ ds ++ post).
    rewrite search_digits_skip by (simpl; by rewrite Hx).
    by rewrite (search_here _ _ _ Hrun).
Qed.

Lemma extractNumberFromFileName_first_run_witness :
  extractNumberFromFileName (JSString.lit "intro.mp4") = parseInt10 (JSString.lit "4").
Proof.
  apply (extractNumberFromFileName_first_run (JSString.lit "intro.mp4")
           (JSString.lit "intro.mp") (JSString.lit "4") []); try done.
  left. vm_compute. set_solver.
Defined.

(** ** The forest is sorted at every level *)

Lemma StronglySorted_weaken {A : Type} (R R' : A -> A -> Prop) (l : list A) :
  (forall a b, R a b -> R' a b) -> StronglySorted R l -> StronglySorted R' l.
Proof.
  intros HR. induction 1 as [|x l Hl IH Hx]; constructor; [done|].
  eapply Forall_impl; [exact Hx|]. intros y. apply HR.
Qed.

Lemma StronglySorted_Forall2 {A B : Type} (R : A -> A -> Prop) (R' : B -> B -> Prop)
    (Q : A -> B -> Prop) (l : list A) (l' : list B) :
  (forall a b a' b', Q a a' -> Q b b' -> R a b -> R' a' b') ->
  Forall2 Q l l' -> StronglySorted R l -> StronglySorted R' l'.
Proof.
  intros HR Hall. induction Hall as [|a a' l l' Ha Hall IH]; intros Hs; [constructor|].
  apply StronglySorted_inv in Hs as [Hs Hx]. constructor; [by apply IH|].
  clear IH Hs. induction Hall as [|b b' l l' Hb Hall IH]; [constructor|].
  apply Forall_cons in Hx as [Hab Hx]. constructor; [by eapply HR|by apply IH].
Qed.

Lemma sortFilesByNumber_naturallySorted localeCompare {A : Type} (nameOf : A -> list N) l :
  Consistent localeCompare ->
  naturallySorted localeCompare nameOf (sortFilesByNumber localeCompare nameOf l).
Proof.
  intros Hlc. unfold naturallySorted, sortFilesByNumber.
  eapply StronglySorted_weaken;
    [|apply arraySort_sorted, compareByNumber_Consistent, Hlc].
  intros a b. apply compareByNumber_le.
Qed.

(** Every folder of a reified tree is itself the tree of a reference. *)
Lemma folderNodes_reified m fuel : forall k T,
  toFolderNode fuel m k = Some T ->
  forall t, In t (folderNodes T) -> exists k', toFolderNode fuel m k' = Some t.
Proof.
  induction fuel as [|fuel IH]; intros k T HT t Ht; [done|].
  pose proof HT as HT0. cbn [toFolderNode] in HT.
  destruct (m !! k) as [o|] eqn:Hk; [|done].
  destruct (mapM (toFolderNode fuel m) (o_children o)) as [ch|] eqn:Hch; [|done].
  injection HT as <-. cbn [folderNodes children] in Ht. destruct Ht as [<-|Ht]; [by exists k|].
  apply in_flat_map in Ht as (c & Hc & Ht).
  apply mapM_Some in Hch. apply list_elem_of_In, list_elem_of_lookup in Hc as [i Hi].
  destruct (Forall2_lookup_r _ _ _ _ _ Hch Hi) as (kc & _ & Hkc).
  destruct (IH kc c Hkc t Ht) as (k' & Hk'). exists k'.
  eapply toFolderNode_mono; [|exact Hk']. lia.
Qed.

Lemma shown_name m fuel k t :
  toFolderNode fuel m k = Some t -> name t = nameAt m k.
Proof.
  intros Ht. destruct (toFolderNode_root _ _ _ _ Ht) as (o & Ho & Hn & _).
  unfold nameAt. by rewrite Ho.
Qed.

(** X4.  On a consistent [localeCompare], the forest
    [buildCompleteFolderTree] returns is in natural order at every level:
    the root folders, and in every folder its sub-folders, its videos and
    its files. *)
Theorem forest_is_sorted_at_every_level (toLowerCase : list N -> list N)
    (localeCompare : list N -> list N -> Z) (files : list File) :
  Consistent localeCompare ->
  exists forest,
    buildCompleteFolderTree toLowerCase localeCompare files = Some forest /\
    naturallySorted localeCompare name forest /\
    forall folder, In folder (forestNodes forest) ->
      naturallySorted localeCompare name (children folder) /\
      naturallySorted localeCompare v_name (videos folder) /\
      naturallySorted localeCompare fi_name (orEmpty (allFiles folder)).
Proof.
  intros Hlc.
  destruct (sortedStore_total localeCompare toLowerCase files) as (m1 & Hrun & Hs1 & _).
  destruct (buildCompleteFolderTree_total localeCompare toLowerCase files)
    as (m' & roots' & forest & Hsorted & _ & _ & _ & Hbuild & Hforest).
  assert (Heq : mkBuilder m1 (sortFilesByNumber localeCompare (nameAt m1)
                  (rootFolders (buildStore toLowerCase files))) = mkBuilder m' roots')
    by congruence.
  injection Heq as -> <-.
  pose proof (StoreInv_buildStore toLowerCase files) as Hinv0.
  destruct (buildStore toLowerCase files) as [m0 roots0].
  cbn [folderMap rootFolders] in *.
  pose proof (sort_pass_sortAll localeCompare Hlc _ _ Hinv0 _ _ Hrun) as Hall.
  exists forest. split; [done|]. split.
  - eapply (StronglySorted_Forall2 _ _ _ _ _ _ Hforest
              (sortFilesByNumber_naturallySorted localeCompare (nameAt m') _ Hlc)).
    Unshelve. intros a b a' b' Ha Hb. cbn beta.
    by rewrite (shown_name _ _ _ _ Ha), (shown_name _ _ _ _ Hb).
  - intros folder Hin. unfold forestNodes in Hin.
    apply in_flat_map in Hin as (T & HT & Hin).
    apply list_elem_of_In, list_elem_of_lookup in HT as [i Hi].
    destruct (Forall2_lookup_r _ _ _ _ _ Hforest Hi) as (r & _ & Hr).
    destruct (folderNodes_reified _ _ _ _ Hr folder Hin) as (k & Hk).
    destruct (toFolderNode_children _ _ _ _ Hk) as (o' & Ho' & Hch).
    destruct (toFolderNode_root _ _ _ _ Hk) as (o'' & Ho'' & _ & _ & Hv & Hf & _).
    assert (o'' = o') as -> by congruence.
    rewrite Hall in Ho'. unfold sortAll in Ho'. rewrite lookup_fmap in Ho'.
    destruct (m0 !! k) as [o|] eqn:Ho; [|done]. injection Ho' as <-.
    rewrite sortOwnLists_eq in Hch, Hv, Hf. cbn [o_children o_videos o_allFiles] in *.
    rewrite Hv, Hf. cbn [orEmpty].
    split; [|split; by apply sortFilesByNumber_naturallySorted].
    eapply (StronglySorted_Forall2 _ _ _ _ _ _ Hch
              (sortFilesByNumber_naturallySorted localeCompare (nameAt m0) _ Hlc)).
    Unshelve. intros a b a' b' Ha Hb. cbn beta.
    rewrite (shown_name _ _ _ _ Ha), (shown_name _ _ _ _ Hb).
    by rewrite Hall, !nameAt_sortAll.
Qed.

Lemma forest_is_sorted_at_every_level_witness :
  exists forest,
    buildCompleteFolderTree JSString.asciiLower JSString.codeUnitCompare scenarioBatch =
      Some forest /\
    naturallySorted JSString.codeUnitCompare name forest.
Proof.
  destruct (forest_is_sorted_at_every_level JSString.asciiLower JSString.codeUnitCompare
              scenarioBatch codeUnitCompare_Consistent) as (forest & Hbuild & Hsorted & _).
  exists forest. split; [exact Hbuild|exact Hsorted].
Defined.

(** ** The folders of the forest *)

Lemma walkKeys_joinSlash rest : forall currentPath,
  currentPath <> [] ->
  walkKeys rest currentPath =
  map (fun i => joinSlash (currentPath :: take i rest)) (seq 1 (length rest)).
Proof.
  induction rest as [|folderName rest IH]; intros currentPath Hne; [done|].
  cbn [walkKeys length seq map]. unfold nextPath at 1 2.
  destruct currentPath as [|c currentPath]; [done|].
  rewrite IH by (by destruct currentPath). f_equal.
  rewrite <- (seq_shift (length rest) 1), map_map. apply map_ext. intros i.
  change (take (S i) (folderName :: rest)) with (folderName :: take i rest).
  change ((c :: currentPath) ++ [SLASH] ++ folderName)
    with ((c :: currentPath) ++ SLASH :: folderName).
  by rewrite joinSlash_step.
Qed.

Lemma keysOf_directoriesOf fileItem :
  relativePath (fi_path fileItem) ->
  keysOf fileItem = list_to_set (directoriesOf (fi_path fileItem)).
Proof.
  intros Hrel. unfold keysOf, directoriesOf.
  pose proof (folderSegments_relative _ Hrel) as Hfirst.
  destruct (folderSegments (fi_path fileItem)) as [|segment rest]; [set_solver|].
  f_equal. cbn [walkKeys length seq map]. unfold nextPath at 1 2.
  rewrite walkKeys_joinSlash by done. f_equal.
  rewrite <- (seq_shift (length rest) 1), map_map. apply map_ext. intros i. done.
Qed.

(** X3.  For a batch of relative paths, the folders of the forest are the
    directories of the files, each once: a folder for every directory on
    the way to a file, under the path of that directory, and the root folder
    [''] exactly when some file lies in no directory.  A folder is called by
    the last segment of its path, the root folder 根目录, and only the root
    folder is expanded. *)
Theorem forest_folders_are_the_directories (toLowerCase : list N -> list N)
    (localeCompare : list N -> list N -> Z) (files : list File) :
  Forall (fun file => relativePath (descriptorPath file)) files ->
  exists forest,
    buildCompleteFolderTree toLowerCase localeCompare files = Some forest /\
    NoDup (map path (forestNodes forest)) /\
    (forall p, In p (map path (forestNodes forest)) <->
       exists file, In file files /\ In p (directoriesOf (descriptorPath file))) /\
    (forall folder, In folder (forestNodes forest) ->
       name folder = nameFor (path folder) /\
       isExpanded folder = Some (expandedFor (path folder))).
Proof.
  intros Hrel.
  destruct (buildCompleteFolderTree_total localeCompare toLowerCase files)
    as (m' & roots' & forest & _ & Hre & _ & Hinv & Hbuild & Hforest).
  exists forest. split; [done|].
  split; [by apply (forestNodes_paths_NoDup m' roots' Hinv forest)|].
  set (items := map (toFileItem toLowerCase) files).
  assert (Hitems : Forall (fun f => relativePath (fi_path f)) items).
  { apply Forall_forall. intros f Hf. apply list_elem_of_fmap in Hf as (file & -> & Hfile).
    rewrite fi_path_toFileItem. rewrite Forall_forall in Hrel. by apply Hrel. }
  split.
  - intros p. rewrite <- !list_elem_of_In.
    rewrite (forestNodes_paths m' roots' Hinv forest Hforest).
    rewrite elem_of_elements, (StoreReorder_dom _ _ Hre).
    unfold buildStore. rewrite dom_fold. cbn [folderMap]. rewrite dom_empty_L, union_empty_r_L.
    rewrite elem_of_union_list. split.
    + intros (X & HX & Hp). apply list_elem_of_fmap in HX as (f & -> & Hf).
      pose proof Hf as Hf'. apply list_elem_of_fmap in Hf' as (file & -> & Hfile).
      rewrite Forall_forall in Hitems. rewrite keysOf_directoriesOf in Hp by by apply Hitems.
      apply elem_of_list_to_set in Hp. rewrite fi_path_toFileItem in Hp.
      exists file. split; [by apply list_elem_of_In|by apply list_elem_of_In].
    + intros (file & Hfile & Hp). exists (keysOf (toFileItem toLowerCase file)). split.
      * apply list_elem_of_fmap. eexists. split; [done|].
        apply list_elem_of_fmap. exists file. split; [done|by apply list_elem_of_In].
      * rewrite keysOf_directoriesOf.
        -- apply elem_of_list_to_set. rewrite fi_path_toFileItem. by apply list_elem_of_In.
        -- rewrite fi_path_toFileItem. rewrite Forall_forall in Hrel.
           apply Hrel. by apply list_elem_of_In.
  - intros folder Hin.
    destruct (forest_node_object m' roots' Hinv forest Hforest folder Hin)
      as (o' & Ho' & Hn & Hp & _ & _ & He).
    destruct (StoreReorder_lookup _ _ _ o' Hre Ho') as (o & Ho & Hname & _ & Hexp & _).
    assert (Hnamed : namedByKey (folderMap (buildStore toLowerCase files))).
    { unfold buildStore. apply namedByKey_fold; [|done].
      intros k x Hx. cbn [folderMap] in Hx. by rewrite lookup_empty in Hx. }
    destruct (Hnamed _ o Ho) as [Hn0 He0].
    by rewrite Hn, He, Hname, Hexp, Hn0, He0.
Qed.

Lemma forest_folders_are_the_directories_witness :
  exists forest,
    buildCompleteFolderTree JSString.asciiLower JSString.codeUnitCompare sampleBatch =
      Some forest /\
    NoDup (map path (forestNodes forest)).
Proof.
  destruct (forest_folders_are_the_directories JSString.asciiLower JSString.codeUnitCompare
              sampleBatch) as (forest & Hbuild & Hnd & _).
  - repeat constructor; vm_compute; discriminate.
  - exists forest. split; [exact Hbuild|exact Hnd].
Defined.

(** ** buildFolderTree *)

Lemma addVideo_eq b video :
  addVideo b video =
  match folderSegments (v_path video) with
  | [] => pushVideoAt (getRootFolder b) [] video
  | pathParts =>
      pushVideoAt (walkBuilder pathParts [] None b) (fold_left nextPath pathParts [])
        video
  end.
Proof.
  unfold addVideo, folderSegments.
  destruct (removelast (JSString.split SLASH (v_path video))) as [|seg rest] eqn:Hparts;
    [done|].
  by rewrite fold_walkStep_eq.
Qed.

Lemma StoreInv_pushVideoAt b k video :
  StoreInv b -> StoreInv (pushVideoAt b k video).
Proof.
  intros Hb.
  destruct Hb as [si_path0 si_child0 si_root0 si_nodup_children0 si_nodup_roots0
                  si_root_not_child0 si_attached0].
  assert (Hlk : forall x o', alter (pushVideo video) k (folderMap b) !! x = Some o' ->
            exists o, folderMap b !! x = Some o /\
              (o' = o \/ o' = pushVideo video o)).
  { intros x o' Hx. destruct (decide (x = k)) as [->|Hne].
    - rewrite lookup_alter_eq in Hx. destruct (folderMap b !! k) as [o|]; [|done].
      injection Hx as <-. eauto.
    - rewrite lookup_alter_ne in Hx by done. eauto. }
  split; unfold pushVideoAt; cbn [folderMap rootFolders].
  - intros x o' Hx. apply Hlk in Hx as (o & Ho & [->| ->]); simpl; eauto.
  - intros x o' c Hx Hc. apply Hlk in Hx as (o & Ho & Ho').
    assert (Hc' : c ∈ o_children o) by (by destruct Ho' as [->| ->]).
    destruct (si_child0 x o c Ho Hc') as (Hc1 & Hc2 & Hc3).
    split; [|done]. by apply lookup_alter_is_Some.
  - intros r Hr. destruct (si_root0 r Hr) as [H1 H2]. split; [|done].
    by apply lookup_alter_is_Some.
  - intros x o' Hx. apply Hlk in Hx as (o & Ho & [->| ->]); simpl; eauto.
  - done.
  - intros r x o' Hr Hx. apply Hlk in Hx as (o & Ho & [->| ->]); simpl; eauto.
  - intros x Hx. apply lookup_alter_is_Some in Hx.
    destruct (si_attached0 x Hx) as [Hr|(o & Ho & Hc)]; [by left|].
    right. destruct (decide (dirname x = k)) as [Heq|Hneq].
    + exists (pushVideo video o). rewrite Heq in *. split; [|done].
      by rewrite lookup_alter_eq, Ho.
    + exists o. split; [|done]. by rewrite lookup_alter_ne.
Qed.

Lemma StoreInv_addVideo b video : StoreInv b -> StoreInv (addVideo b video).
Proof.
  intros Hb. rewrite addVideo_eq.
  pose proof (folderSegments_pieces (v_path video)) as Hparts.
  destruct (folderSegments (v_path video)) as [|seg rest].
  - by apply StoreInv_pushVideoAt, StoreInv_getRootFolder.
  - apply StoreInv_pushVideoAt, StoreInv_walkBuilder; done.
Qed.

Lemma StoreInv_foldVideo videoFiles : forall b,
  StoreInv b -> StoreInv (fold_left addVideo videoFiles b).
Proof.
  induction videoFiles as [|v videoFiles IH]; intros b Hb; [done|].
  simpl. by apply IH, StoreInv_addVideo.
Qed.

Lemma StoreInv_videoStore videoFiles : StoreInv (videoStore videoFiles).
Proof. apply StoreInv_foldVideo, StoreInv_empty. Qed.

(** The registered paths. *)
Lemma dom_addVideo b video :
  dom (folderMap (addVideo b video)) = pathKeys (v_path video) ∪ dom (folderMap b).
Proof.
  rewrite addVideo_eq. unfold pathKeys.
  destruct (folderSegments (v_path video)) as [|s rest];
    cbn [pushVideoAt folderMap]; rewrite dom_alter_L.
  - rewrite getRootFolder_eq. destruct (folderMap b !! []) eqn:Hr.
    + apply elem_of_dom_2 in Hr. set_solver.
    + cbn [insertRoot folderMap]. by rewrite dom_insert_L.
  - apply dom_walkBuilder.
Qed.

Lemma dom_foldVideo videoFiles : forall b,
  dom (folderMap (fold_left addVideo videoFiles b)) =
  ⋃ ((fun v => pathKeys (v_path v)) <$> videoFiles) ∪ dom (folderMap b).
Proof.
  induction videoFiles as [|v videoFiles IH]; intros b; simpl.
  - set_solver.
  - rewrite IH, dom_addVideo. set_solver.
Qed.

Lemma dom_videoStore videoFiles k :
  k ∈ dom (folderMap (videoStore videoFiles)) <->
  exists v, v ∈ videoFiles /\ k ∈ pathKeys (v_path v).
Proof.
  unfold videoStore. rewrite dom_foldVideo. cbn [folderMap].
  rewrite dom_empty_L, union_empty_r_L, elem_of_union_list. split.
  - intros (X & HX & Hk). apply list_elem_of_fmap in HX as (v & -> & Hv). eauto.
  - intros (v & Hv & Hk). exists (pathKeys (v_path v)). split; [|done].
    apply list_elem_of_fmap. eauto.
Qed.

Lemma keysOf_pathKeys fileItem : keysOf fileItem = pathKeys (fi_path fileItem).
Proof. done. Qed.

Lemma pathKeys_directoriesOf p :
  relativePath p -> pathKeys p = list_to_set (directoriesOf p).
Proof.
  intros Hrel. by apply (keysOf_directoriesOf (mkFileItem None [] p 0 false)).
Qed.

Lemma videoKey_relative video :
  relativePath (v_path video) -> videoKey video = dirname (v_path video).
Proof.
  intros Hrel. by apply (pushKey_relative (mkFileItem None [] (v_path video) 0 false)).
Qed.

(** Names and flags. *)
Lemma namedByKey_addVideo b video :
  namedByKey (folderMap b) -> relativePath (v_path video) ->
  namedByKey (folderMap (addVideo b video)).
Proof.
  intros Hb Hrel. rewrite addVideo_eq.
  pose proof (folderSegments_relative _ Hrel) as Hhead.
  pose proof (folderSegments_pieces (v_path video)) as Hparts.
  destruct (folderSegments (v_path video)) as [|s rest];
    cbn [pushVideoAt folderMap]; apply namedByKey_alter; try done.
  - rewrite getRootFolder_eq. destruct (folderMap b !! []) eqn:Hr; [done|].
    intros x o Hx. cbn [insertRoot folderMap] in Hx.
    apply lookup_insert_Some in Hx as [[<- <-]|[_ Hx]]; [done|by apply Hb].
  - by apply namedByKey_walkBuilder.
Qed.

Lemma namedByKey_videoStore videoFiles :
  Forall (fun v => relativePath (v_path v)) videoFiles ->
  namedByKey (folderMap (videoStore videoFiles)).
Proof.
  unfold videoStore.
  assert (Hgen : forall b, namedByKey (folderMap b) ->
            Forall (fun v => relativePath (v_path v)) videoFiles ->
            namedByKey (folderMap (fold_left addVideo videoFiles b))).
  { induction videoFiles as [|v videoFiles IH]; intros b Hb Hvs; [done|].
    apply Forall_cons in Hvs as [Hv Hvs]. simpl.
    apply IH; [by apply namedByKey_addVideo|done]. }
  apply Hgen. intros k x Hx. cbn [folderMap] in Hx. by rewrite lookup_empty in Hx.
Qed.

(** The videos of each folder. *)
Lemma videosExact_fresh done b k :
  videosExact done b -> folderMap b !! k = None ->
  List.filter (fun v => bool_decide (videoKey v = k)) done = [].
Proof.
  intros [Hdone _] Hk. induction done as [|f done IH]; [done|].
  simpl. destruct (bool_decide_reflect (videoKey f = k)) as [Heq|Hne].
  - destruct (Hdone f) as [o Ho]; [by left|]. congruence.
  - apply IH. intros f' Hf'. apply Hdone. by right.
Qed.

Lemma videosExact_stepBuilder done b currentPath currentParent folderName :
  videosExact done b -> videosExact done (stepBuilder b currentPath currentParent folderName).
Proof.
  intros Hb. pose proof Hb as [Hdone Hvideos]. split.
  - intros f Hf. by apply stepBuilder_mono, Hdone.
  - intros x o Hx. unfold stepBuilder in Hx.
    destruct (folderMap b !! nextPath currentPath folderName) eqn:Hk; [by apply Hvideos|].
    pose proof (videosExact_fresh done b _ Hb Hk) as Hfresh.
    destruct currentParent as [parent|]; cbn [insertChild insertRoot folderMap] in Hx.
    + destruct (decide (parent = x)) as [<-|Hne].
      * rewrite lookup_alter_eq in Hx.
        destruct (<[ nextPath currentPath folderName := _ ]> (folderMap b) !! parent)
          as [op|] eqn:Hp; [|done].
        injection Hx as <-. cbn [pushChild o_videos].
        apply lookup_insert_Some in Hp as [[<- <-]|[_ Hp]]; [done|by apply Hvideos].
      * rewrite lookup_alter_ne in Hx by done.
        apply lookup_insert_Some in Hx as [[<- <-]|[_ Hx]]; [done|by apply Hvideos].
    + apply lookup_insert_Some in Hx as [[<- <-]|[_ Hx]]; [done|by apply Hvideos].
Qed.

Lemma videosExact_walkBuilder done pathParts : forall b currentPath currentParent,
  videosExact done b -> videosExact done (walkBuilder pathParts currentPath currentParent b).
Proof.
  induction pathParts as [|s rest IH]; intros b cp par Hb; [done|].
  cbn [walkBuilder]. by apply IH, videosExact_stepBuilder.
Qed.

Lemma videosExact_getRootFolder done b :
  videosExact done b -> videosExact done (getRootFolder b).
Proof.
  intros Hb. pose proof Hb as [Hdone Hvideos]. rewrite getRootFolder_eq.
  destruct (folderMap b !! []) eqn:Hr; [done|]. split.
  - intros f Hf. cbn [insertRoot folderMap]. rewrite lookup_insert_is_Some.
    destruct (decide ([] = videoKey f)); auto.
  - intros x o Hx. cbn [insertRoot folderMap] in Hx.
    apply lookup_insert_Some in Hx as [[<- <-]|[_ Hx]]; [|by apply Hvideos].
    cbn [o_videos]. symmetry. by apply (videosExact_fresh done b).
Qed.

Lemma videosExact_pushVideoAt done b video :
  videosExact done b -> is_Some (folderMap b !! videoKey video) ->
  videosExact (done ++ [video]) (pushVideoAt b (videoKey video) video).
Proof.
  intros [Hdone Hvideos] Hkey. split; cbn [pushVideoAt folderMap].
  - intros f Hf. apply lookup_alter_is_Some.
    apply elem_of_app in Hf as [Hf|Hf]; [by apply Hdone|].
    by apply list_elem_of_singleton in Hf as ->.
  - intros x o Hx. rewrite List.filter_app. simpl.
    destruct (decide (videoKey video = x)) as [<-|Hne].
    + rewrite lookup_alter_eq in Hx.
      destruct (folderMap b !! videoKey video) as [o0|] eqn:Hk; [|done].
      injection Hx as <-. cbn [pushVideo o_videos].
      rewrite bool_decide_eq_true_2 by done. by rewrite (Hvideos _ o0 Hk).
    + rewrite lookup_alter_ne in Hx by done.
      rewrite bool_decide_eq_false_2 by done. rewrite app_nil_r. by apply Hvideos.
Qed.

Lemma videosExact_addVideo done b video :
  videosExact done b -> videosExact (done ++ [video]) (addVideo b video).
Proof.
  intros Hb. rewrite addVideo_eq.
  destruct (folderSegments (v_path video)) as [|s rest] eqn:Hsegs.
  - assert (Hpk : videoKey video = []) by (unfold videoKey; by rewrite Hsegs).
    rewrite <- Hpk. apply videosExact_pushVideoAt; [by apply videosExact_getRootFolder|].
    rewrite Hpk. apply getRootFolder_lookup.
  - assert (Hpk : videoKey video = fold_left nextPath (s :: rest) [])
      by (unfold videoKey; by rewrite Hsegs).
    cbv zeta. rewrite <- Hpk.
    apply videosExact_pushVideoAt; [by apply videosExact_walkBuilder|].
    rewrite Hpk. by apply walkBuilder_last.
Qed.

Lemma videosExact_videoStore videoFiles : videosExact videoFiles (videoStore videoFiles).
Proof.
  unfold videoStore.
  assert (Hgen : forall done b, videosExact done b ->
            videosExact (done ++ videoFiles) (fold_left addVideo videoFiles b)).
  { induction videoFiles as [|v videoFiles IH]; intros done b Hb; simpl.
    - by rewrite app_nil_r.
    - replace (done ++ v :: videoFiles) with ((done ++ [v]) ++ videoFiles)
        by (by rewrite <- app_assoc).
      by apply IH, videosExact_addVideo. }
  apply (Hgen [] (mkBuilder ∅ [])). split.
  - intros v Hv. by apply elem_of_nil in Hv.
  - intros k o Hk. cbn [folderMap] in Hk. by rewrite lookup_empty in Hk.
Qed.

(** The forest handed back is the forest of the store without its
    [allFiles]. *)
Lemma mapM_fmap_pointwise {A B C : Type} (f : A -> option C) (h : A -> option B)
    (g : B -> C) (l : list A) :
  (forall x, x ∈ l -> f x = g <$> h x) -> mapM f l = map g <$> mapM h l.
Proof.
  induction l as [|x l IH]; intros Hfg; [done|].
  cbn [mapM]. rewrite (Hfg x) by (by left).
  rewrite IH by (intros y Hy; apply Hfg; by right).
  destruct (h x) as [y|]; [|done]. simpl. by destruct (mapM h l).
Qed.

Lemma toVideoFolderNode_eq fuel : forall m k,
  toVideoFolderNode fuel m k = withoutAllFiles <$> toFolderNode fuel m k.
Proof.
  induction fuel as [|fuel IH]; intros m k; [done|].
  cbn [toVideoFolderNode toFolderNode]. destruct (m !! k) as [o|]; [|done].
  rewrite (mapM_fmap_pointwise _ (toFolderNode fuel m) withoutAllFiles)
    by (intros; apply IH).
  by destruct (mapM (toFolderNode fuel m) (o_children o)).
Qed.

Lemma folderNodes_withoutAllFiles folder :
  folderNodes (withoutAllFiles folder) = map withoutAllFiles (folderNodes folder).
Proof.
  induction folder as [n p ch vs af ex IH] using FolderNode_deep_ind.
  cbn [withoutAllFiles folderNodes children map name path videos isExpanded]. f_equal.
  induction IH as [|c ch Hc _ IHch]; [done|].
  cbn [map flat_map]. by rewrite map_app, Hc, IHch.
Qed.

Lemma forestNodes_withoutAllFiles forest :
  forestNodes (map withoutAllFiles forest) = map withoutAllFiles (forestNodes forest).
Proof.
  unfold forestNodes. induction forest as [|t forest IH]; [done|].
  cbn [map flat_map]. by rewrite map_app, folderNodes_withoutAllFiles, IH.
Qed.

(** The forest of [buildFolderTree], with what relates it to the store. *)
Lemma buildFolderTree_total videoFiles :
  exists full,
    Forall2 (fun r t =>
               toFolderNode (S (size (folderMap (videoStore videoFiles))))
                 (folderMap (videoStore videoFiles)) r = Some t)
      (rootFolders (videoStore videoFiles)) full /\
    buildFolderTree videoFiles = Some (map withoutAllFiles full).
Proof.
  pose proof (StoreInv_videoStore videoFiles) as Hinv.
  set (b := videoStore videoFiles) in *.
  assert (Hfull : is_Some (mapM (toFolderNode (S (size (folderMap b))) (folderMap b))
                             (rootFolders b))).
  { apply mapM_is_Some, Forall_forall. intros r Hr. unfold compose.
    apply toFolderNode_total; [by apply StoreInv_Shape| |].
    - by destruct (si_root _ Hinv r Hr).
    - unfold deeper. rewrite <- size_dom.
      apply Nat.lt_succ_r, subseteq_size. intros q Hq.
      by apply elem_of_filter in Hq as [_ Hq]. }
  destruct Hfull as [full Hfull]. exists full. split; [by apply mapM_Some|].
  unfold buildFolderTree. fold b. cbv zeta.
  rewrite (mapM_fmap_pointwise _ (toFolderNode (S (size (folderMap b))) (folderMap b))
             withoutAllFiles) by (intros; apply toVideoFolderNode_eq).
  by rewrite Hfull.
Qed.

(** What a folder of the forest shows of the store. *)
Lemma buildFolderTree_nodes videoFiles :
  exists forest,
    buildFolderTree videoFiles = Some forest /\
    NoDup (map path (forestNodes forest)) /\
    (forall p, p ∈ map path (forestNodes forest) <->
       p ∈ dom (folderMap (videoStore videoFiles))) /\
    (forall folder, In folder (forestNodes forest) ->
       allFiles folder = None /\
       exists o, folderMap (videoStore videoFiles) !! path folder = Some o /\
         name folder = o_name o /\ videos folder = o_videos o /\
         isExpanded folder = Some (o_isExpanded o)).
Proof.
  destruct (buildFolderTree_total videoFiles) as (full & Hfull & Hbuild).
  pose proof (StoreInv_videoStore videoFiles) as Hinv.
  destruct (videoStore videoFiles) as [m roots] eqn:Hb. cbn [folderMap rootFolders] in *.
  exists (map withoutAllFiles full). split; [done|].
  assert (Hpaths : map path (forestNodes (map withoutAllFiles full)) =
                   map path (forestNodes full)).
  { rewrite forestNodes_withoutAllFiles, map_map. apply map_ext. by intros []. }
  rewrite Hpaths. split; [by apply (forestNodes_paths_NoDup m roots Hinv full)|]. split.
  - intros p. rewrite (forestNodes_paths m roots Hinv full Hfull). apply elem_of_elements.
  - intros folder Hin. rewrite forestNodes_withoutAllFiles in Hin.
    apply in_map_iff in Hin as (folder0 & <- & Hin0).
    split; [by destruct folder0|].
    destruct (forest_node_object m roots Hinv full Hfull folder0 Hin0)
      as (o & Ho & Hn & Hp & Hv & _ & He).
    exists o. destruct folder0. cbn in *. by repeat split.
Qed.

Lemma filter_filter_comm {A : Type} (p q : A -> bool) (l : list A) :
  List.filter p (List.filter q l) = List.filter q (List.filter p l).
Proof.
  induction l as [|x l IH]; simpl; [done|].
  destruct (q x) eqn:Hq, (p x) eqn:Hp; simpl; rewrite ?Hq, ?Hp, IH; done.
Qed.

(** The videos of an object of the store of [buildCompleteFolderTree],
    before the sorting pass. *)
Lemma buildStore_videos toLowerCase files k o :
  folderMap (buildStore toLowerCase files) !! k = Some o ->
  o_videos o =
  List.filter (fun v => bool_decide (videoKey v = k))
    (convertFilesToVideoFiles toLowerCase files).
Proof.
  intros Ho. rewrite (videosOfFiles_buildStore toLowerCase files k o Ho).
  pose proof (filesExact_fold (map (toFileItem toLowerCase) files) [] _ filesExact_empty)
    as [_ Hfiles].
  rewrite (Hfiles k o Ho). cbn [app].
  rewrite convertFilesToVideoFiles_eq.
  rewrite (filter_map_same toVideoFile _ (fun f => bool_decide (pushKey f = k)))
    by done.
  by rewrite filter_filter_comm.
Qed.

(** X9.  [buildFolderTree] loses no video and repeats none: it comes back
    with a forest for every list of videos, the videos
    [getAllVideosFromFolder] collects from it are the videos of the list,
    each once, no two folders have the same path, and no folder has
    [allFiles]. *)
Theorem buildFolderTree_keeps_every_video (videoFiles : list VideoFile) :
  exists forest,
    buildFolderTree videoFiles = Some forest /\
    flat_map getAllVideosFromFolder forest ≡ₚ videoFiles /\
    NoDup (map path (forestNodes forest)) /\
    forall folder, In folder (forestNodes forest) -> allFiles folder = None.
Proof.
  destruct (buildFolderTree_nodes videoFiles) as (forest & Hbuild & Hnd & Hdom & Hnodes).
  destruct (videosExact_videoStore videoFiles) as [Hkeys Hvideos].
  exists forest. split; [done|]. split; [|split; [done|]].
  - rewrite forest_videos_nodes.
    transitivity (flat_map (fun k => List.filter (fun v => bool_decide (videoKey v = k))
                                       videoFiles)
                    (map path (forestNodes forest))).
    + assert (Heq : forall nodes,
                (forall folder, In folder nodes -> In folder (forestNodes forest)) ->
                flat_map videos nodes =
                flat_map (fun k => List.filter (fun v => bool_decide (videoKey v = k))
                                     videoFiles) (map path nodes)).
      { induction nodes as [|folder nodes IH]; intros Hsub; simpl; [done|].
        rewrite IH by (intros; apply Hsub; by right). f_equal.
        destruct (Hnodes folder (Hsub folder (or_introl eq_refl)))
          as (_ & o & Ho & _ & Hv & _).
        by rewrite Hv, (Hvideos _ o Ho). }
      by rewrite Heq.
    + apply flat_map_partition; [done|]. intros v Hv.
      apply Hdom, elem_of_dom, Hkeys. by apply list_elem_of_In.
  - intros folder Hin. by destruct (Hnodes folder Hin).
Qed.

(** X10.  For videos with relative paths, the folders of the forest of
    [buildFolderTree] are the directories of the videos, and every folder
    lists the videos of its own directory in the order of the input:
    nothing is sorted.  A folder is called by the last segment of its path,
    the root folder 根目录, and only the root folder is expanded. *)
Theorem buildFolderTree_groups_by_directory (videoFiles : list VideoFile) :
  Forall (fun v => relativePath (v_path v)) videoFiles ->
  exists forest,
    buildFolderTree videoFiles = Some forest /\
    (forall p, In p (map path (forestNodes forest)) <->
       exists v, In v videoFiles /\ In p (directoriesOf (v_path v))) /\
    (forall folder, In folder (forestNodes forest) ->
       videos folder =
         List.filter (fun v => bool_decide (dirname (v_path v) = path folder)) videoFiles /\
       name folder = nameFor (path folder) /\
       isExpanded folder = Some (expandedFor (path folder))).
Proof.
  intros Hrel. rewrite Forall_forall in Hrel.
  destruct (buildFolderTree_nodes videoFiles) as (forest & Hbuild & Hnd & Hdom & Hnodes).
  destruct (videosExact_videoStore videoFiles) as [Hkeys Hvideos].
  exists forest. split; [done|]. split.
  - intros p. rewrite <- list_elem_of_In, Hdom, dom_videoStore. split.
    + intros (v & Hv & Hp). exists v. split; [by apply list_elem_of_In|].
      rewrite pathKeys_directoriesOf in Hp by (by apply Hrel).
      apply elem_of_list_to_set in Hp. by apply list_elem_of_In.
    + intros (v & Hv & Hp). apply list_elem_of_In in Hv. exists v. split; [done|].
      rewrite pathKeys_directoriesOf by (by apply Hrel).
      apply elem_of_list_to_set. by apply list_elem_of_In.
  - intros folder Hin. destruct (Hnodes folder Hin) as (_ & o & Ho & Hn & Hv & He).
    assert (Hnamed : namedByKey (folderMap (videoStore videoFiles)))
      by (by apply namedByKey_videoStore, Forall_forall).
    destruct (Hnamed _ o Ho) as [Hn0 He0].
    split; [|by rewrite Hn, He, Hn0, He0].
    rewrite Hv, (Hvideos _ o Ho). apply List.filter_ext_in. intros v Hin'.
    rewrite videoKey_relative; [done|]. by apply Hrel, list_elem_of_In.
Qed.

Lemma buildFolderTree_groups_by_directory_witness :
  exists forest,
    buildFolderTree sampleVideos = Some forest /\
    forall folder, In folder (forestNodes forest) ->
      videos folder =
        List.filter (fun v => bool_decide (dirname (v_path v) = path folder)) sampleVideos.
Proof.
  destruct (buildFolderTree_groups_by_directory sampleVideos) as (forest & Hbuild & _ & Hall).
  - repeat constructor; vm_compute; discriminate.
  - exists forest. split; [exact Hbuild|]. intros folder Hin.
    exact (proj1 (Hall folder Hin)).
Defined.

(** X11.  The forest of [buildCompleteFolderTree] extends the forest
    [buildFolderTree] makes of the videos of the same batch: every folder of
    the latter is a folder of the former, under the same path and with the
    same videos up to their order, and the folders the complete forest has
    in addition hold no video of their own. *)
Theorem complete_forest_extends_video_forest (toLowerCase : list N -> list N)
    (localeCompare : list N -> list N -> Z) (files : list File) :
  exists videoForest forest,
    buildFolderTree (convertFilesToVideoFiles toLowerCase files) = Some videoForest /\
    buildCompleteFolderTree toLowerCase localeCompare files = Some forest /\
    (forall folder, In folder (forestNodes videoForest) ->
       exists folder', In folder' (forestNodes forest) /\
         path folder' = path folder /\ videos folder' ≡ₚ videos folder) /\
    (forall folder', In folder' (forestNodes forest) ->
       ~ In (path folder') (map path (forestNodes videoForest)) ->
       videos folder' = []).
Proof.
  set (videoFiles := convertFilesToVideoFiles toLowerCase files).
  destruct (buildFolderTree_nodes videoFiles) as (videoForest & Hbuildv & _ & Hdomv & Hnodesv).
  destruct (videosExact_videoStore videoFiles) as [Hkeys Hvideos].
  destruct (buildCompleteFolderTree_total localeCompare toLowerCase files)
    as (m' & roots' & forest & _ & Hre & _ & Hinv & Hbuild & Hforest).
  exists videoForest, forest. split; [done|]. split; [done|]. split.
  - intros folder Hin. destruct (Hnodesv folder Hin) as (_ & ov & Hov & _ & Hv & _).
    assert (Hk : path folder ∈ dom (folderMap (buildStore toLowerCase files))).
    { apply elem_of_dom_2 in Hov. apply dom_videoStore in Hov as (v & Hv' & Hp).
      unfold videoFiles in Hv'. rewrite convertFilesToVideoFiles_eq in Hv'.
      apply list_elem_of_fmap in Hv' as (f & -> & Hf).
      apply list_elem_of_In, filter_In in Hf as [Hf _].
      unfold buildStore. rewrite dom_fold. apply elem_of_union. left.
      apply elem_of_union_list. exists (keysOf f). split; [|done].
      apply list_elem_of_fmap. exists f. split; [done|by apply list_elem_of_In]. }
    rewrite <- (StoreReorder_dom _ _ Hre) in Hk.
    apply elem_of_elements in Hk.
    rewrite <- (forestNodes_paths m' roots' Hinv forest Hforest) in Hk.
    apply list_elem_of_fmap in Hk as (folder' & Hpath & Hin').
    apply list_elem_of_In in Hin'. exists folder'. split; [done|]. split; [done|].
    destruct (forest_node_object m' roots' Hinv forest Hforest folder' Hin')
      as (o' & Ho' & _ & _ & Hv' & _).
    destruct (StoreReorder_lookup _ _ _ o' Hre Ho') as (o & Ho & _ & _ & _ & _ & Hperm & _).
    rewrite Hv', Hperm, Hv, (Hvideos _ ov Hov), Hpath.
    rewrite <- Hpath in Ho. by rewrite (buildStore_videos toLowerCase files _ o Ho), Hpath.
  - intros folder' Hin' Hnone.
    destruct (forest_node_object m' roots' Hinv forest Hforest folder' Hin')
      as (o' & Ho' & _ & _ & Hv' & _).
    destruct (StoreReorder_lookup _ _ _ o' Hre Ho') as (o & Ho & _ & _ & _ & _ & Hperm & _).
    rewrite Hv'. apply Permutation_nil_r. rewrite Hperm.
    rewrite (buildStore_videos toLowerCase files _ o Ho). fold videoFiles.
    destruct (List.filter _ videoFiles) as [|v vs] eqn:Hf; [done|].
    exfalso. apply Hnone. apply list_elem_of_In, Hdomv, elem_of_dom.
    assert (Hv : In v (List.filter (fun v => bool_decide (videoKey v = path folder'))
                         videoFiles)) by (rewrite Hf; by left).
    apply filter_In in Hv as [Hv Hkey]. apply bool_decide_eq_true in Hkey.
    rewrite <- Hkey. apply Hkeys. by apply list_elem_of_In.
Qed.

(** ** The playlist as the history of the selections *)

Lemma filter_filter_implied {A : Type} (p q : A -> bool) (l : list A) :
  (forall x, p x = true -> q x = true) ->
  List.filter p (List.filter q l) = List.filter p l.
Proof.
  intros Hpq. induction l as [|x l IH]; simpl; [done|].
  destruct (q x) eqn:Hq; simpl; rewrite IH; [done|].
  destruct (p x) eqn:Hp; [|done]. apply Hpq in Hp. congruence.
Qed.

Lemma filter_filter_both {A : Type} (p q : A -> bool) (l : list A) :
  List.filter p (List.filter q l) = List.filter (fun x => q x && p x) l.
Proof.
  induction l as [|x l IH]; simpl; [done|].
  destruct (q x); simpl; rewrite IH; done.
Qed.

Lemma handleVideoEnd_playlist st st' :
  App.handleVideoEnd st = Some st' -> App.playlist st' = App.playlist st.
Proof.
  unfold App.handleVideoEnd.
  destruct (App.currentIndex st <? Z.of_nat (length (App.playlist st)) - 1).
  - destruct (at_index (App.playlist st) (App.currentIndex st + 1)); [|done].
    by intros [= <-].
  - by intros [= <-].
Qed.

Lemma selectionKey_entryOf item : selectionKey (entryOf item) = App.identity item.
Proof. done. Qed.

(** The playlist a run leaves, from any well-formed state on. *)
Lemma run_playlist events : forall st,
  App.wellFormed st ->
  Forall (fun item => item_isPlaying item = Some false) (App.playlist st) ->
  exists st',
    foldlM App.step st events = Some st' /\
    Forall (fun item => item_isPlaying item = Some false) (App.playlist st') /\
    map entryOf (App.playlist st') =
    map entryOf (App.playlist st) ++
    List.filter
      (fun s => negb (bool_decide (selectionKey s ∈ map App.identity (App.playlist st))))
      (firstOccurrences selectionKey (selected events)).
Proof.
  induction events as [|event events IH]; intros st Hst Hflags.
  - exists st. split; [done|]. split; [done|]. simpl. by rewrite app_nil_r.
  - destruct (wellFormed_step st event Hst) as (st1 & Hstep & Hst1).
    cbn [foldlM]. rewrite Hstep. cbn [mbind option_bind].
    destruct event as [newId video| |currentTime]; cbn [App.step] in Hstep.
    + injection Hstep as <-.
      cbn [selected flat_map app firstOccurrences List.filter].
      change (flat_map _ events) with (selected events).
      unfold App.handleVideoSelect in *.
      destruct (Z.eqb_spec (findIndex (App.samePathAndName video) (App.playlist st)) (-1))
        as [Hnone|Hsome]; cbn [negb] in *.
      * apply findIndex_from_none in Hnone; [|lia].
        assert (Hnew : (v_path video, v_name video) ∉ map App.identity (App.playlist st)).
        { intros Hin. apply list_elem_of_fmap in Hin as (item & Hid & Hin).
          rewrite Forall_forall in Hnone. specialize (Hnone item Hin).
          assert (App.samePathAndName video item = true); [|congruence].
          by apply samePathAndName_spec. }
        destruct (IH _ Hst1) as (st' & Hrun & Hflags' & Hentries).
        { cbn [App.playlist]. apply Forall_app. split; [done|]. by repeat constructor. }
        exists st'. split; [done|]. split; [done|].
        cbn [App.playlist] in Hentries. rewrite Hentries, !map_app, <- app_assoc. f_equal.
        cbn [map app entryOf item_id item_video App.identity List.filter selectionKey snd].
        rewrite bool_decide_eq_false_2 by done. cbn [negb]. f_equal.
        rewrite filter_filter_both. apply List.filter_ext. intros s.
        fold (selectionKey s).
        destruct (decide (selectionKey s = (v_path video, v_name video))) as [Heq|Hne].
        -- rewrite (bool_decide_eq_true_2 (selectionKey s = _)) by done.
           rewrite bool_decide_eq_true_2; [done|]. apply elem_of_app. right.
           by apply list_elem_of_singleton.
        -- rewrite (bool_decide_eq_false_2 (selectionKey s = _)) by done. cbn [negb andb].
           f_equal. apply bool_decide_ext. rewrite elem_of_app, list_elem_of_singleton. tauto.
      * assert (Hold : (v_path video, v_name video) ∈ map App.identity (App.playlist st)).
        { destruct (findIndex_from_found _ _ 0 _ ltac:(lia) eq_refl Hsome)
            as (item & Hitem & Hp & _).
          apply list_elem_of_fmap. exists item. split.
          - symmetry. by apply samePathAndName_spec.
          - by eapply list_elem_of_lookup_2. }
        destruct (IH _ Hst1) as (st' & Hrun & Hflags' & Hentries); [done|].
        exists st'. split; [done|]. split; [done|].
        rewrite Hentries. cbn [App.playlist]. f_equal.
        cbn [selectionKey snd]. rewrite bool_decide_eq_true_2 by done. cbn [negb].
        symmetry. apply filter_filter_implied. intros s Hs.
        apply negb_true_iff, bool_decide_eq_false in Hs.
        apply negb_true_iff, bool_decide_eq_false. intros Heq. apply Hs.
        by rewrite Heq.
    + pose proof (handleVideoEnd_playlist _ _ Hstep) as Hpl.
      destruct (IH _ Hst1) as (st' & Hrun & Hflags' & Hentries); [by rewrite Hpl|].
      exists st'. split; [done|]. split; [done|]. by rewrite Hentries, Hpl.
    + injection Hstep as <-.
      assert (Hids : map App.identity (App.playlist (App.handleTimeUpdate currentTime st)) =
                     map App.identity (App.playlist st)).
      { unfold App.handleTimeUpdate. destruct (_ && _); [|done]. by apply map_alter_same. }
      assert (Hents : map entryOf (App.playlist (App.handleTimeUpdate currentTime st)) =
                      map entryOf (App.playlist st)).
      { unfold App.handleTimeUpdate. destruct (_ && _); [|done]. by apply map_alter_same. }
      destruct (IH _ Hst1) as (st' & Hrun & Hflags' & Hentries).
      { assert (Hf : map item_isPlaying (App.playlist (App.handleTimeUpdate currentTime st)) =
                     map item_isPlaying (App.playlist st)).
        { unfold App.handleTimeUpdate. destruct (_ && _); [|done]. by apply map_alter_same. }
        apply (proj1 (List.Forall_map item_isPlaying (fun flag => flag = Some false) _)).
        rewrite Hf.
        by apply (proj2 (List.Forall_map item_isPlaying (fun flag => flag = Some false) _)). }
      exists st'. split; [done|]. split; [done|]. by rewrite Hentries, Hents, Hids.
Qed.

(** X24.  The playlist is the history of the selections: whatever calls the
    child components make, the playlist holds the videos that were handed
    to [handleVideoSelect], each once, in the order in which they were
    first selected and with the id made at that first selection; a later
    selection of a video with the same path and name adds nothing.  No item
    of the playlist is ever marked [isPlaying]. *)
Theorem playlist_is_the_selection_history (events : list App.Event) :
  exists st,
    App.run events = Some st /\
    map entryOf (App.playlist st) = firstOccurrences selectionKey (selected events) /\
    Forall (fun item => item_isPlaying item = Some false) (App.playlist st).
Proof.
  destruct (run_playlist events App.initial wellFormed_initial) as (st & Hrun & Hflags & Hentries).
  { constructor. }
  exists st. split; [done|]. split; [|done].
  rewrite Hentries. cbn [App.initial App.playlist map app]. clear.
  induction (firstOccurrences selectionKey (selected events)) as [|s l IH]; [done|].
  cbn [List.filter]. rewrite bool_decide_eq_false_2 by apply not_elem_of_nil.
  cbn [negb]. by rewrite IH.
Qed.
